(** * pyRiskTable: risk aggregation and adaptive Gauss-Legendre scenarios

  A shallow embedding of [pyRiskTable/risk.py] and
  [pyRiskTable/scenario.py].

  Numbers.  Python floats are modelled by the real numbers [R]; the
  value [np.inf], which the engines use to initialise [val] and [err],
  is the extra point [PInf] of [xreal].  In [Risk], [Scenario] and the
  modules of the examples every operation is exact: what is proved of
  them is about the formulas and the control flow of the program.  The
  two invariants that depend on the last digit, the sum of the rescaled
  weights and the sum of the state probabilities, are stated in
  [Rounded], where every operation is followed by a rounding, and
  evaluated on floats in [Float64].

  Exceptions.  A Python call either returns a value or raises; the
  model threads this through the [result] monad.

  External code.  [scipy.special.roots_legendre] is not part of the
  repository; the engines take it as a parameter and the theorems name
  the part of its contract they rely on. *)

From Stdlib Require Import Reals Lra Lia ZArith String Bool List.
From Stdlib Require Floats QArith.
Import ListNotations.

Local Open Scope R_scope.

(* ===================================================================== *)
(** ** Python exceptions and the result monad                            *)
(* ===================================================================== *)

Module Py.

(** The exceptions the modelled code can raise. *)
Inductive exn : Type :=
| AssertionError (msg : string)
| TypeError (msg : string)
| ValueError (msg : string)
| AxisError
| UnboundLocalError (name : string).

Inductive result (A : Type) : Type :=
| Ok (a : A)
| Raise (e : exn).
Arguments Ok {A} a.
Arguments Raise {A} e.

Definition bind {A B : Type} (m : result A) (k : A -> result B) : result B :=
  match m with
  | Ok a => k a
  | Raise e => Raise e
  end.

(** [assert cond, msg] *)
Definition assert (cond : bool) (msg : string) : result unit :=
  if cond then Ok tt else Raise (AssertionError msg).

(** Reading a local that the function body may not have assigned. *)
Definition local {A : Type} (name : string) (v : option A) : result A :=
  match v with
  | Some a => Ok a
  | None => Raise (UnboundLocalError name)
  end.

Definition is_some {A : Type} (o : option A) : bool :=
  match o with Some _ => true | None => false end.

Definition succeeds {A : Type} (m : result A) : Prop :=
  exists a, m = Ok a.

End Py.
Import Py.

Declare Scope py_scope.
Delimit Scope py_scope with py.
Notation "x <- m ;; k" := (bind m (fun x => k))
(at level 61, m at next level, right associativity) : py_scope.
Notation "' pat <- m ;; k" := (bind m (fun x => match x with pat => k end))
(at level 61, pat pattern, m at next level, right associativity) : py_scope.
Local Open Scope py_scope.

(* ===================================================================== *)
(** ** The fragment of NumPy the code uses                               *)
(* ===================================================================== *)

Module Np.

(** A value handed to, or returned by, a caller-supplied function:
    a float or a 1-D array of floats. *)
Inductive value : Type :=
| Float (r : R)
| Array (l : list R).

(** A Python callable of one argument. *)
Definition func : Type := value -> result value.
(** A Python callable of two arguments. *)
Definition func2 : Type := value -> value -> result value.

(** [np.sum] of a 1-D array. *)
Definition Rsum (l : list R) : R := fold_right Rplus 0 l.

(** Elementwise combination of two 1-D arrays of the same length. *)
Fixpoint zip_with (f : R -> R -> R) (l1 l2 : list R) : list R :=
  match l1, l2 with
  | x :: t1, y :: t2 => f x y :: zip_with f t1 t2
  | _, _ => []
  end.

(** [np.diff(a)] on a 1-D array: [out[i] = a[i+1] - a[i]]. *)
Fixpoint diff (l : list R) : list R :=
  match l with
  | x :: (y :: _) as t => (y - x) :: diff t
  | _ => []
  end.

(** [np.diff(a, axis=0, append=0)] on a 1-D array. *)
Definition diff_append (l : list R) (last : R) : list R := diff (l ++ [last]).

(** Unary minus on an array. *)
Definition neg (l : list R) : list R := map Ropp l.

(** [p @ c] for two 1-D arrays: the inner product, a [ValueError] when
    the lengths differ. *)
Definition matmul (p c : list R) : result R :=
  if (length p =? length c)%nat
  then Ok (Rsum (zip_with Rmult p c))
  else Raise (ValueError "matmul: size mismatch").

(** [x * y] with NumPy broadcasting between floats and 1-D arrays. *)
Definition mul (x y : value) : result value :=
  match x, y with
  | Float a, Float b => Ok (Float (a * b))
  | Float a, Array l => Ok (Array (map (Rmult a) l))
  | Array l, Float b => Ok (Array (map (fun e => e * b) l))
  | Array l1, Array l2 =>
      if (length l1 =? length l2)%nat then Ok (Array (zip_with Rmult l1 l2))
      else if (length l1 =? 1)%nat then Ok (Array (map (Rmult (hd 0 l1)) l2))
      else if (length l2 =? 1)%nat then Ok (Array (map (fun e => e * hd 0 l2) l1))
      else Raise (ValueError "operands could not be broadcast together")
  end.

(** [np.sum(v, axis=-1)]: defined on arrays, an [AxisError] on a 0-d value. *)
Definition sum_last_axis (v : value) : result R :=
  match v with
  | Array l => Ok (Rsum l)
  | Float _ => Raise AxisError
  end.

(** One call of the scalar function inside [np.vectorize]: the result
    must be a scalar to be stored in the output array. *)
Definition scalar_call (f : func) (x : R) : result R :=
  v <- f (Float x) ;;
  match v with
  | Float r => Ok r
  | Array _ => Raise (ValueError "setting an array element with a sequence.")
  end.

Fixpoint map_result (f : R -> result R) (l : list R) : result (list R) :=
  match l with
  | [] => Ok []
  | x :: t => y <- f x ;; ys <- map_result f t ;; Ok (y :: ys)
  end.

(** [np.vectorize(f)(v)]: [f] applied to every element on its own.
    A size-0 input cannot be vectorized without [otypes]. *)
Definition vectorize (f : func) : func :=
  fun v =>
    match v with
    | Float x => r <- scalar_call f x ;; Ok (Float r)
    | Array [] =>
        Raise (ValueError "cannot call `vectorize` on size 0 inputs unless `otypes` is set")
    | Array l => rs <- map_result (scalar_call f) l ;; Ok (Array rs)
    end.

(** [np.meshgrid(xs, ys)] followed by [ravel] on both outputs: the
    first output repeats [xs] once per element of [ys], the second
    repeats each element of [ys] once per element of [xs]. *)
Definition meshgrid_ravel (xs ys : list R) : list R * list R :=
  (flat_map (fun _ => xs) ys,
   flat_map (fun y => map (fun _ => y) xs) ys).

(** [np.vstack([u, v]).T]: the rows are the pairs [(u[i], v[i])]. *)
Definition vstack_T (u v : list R) : list (R * R) := combine u v.

End Np.

(* ===================================================================== *)
(** ** risk.py                                                           *)
(* ===================================================================== *)

Module Risk.
Import Np.

(** A fragility function evaluated at a scalar IM. *)
Definition fragility : Type := R -> R.

(** [cdf_array = np.array([func(im) for func in fragility_funcs])] *)
Definition cdf_array (im : R) (fragility_funcs : list fragility) : list R :=
  map (fun func => func im) fragility_funcs.

(** [prob_array = -np.diff(cdf_array, axis=0, append=0)] *)
Definition prob_array (cdf : list R) : list R := neg (diff_append cdf 0).

(** [expected_consequence(im, fragility_funcs=None, cq_array=None)]
    for a scalar [im].  [len(cq_array)] with [cq_array] left at its
    default [None] is a [TypeError]. *)
Definition expected_consequence (im : R)
    (fragility_funcs : option (list fragility))
    (cq_array : option (list R)) : result R :=
  match fragility_funcs with
  | None => Raise (AssertionError "Must provide a list of fragility functions")
  | Some funcs =>
      match cq_array with
      | None => Raise (TypeError "object of type 'NoneType' has no len()")
      | Some cq =>
          _ <- assert (length funcs =? length cq)%nat
                 "fragility_funcs and cq_array must have the same length" ;;
          matmul (prob_array (cdf_array im funcs)) cq
      end
  end.

End Risk.

(* ===================================================================== *)
(** ** scenario.py                                                       *)
(* ===================================================================== *)

Module Scenario.
Import Np.

(** A float that may be [np.inf]: [val] and [err] start there. *)
Inductive xreal : Type :=
| Fin (r : R)
| PInf.

(** [abs(newval - val)] for a finite [newval]: [newval - inf] is [-inf],
    whose absolute value is [inf]. *)
Definition abs_diff (newval : R) (val : xreal) : xreal :=
  match val with
  | Fin v => Fin (Rabs (newval - v))
  | PInf => PInf
  end.

(** [err < bound] for a finite [bound]; [inf < bound] is [False]. *)
Definition xlt (err : xreal) (bound : R) : bool :=
  match err with
  | Fin e => if Rlt_dec e bound then true else false
  | PInf => false
  end.

(** [err < tol or err < rtol*abs(val)], read after [val = newval]. *)
Definition stop_test (tol rtol : R) (err : xreal) (val : R) : bool :=
  xlt err tol || xlt err (rtol * Rabs val).

(** [warnings.warn(f"max order ({max_order:d}) reached. Latest difference
    = {err:e}", _AccuracyWarning)]: the warning carries the two numbers
    formatted into its message. *)
Inductive warning : Type :=
| _AccuracyWarning (order : Z) (difference : xreal).

(** [range(lo, hi)] *)
Definition range (lo hi : Z) : list Z :=
  map (fun i => (lo + Z.of_nat i)%Z) (seq 0 (Z.to_nat (hi - lo))).

(** How a [for ... else] loop was left. *)
Inductive loop_exit : Type :=
| Broke
| Exhausted.

Definition broke_flag (ex : loop_exit) : bool :=
  match ex with Broke => true | Exhausted => false end.

(** The outcome of a loop together with the number of times its body was
    entered (a ghost counter: the source does not count). *)
Record run (St : Type) : Type := mkRun {
  iterations : nat;
  outcome : result (St * loop_exit)
}.
Arguments mkRun {St} _ _.
Arguments iterations {St} _.
Arguments outcome {St} _.

(** [for n in orders: body] where the body reports whether it executed
    [break]; an exception raised by the body leaves the loop. *)
Fixpoint for_else {St : Type} (body : Z -> St -> result (St * bool))
    (orders : list Z) (s : St) : run St :=
  match orders with
  | [] => mkRun 0 (Ok (s, Exhausted))
  | n :: rest =>
      match body n s with
      | Raise e => mkRun 1 (Raise e)
      | Ok (s', true) => mkRun 1 (Ok (s', Broke))
      | Ok (s', false) =>
          let r := for_else body rest s' in
          mkRun (S (iterations r)) (outcome r)
      end
  end.

(** The same statement as a relation: [passes body orders s k r] holds
    when the loop over [orders] started in state [s] ends with outcome
    [r] after entering its body [k] times. *)
Inductive passes {St : Type} (body : Z -> St -> result (St * bool))
    : list Z -> St -> nat -> result (St * loop_exit) -> Prop :=
| passes_exhausted (s : St) :
    passes body [] s 0 (Ok (s, Exhausted))
| passes_break (n : Z) (rest : list Z) (s s' : St) :
    body n s = Ok (s', true) ->
    passes body (n :: rest) s 1 (Ok (s', Broke))
| passes_raise (n : Z) (rest : list Z) (s : St) (e : exn) :
    body n s = Raise e ->
    passes body (n :: rest) s 1 (Raise e)
| passes_next (n : Z) (rest : list Z) (s s' : St) (k : nat)
    (r : result (St * loop_exit)) :
    body n s = Ok (s', false) ->
    passes body rest s' k r ->
    passes body (n :: rest) s (S k) r.

(** [(hi-lo)*(x+1)/2.0+lo] on every abscissa. *)
Definition rescale_points (lo hi : R) (x : list R) : list R :=
  map (fun xi => (hi - lo) * (xi + 1) / 2 + lo) x.

(** [(hi-lo)/2.0 * w] on every weight. *)
Definition rescale_weights (lo hi : R) (w : list R) : list R :=
  map (fun wi => (hi - lo) / 2 * wi) w.

(** The wrapper chosen by a [vec_*] flag for a one-argument function:
    the function itself, or [np.vectorize] of it.  Keyword arguments are
    taken as already bound in [f]. *)
Definition adapter (vec : bool) (f : func) : func :=
  if vec then f else vectorize f.

(** [np.vectorize] of a two-argument function, on two floats or on two
    arrays of one length. *)
Fixpoint map2_result (f : R -> R -> result R) (l1 l2 : list R) : result (list R) :=
  match l1, l2 with
  | x :: t1, y :: t2 =>
      z <- f x y ;; zs <- map2_result f t1 t2 ;; Ok (z :: zs)
  | _, _ => Ok []
  end.

Definition scalar_call2 (f : func2) (x y : R) : result R :=
  v <- f (Float x) (Float y) ;;
  match v with
  | Float r => Ok r
  | Array _ => Raise (ValueError "setting an array element with a sequence.")
  end.

Definition vectorize2 (f : func2) : func2 :=
  fun u v =>
    match u, v with
    | Float x, Float y => r <- scalar_call2 f x y ;; Ok (Float r)
    | Array l1, Array l2 =>
        if (length l1 =? length l2)%nat
        then
          match l1 with
          | [] => Raise (ValueError "cannot call `vectorize` on size 0 inputs unless `otypes` is set")
          | _ => rs <- map2_result (scalar_call2 f) l1 l2 ;; Ok (Array rs)
          end
        else Raise (ValueError "operands could not be broadcast together")
    | Float x, Array l =>
        match l with
        | [] => Raise (ValueError "cannot call `vectorize` on size 0 inputs unless `otypes` is set")
        | _ => rs <- map_result (fun y => scalar_call2 f x y) l ;; Ok (Array rs)
        end
    | Array l, Float y =>
        match l with
        | [] => Raise (ValueError "cannot call `vectorize` on size 0 inputs unless `otypes` is set")
        | _ => rs <- map_result (fun x => scalar_call2 f x y) l ;; Ok (Array rs)
        end
    end.

Definition adapter2 (vec : bool) (f : func2) : func2 :=
  if vec then f else vectorize2 f.

Section Engines.

(** [scipy.special.roots_legendre]: for an order it returns the sample
    points and the weights of the Gauss-Legendre rule, or raises. *)
Variable roots_legendre : Z -> result (list R * list R).

(* --------------------------------------------------------------------- *)
(** *** generate_primary_event                                           *)
(* --------------------------------------------------------------------- *)

(** The locals of [generate_primary_event] that the loop assigns.  Those
    first assigned inside the loop body are unbound before it. *)
Record locals : Type := mkLocals {
  loc_n : option Z;
  loc_ims : option (list R);
  loc_scalers : option (list R);
  loc_likes : option value;
  loc_cqs : option value;
  loc_val : xreal;
  loc_err : xreal
}.

(** [val = np.inf; err = np.inf] *)
Definition init_locals : locals :=
  mkLocals None None None None None PInf PInf.

(** Lines 54-58: the rule of order [n] mapped to [[a, b]]. *)
Definition primary_grid (a b : R) (n : Z) : result (list R * list R) :=
  '(x, w) <- roots_legendre n ;;
  let ims := rescale_points a b x in
  let scalers := rescale_weights a b w in
  Ok (ims, scalers).

(** What one pass of the loop body computes before it touches [val]. *)
Record samples : Type := mkSamples {
  s_ims : list R;
  s_scalers : list R;
  s_likes : value;
  s_cqs : value;
  s_newval : R
}.

(** Lines 54-62. *)
Definition primary_samples (a b : R) (likelihood_vfunc consequence_vfunc : func)
    (n : Z) : result samples :=
  '(ims, scalers) <- primary_grid a b n ;;
  likes <- likelihood_vfunc (Array ims) ;;
  cqs <- consequence_vfunc (Array ims) ;;
  sl <- mul (Array scalers) likes ;;
  slc <- mul sl cqs ;;
  newval <- sum_last_axis slc ;;
  Ok (mkSamples ims scalers likes cqs newval).

(** Lines 54-68: one pass of the loop body; the boolean is [true] when
    the pass ends in [break]. *)
Definition primary_body (a b : R) (likelihood_vfunc consequence_vfunc : func)
    (tol rtol : R) (n : Z) (st : locals) : result (locals * bool) :=
  s <- primary_samples a b likelihood_vfunc consequence_vfunc n ;;
  let err := abs_diff (s_newval s) (loc_val st) in
  let val := s_newval s in
  Ok (mkLocals (Some n) (Some (s_ims s)) (Some (s_scalers s))
        (Some (s_likes s)) (Some (s_cqs s)) (Fin val) err,
      stop_test tol rtol err val).

(** Lines 51-68: the loop over [range(min_order, max_order+1)]. *)
Definition primary_loop (a b : R) (likelihood_vfunc consequence_vfunc : func)
    (tol rtol : R) (min_order max_order : Z) : run locals :=
  for_else (primary_body a b likelihood_vfunc consequence_vfunc tol rtol)
    (range min_order (max_order + 1)) init_locals.

(** The [else] clause of the loop: it runs when the loop was not left by
    [break]. *)
Definition else_clause (ex : loop_exit) (min_order max_order : Z)
    (err : xreal) : list warning :=
  match ex with
  | Broke => []
  | Exhausted =>
      if (max_order >? min_order)%Z
      then [_AccuracyWarning max_order err]
      else []
  end.

(** The 6-tuple returned by [generate_primary_event]. *)
Definition primary_result : Type :=
  (list R * list R * value * value * xreal * xreal)%type.

(** [generate_primary_event]: the returned tuple together with the
    warnings emitted. *)
Definition generate_primary_event (a b : R)
    (likelihood_func : option func) (vec_likelihood : bool)
    (consequence_func : option func) (vec_consequence : bool)
    (tol rtol : R) (min_order max_order : Z)
    : result (primary_result * list warning) :=
  match likelihood_func with
  | None => Raise (AssertionError "Must provide likelihood_func")
  | Some lf =>
  match consequence_func with
  | None => Raise (AssertionError "Must provide consequence_func")
  | Some cf =>
      let likelihood_vfunc := adapter vec_likelihood lf in
      let consequence_vfunc := adapter vec_consequence cf in
      '(st, ex) <- outcome (primary_loop a b likelihood_vfunc consequence_vfunc
                              tol rtol min_order max_order) ;;
      let warned := else_clause ex min_order max_order (loc_err st) in
      ims <- local "ims" (loc_ims st) ;;
      scalers <- local "scalers" (loc_scalers st) ;;
      likes <- local "likes" (loc_likes st) ;;
      cqs <- local "cqs" (loc_cqs st) ;;
      Ok ((ims, scalers, likes, cqs, loc_val st, loc_err st), warned)
  end
  end.

(* --------------------------------------------------------------------- *)
(** *** generate_secondary_event                                         *)
(* --------------------------------------------------------------------- *)

Record locals2 : Type := mkLocals2 {
  loc2_n : option Z;
  loc2_im1 : option (list R);
  loc2_im2 : option (list R);
  loc2_w1 : option (list R);
  loc2_w2 : option (list R);
  loc2_likes : option value;
  loc2_cqs : option value;
  loc2_val : xreal;
  loc2_err : xreal
}.

Definition init_locals2 : locals2 :=
  mkLocals2 None None None None None None None PInf PInf.

(** Lines 125-139: one rule of order [n] mapped to [[a, b]] and to
    [[c, d]], and the two raveled grids. *)
Definition secondary_grid (a b c d : R) (n : Z)
    : result (list R * list R * list R * list R) :=
  '(pts1, pts1_w) <- roots_legendre n ;;
  let '(pts2, pts2_w) := (pts1, pts1_w) in
  let im1 := rescale_points a b pts1 in
  let im2 := rescale_points c d pts2 in
  let '(im1, im2) := meshgrid_ravel im1 im2 in
  let w1 := rescale_weights a b pts1_w in
  let w2 := rescale_weights c d pts2_w in
  let '(w1, w2) := meshgrid_ravel w1 w2 in
  Ok (im1, im2, w1, w2).

Record samples2 : Type := mkSamples2 {
  s2_im1 : list R;
  s2_im2 : list R;
  s2_w1 : list R;
  s2_w2 : list R;
  s2_likes : value;
  s2_cqs : value;
  s2_newval : R
}.

(** Lines 125-145.  Lines 143-144 call [consequence_func] and
    [likelihood_func] themselves, on the whole arrays. *)
Definition secondary_samples (a b c d : R) (likelihood_func : func2)
    (consequence_func : func) (n : Z) : result samples2 :=
  '(im1, im2, w1, w2) <- secondary_grid a b c d n ;;
  cqs <- consequence_func (Array im2) ;;
  likes <- likelihood_func (Array im1) (Array im2) ;;
  ww <- mul (Array w1) (Array w2) ;;
  wwl <- mul ww likes ;;
  wwlc <- mul wwl cqs ;;
  newval <- sum_last_axis wwlc ;;
  Ok (mkSamples2 im1 im2 w1 w2 likes cqs newval).

(** Lines 125-151. *)
Definition secondary_body (a b c d : R) (likelihood_func : func2)
    (consequence_func : func) (tol rtol : R) (n : Z) (st : locals2)
    : result (locals2 * bool) :=
  s <- secondary_samples a b c d likelihood_func consequence_func n ;;
  let err := abs_diff (s2_newval s) (loc2_val st) in
  let val := s2_newval s in
  Ok (mkLocals2 (Some n) (Some (s2_im1 s)) (Some (s2_im2 s))
        (Some (s2_w1 s)) (Some (s2_w2 s))
        (Some (s2_likes s)) (Some (s2_cqs s)) (Fin val) err,
      stop_test tol rtol err val).

Definition secondary_loop (a b c d : R) (likelihood_func : func2)
    (consequence_func : func) (tol rtol : R) (min_order max_order : Z)
    : run locals2 :=
  for_else (secondary_body a b c d likelihood_func consequence_func tol rtol)
    (range min_order (max_order + 1)) init_locals2.

(** The 6-tuple returned by [generate_secondary_event]. *)
Definition secondary_result : Type :=
  (list (R * R) * list (R * R) * value * value * xreal * xreal)%type.

(** [generate_secondary_event].  The two wrappers of lines 112-120 are
    built as in the primary engine; the loop body does not call them. *)
Definition generate_secondary_event (a b c d : R)
    (likelihood_func : option func2) (vec_likelihood : bool)
    (consequence_func : option func) (vec_consequence : bool)
    (tol rtol : R) (min_order max_order : Z)
    : result (secondary_result * list warning) :=
  match likelihood_func with
  | None => Raise (AssertionError "Must provide likelihood_func")
  | Some lf =>
  match consequence_func with
  | None => Raise (AssertionError "Must provide consequence_func")
  | Some cf =>
      let likelihood_vfunc := adapter2 vec_likelihood lf in
      let consequence_vfunc := adapter vec_consequence cf in
      '(st, ex) <- outcome (secondary_loop a b c d lf cf
                              tol rtol min_order max_order) ;;
      let warned := else_clause ex min_order max_order (loc2_err st) in
      im1 <- local "im1" (loc2_im1 st) ;;
      im2 <- local "im2" (loc2_im2 st) ;;
      let im := vstack_T im1 im2 in
      w1 <- local "w1" (loc2_w1 st) ;;
      w2 <- local "w2" (loc2_w2 st) ;;
      let scaler := vstack_T w1 w2 in
      likes <- local "likes" (loc2_likes st) ;;
      cqs <- local "cqs" (loc2_cqs st) ;;
      Ok ((im, scaler, likes, cqs, loc2_val st, loc2_err st), warned)
  end
  end.

End Engines.

(** Default values of the keyword parameters. *)
Definition default_tol : R := / 10 ^ 8.
Definition default_rtol : R := / 10 ^ 8.
Definition default_min_order : Z := 1.
Definition default_max_order : Z := 50.

End Scenario.

(* ===================================================================== *)
(** ** Reference definitions and concrete inputs                         *)
(* ===================================================================== *)

Module Reference.
Import Np Risk Scenario.

(** The sum of [f 0], ..., [f (k-1)]. *)
Fixpoint sum_upto (k : nat) (f : nat -> R) : R :=
  match k with
  | O => 0
  | S k' => sum_upto k' f + f k'
  end.

(** The value at [im] of the [j]-th fragility curve, and 0 beyond the
    last curve. *)
Definition CDF (im : R) (fragility_funcs : list fragility) (j : nat) : R :=
  match nth_error fragility_funcs j with
  | Some func => func im
  | None => 0
  end.

(** The probability of landing in exactly damage state [j]. *)
Definition state_probability (im : R) (fragility_funcs : list fragility)
    (j : nat) : R :=
  CDF im fragility_funcs j - CDF im fragility_funcs (S j).

(** The consequence-weighted sum of the state probabilities. *)
Definition weighted_sum (im : R) (fragility_funcs : list fragility)
    (cq_array : list R) : R :=
  sum_upto (length fragility_funcs)
    (fun j => state_probability im fragility_funcs j * nth j cq_array 0).


(** [err < bound] as a proposition. *)
Definition below (err : xreal) (bound : R) : Prop :=
  match err with
  | Fin e => e < bound
  | PInf => False
  end.

(** A rule that integrates every polynomial of degree at most 1: one
    weight per point, at least one point, and the first two moments of
    the interval [[-1, 1]]. *)
Definition integrates_affine (x w : list R) : Prop :=
  length x = length w /\ x <> [] /\
  Rsum w = 2 /\ Rsum (zip_with Rmult w x) = 0.

(** The Gauss-Legendre rules of order 1 and 2, as a stand-in for
    [roots_legendre] on these two orders; other orders are refused the
    way [roots_legendre] refuses an order below 1. *)
Definition gauss_legendre_12 (n : Z) : result (list R * list R) :=
  match n with
  | 1%Z => Ok ([0], [2])
  | 2%Z => Ok ([- / sqrt 3; / sqrt 3], [1; 1])
  | _ => Raise (ValueError "n must be a positive integer.")
  end.

(** [lambda im: 1] *)
Definition constant_one : func := fun _ => Ok (Float 1).

(** [lambda im: im] *)
Definition identity : func := fun im => Ok im.

(** [lambda im1, im2: 1.0] *)
Definition constant_one2 : func2 := fun _ _ => Ok (Float 1).

(** [lambda im: 2.0 * float(im)], a function of one scalar: [float]
    accepts a float or an array of one element and refuses any other
    array. *)
Definition twice_float : func :=
  fun im =>
    match im with
    | Float r => Ok (Float (2 * r))
    | Array [r] => Ok (Float (2 * r))
    | Array _ =>
        Raise (TypeError "only length-1 arrays can be converted to Python scalars")
    end.

(** Four fragility curves that are constant in the IM. *)
Definition constant_curves (c0 c1 c2 c3 : R) : list fragility :=
  [fun _ => c0; fun _ => c1; fun _ => c2; fun _ => c3].

End Reference.

(** Splits a hypothesis [x <- m ;; k = Ok r] into the two successful
    steps. *)
Ltac bind_ok H :=
  match type of H with
  | bind ?m _ = Ok _ =>
      let E := fresh "E" in
      destruct m eqn:E; simpl in H; [|discriminate H]
  end.

(* ===================================================================== *)
(** ** risk.py on floats and arrays                                      *)
(* ===================================================================== *)

Module RiskArrays.
Import Np.

(** What [np.array] makes of a list of floats (one dimension) or of a
    list of 1-D arrays of one length (two dimensions, one row per
    array). *)
Inductive ndarray : Type :=
| Arr1 (l : list R)
| Arr2 (rows : list (list R)).

Fixpoint all_floats (vs : list value) : option (list R) :=
  match vs with
  | [] => Some []
  | Float r :: t =>
      match all_floats t with Some l => Some (r :: l) | None => None end
  | Array _ :: _ => None
  end.

Fixpoint all_arrays (vs : list value) : option (list (list R)) :=
  match vs with
  | [] => Some []
  | Array r :: t =>
      match all_arrays t with Some l => Some (r :: l) | None => None end
  | Float _ :: _ => None
  end.

Definition same_lengths (rows : list (list R)) : bool :=
  match rows with
  | [] => true
  | r :: t => forallb (fun r' => (length r' =? length r)%nat) t
  end.

(** [np.array(vs)] (NumPy 1.24 and later: a ragged list is refused). *)
Definition np_array (vs : list value) : result ndarray :=
  match all_floats vs with
  | Some l => Ok (Arr1 l)
  | None =>
      match all_arrays vs with
      | Some rows =>
          if same_lengths rows then Ok (Arr2 rows)
          else Raise (ValueError "setting an array element with a sequence. The requested array has an inhomogeneous shape")
      | None =>
          Raise (ValueError "setting an array element with a sequence. The requested array has an inhomogeneous shape")
      end
  end.

(** [np.diff] along axis 0 of a 2-D array: each row minus the row
    before it. *)
Fixpoint diff_rows (rows : list (list R)) : list (list R) :=
  match rows with
  | r1 :: (r2 :: _) as t => zip_with Rminus r2 r1 :: diff_rows t
  | _ => []
  end.

(** [-np.diff(a, axis=0, append=0)]: in two dimensions the appended 0
    is a row of zeros as wide as the array. *)
Definition neg_diff_append (a : ndarray) : ndarray :=
  match a with
  | Arr1 l => Arr1 (neg (diff_append l 0))
  | Arr2 rows =>
      let zeros := map (fun _ => 0) (hd [] rows) in
      Arr2 (map neg (diff_rows (rows ++ [zeros])))
  end.

(** Entry [i] of [rows.T @ c]: the sum over the rows [j] of
    [rows[j][i] * c[j]]. *)
Definition column_dot (rows : list (list R)) (c : list R) (i : nat) : R :=
  Rsum (zip_with Rmult (map (fun row => nth i row 0) rows) c).

(** [a.T @ c] for a 1-D [c]. *)
Definition matmul_T (a : ndarray) (c : list R) : result value :=
  match a with
  | Arr1 l => r <- matmul l c ;; Ok (Float r)
  | Arr2 rows =>
      if (length rows =? length c)%nat
      then Ok (Array (map (column_dot rows c) (seq 0 (length (hd [] rows)))))
      else Raise (ValueError "matmul: size mismatch")
  end.

Fixpoint call_each (funcs : list func) (im : value) : result (list value) :=
  match funcs with
  | [] => Ok []
  | f :: t => v <- f im ;; vs <- call_each t im ;; Ok (v :: vs)
  end.

(** [expected_consequence(im, fragility_funcs=None, cq_array=None)] for
    a float or a 1-D array [im]; every fragility function is called on
    [im] itself. *)
Definition expected_consequence (im : value)
    (fragility_funcs : option (list func))
    (cq_array : option (list R)) : result value :=
  match fragility_funcs with
  | None => Raise (AssertionError "Must provide a list of fragility functions")
  | Some funcs =>
      match cq_array with
      | None => Raise (TypeError "object of type 'NoneType' has no len()")
      | Some cq =>
          _ <- assert (length funcs =? length cq)%nat
                 "fragility_funcs and cq_array must have the same length" ;;
          cdfs <- call_each funcs im ;;
          cdf_array <- np_array cdfs ;;
          let prob_array := neg_diff_append cdf_array in
          matmul_T prob_array cq
      end
  end.

(** [risk_integrand(im, hazard_func=None, fragility_funcs=None,
    cq_array=None)] *)
Definition risk_integrand (im : value) (hazard_func : option func)
    (fragility_funcs : option (list func)) (cq_array : option (list R))
    : result value :=
  match hazard_func with
  | None => Raise (AssertionError "Must provide hazard_func")
  | Some hazard =>
      conditional_risks <- expected_consequence im fragility_funcs cq_array ;;
      likelihoods <- hazard im ;;
      mul conditional_risks likelihoods
  end.

(** [second_risk_integrand(im1, im2, hazard_func=None,
    fragility_funcs=None, cq_array=None)] *)
Definition second_risk_integrand (im1 im2 : value) (hazard_func : option func2)
    (fragility_funcs : option (list func)) (cq_array : option (list R))
    : result value :=
  match hazard_func with
  | None => Raise (AssertionError "Must provide hazard_func")
  | Some hazard =>
      risk_im <- expected_consequence im2 fragility_funcs cq_array ;;
      like_im <- hazard im1 im2 ;;
      mul risk_im like_im
  end.

(** A function of one float that NumPy applies to an array element by
    element (as [stats.lognorm.cdf] does). *)
Definition elementwise (g : R -> R) : func :=
  fun v =>
    match v with
    | Float x => Ok (Float (g x))
    | Array l => Ok (Array (map g l))
    end.

(** A function of two floats that NumPy applies to two arrays element
    by element, with a float broadcast against an array. *)
Definition elementwise2 (h : R -> R -> R) : func2 :=
  fun u v =>
    match u, v with
    | Float x, Float y => Ok (Float (h x y))
    | Float x, Array l => Ok (Array (map (h x) l))
    | Array l, Float y => Ok (Array (map (fun x => h x y) l))
    | Array l1, Array l2 =>
        if (length l1 =? length l2)%nat then Ok (Array (zip_with h l1 l2))
        else Raise (ValueError "operands could not be broadcast together")
    end.

End RiskArrays.

(* ===================================================================== *)
(** ** example/constants.py                                              *)
(* ===================================================================== *)

Module Constants.

Definition RATE : R := 0.01.
Definition M_HAZARD : R := 6.5.
Definition R_HAZARD : R := 10.
Definition SIGMA_HAZARD : R := 0.57.

Definition PGA_S : R := 0.30.
Definition PGA_M : R := 0.36.
Definition PGA_E : R := 0.49.
Definition PGA_C : R := 0.71.
Definition PGA_SIGMA : R := 0.6.

Definition NDS : Z := 4.
Definition CQ_S : R := 0.12.
Definition CQ_M : R := 0.19.
Definition CQ_E : R := 0.48.
Definition CQ_C : R := 1.00.

Definition PGD_S : R := 3.9.
Definition PGD_M : R := 3.9.
Definition PGD_E : R := 3.9.
Definition PGD_C : R := 13.8.
Definition PGD_SIGMA : R := 0.2.
Definition LQ_CLASS : Z := 5.
Definition WATER_DEPTH : R := 0.0.

End Constants.

(* ===================================================================== *)
(** ** example/fragility.py                                              *)
(* ===================================================================== *)

Module Fragility.
Import Risk Constants.

(** [str.lower] on the letters A-Z; every other byte is kept. *)
Definition lower_ascii (c : Ascii.ascii) : Ascii.ascii :=
  let n := Ascii.nat_of_ascii c in
  if ((65 <=? n) && (n <=? 90))%nat then Ascii.ascii_of_nat (n + 32) else c.

Fixpoint lower (s : string) : string :=
  match s with
  | EmptyString => EmptyString
  | String c t => String (lower_ascii c) (lower t)
  end.

(** [s in names] for a tuple of strings. *)
Definition is_in (s : string) (names : list string) : bool :=
  existsb (String.eqb s) names.

Section Lognormal.

(** [stats.lognorm.cdf(x, s, scale=scale)] at a float [x]. *)
Variable lognorm_cdf : R -> R -> R -> R.

(** [fragility_curve(damage_state='s', scale=1.0)]: the chain of
    [if]/[elif] has no [else], so [func] stays unbound for any other
    name. *)
Definition fragility_curve (damage_state : string) (scale : R)
    : result fragility :=
  let median_s := scale * PGA_S in
  let median_m := scale * PGA_M in
  let median_e := scale * PGA_E in
  let median_c := scale * PGA_C in
  if is_in (lower damage_state) ["s"; "slight"]%string then
    Ok (fun im => lognorm_cdf im PGA_SIGMA median_s)
  else if is_in (lower damage_state) ["m"; "moderate"]%string then
    Ok (fun im => lognorm_cdf im PGA_SIGMA median_m)
  else if is_in (lower damage_state) ["e"; "extensive"]%string then
    Ok (fun im => lognorm_cdf im PGA_SIGMA median_e)
  else if is_in (lower damage_state) ["c"; "complete"; "collapse"]%string then
    Ok (fun im => lognorm_cdf im PGA_SIGMA median_c)
  else Raise (UnboundLocalError "func").

(** [fragility_curve_second(damage_state='s', scale=1.0)] *)
Definition fragility_curve_second (damage_state : string) (scale : R)
    : result fragility :=
  if is_in (lower damage_state) ["s"; "slight"]%string then
    Ok (fun im => lognorm_cdf im PGD_SIGMA PGD_S)
  else if is_in (lower damage_state) ["m"; "moderate"]%string then
    Ok (fun im => lognorm_cdf im PGD_SIGMA PGD_M)
  else if is_in (lower damage_state) ["e"; "extensive"]%string then
    Ok (fun im => lognorm_cdf im PGD_SIGMA PGD_E)
  else if is_in (lower damage_state) ["c"; "complete"; "collapse"]%string then
    Ok (fun im => lognorm_cdf im PGD_SIGMA PGD_C)
  else Raise (UnboundLocalError "func").

End Lognormal.

End Fragility.

(* ===================================================================== *)
(** ** example/hazard.py                                                 *)
(* ===================================================================== *)

Module Hazard.
Import Np Scenario Constants.

(** The exceptions of this file: those of [Py], and the [KeyError] of a
    dictionary lookup. *)
Inductive error : Type :=
| KeyError (key : Z)
| Exn (e : exn).

Inductive hresult (A : Type) : Type :=
| Returned (a : A)
| Failed (e : error).
Arguments Returned {A} a.
Arguments Failed {A} e.

Definition hbind {A B : Type} (m : hresult A) (k : A -> hresult B)
    : hresult B :=
  match m with
  | Returned a => k a
  | Failed e => Failed e
  end.

Definition lift {A : Type} (r : result A) : hresult A :=
  match r with
  | Ok a => Returned a
  | Raise e => Failed (Exn e)
  end.

(** [d[key]] for a dictionary with integer keys. *)
Definition getitem {A : Type} (d : Z -> option A) (key : Z) : hresult A :=
  match d key with
  | Some a => Returned a
  | None => Failed (KeyError key)
  end.

Definition Rltb (x y : R) : bool := if Rlt_dec x y then true else false.
Definition Rleb (x y : R) : bool := if Rle_dec x y then true else false.
Definition Reqb (x y : R) : bool := if Req_dec_T x y then true else false.

(** A function of one float applied to a float or to every element of
    an array. *)
Definition vmap (g : R -> R) (v : value) : value :=
  match v with
  | Float x => Float (g x)
  | Array l => Array (map g l)
  end.

(** [a[mask] = v], the mask computed element by element from [a]. *)
Definition set_where (mask : R -> bool) (v : R) (a : list R) : list R :=
  map (fun x => if mask x then v else x) a.

(** [target[mask] = rhs(x[mask])], the mask computed from [x]. *)
Definition assign_where (mask : R -> bool) (rhs : R -> R)
    (x target : list R) : list R :=
  zip_with (fun xi ti => if mask xi then rhs xi else ti) x target.

(** [ln_median = -0.152 + 0.859*M_HAZARD - 1.803*mt.log(R_HAZARD+25)] *)
Definition ln_median : R :=
  -0.152 + 0.859 * M_HAZARD - 1.803 * ln (R_HAZARD + 25).

(** What a value of the dictionary [lq_probability] returns: an array,
    or, for class 0, the integer 0. *)
Inductive pyobj : Type :=
| NdArray (a : list R)
| PyInt (z : Z).

Definition lq_probability (sc : Z) : option (list R -> pyobj) :=
  match sc with
  | 5%Z => Some (fun a => NdArray (map (fun x => 9.09 * x - 0.82) a))
  | 4%Z => Some (fun a => NdArray (map (fun x => 7.67 * x - 0.92) a))
  | 3%Z => Some (fun a => NdArray (map (fun x => 6.67 * x - 1.00) a))
  | 2%Z => Some (fun a => NdArray (map (fun x => 5.57 * x - 1.18) a))
  | 1%Z => Some (fun a => NdArray (map (fun x => 4.16 * x - 1.08) a))
  | 0%Z => Some (fun _ => PyInt 0)
  | _ => None
  end.

Definition lq_pml (sc : Z) : option R :=
  match sc with
  | 5%Z => Some 0.25
  | 4%Z => Some 0.20
  | 3%Z => Some 0.10
  | 2%Z => Some 0.05
  | 1%Z => Some 0.02
  | 0%Z => Some 0
  | _ => None
  end.

(** [kM = 0.0027*M**3 - 0.0267*M**2 - 0.2055*M + 2.9188] *)
Definition kM (M : R) : R :=
  0.0027 * M ^ 3 - 0.0267 * M ^ 2 - 0.2055 * M + 2.9188.

(** [kw = 0.022*dw + 0.93] *)
Definition kw (dw : R) : R := 0.022 * dw + 0.93.

(** [p[p<0] = 0.0] followed by [p[p>1] = 1.0] on an array. *)
Definition clip_unit (p : list R) : list R :=
  set_where (fun x => Rltb 1 x) 1 (set_where (fun x => Rltb x 0) 0 p).

(** The two item assignments on what the dictionary value returned: an
    [int] does not support them. *)
Definition clip_items (p : pyobj) : hresult (list R) :=
  match p with
  | NdArray a => Returned (clip_unit a)
  | PyInt _ =>
      Failed (Exn (TypeError "'int' object does not support item assignment"))
  end.

Declare Scope hazard_scope.
Notation "x <- m ;; k" := (hbind m (fun x => k))
  (at level 61, m at next level, right associativity) : hazard_scope.
Local Open Scope hazard_scope.

(** [second_probability(im1, sc=LQ_CLASS, magnitude=M_HAZARD,
    water_depth=WATER_DEPTH)].  The division by [kM*kw] is the one of
    the reals: the model is that of the code where [kM*kw] is not 0. *)
Definition second_probability (im1 : value) (sc : Z)
    (magnitude water_depth : R) : hresult value :=
  let '(im1, scalar_input) :=
    match im1 with
    | Float x => ([x], true)
    | Array a => (a, false)
    end in
  let M := magnitude in
  let dw := water_depth in
  f <- getitem lq_probability sc ;;
  p_standard <- clip_items (f im1) ;;
  pml <- getitem lq_pml sc ;;
  let prob_lq := map (fun p => p / (kM M * kw dw) * pml) p_standard in
  let prob_lq := clip_unit prob_lq in
  if scalar_input then Returned (Float (hd 0 prob_lq))
  else Returned (Array prob_lq).

Definition PGA_trigger (sc : Z) : option xreal :=
  match sc with
  | 5%Z => Some (Fin 0.09)
  | 4%Z => Some (Fin 0.12)
  | 3%Z => Some (Fin 0.15)
  | 2%Z => Some (Fin 0.21)
  | 1%Z => Some (Fin 0.26)
  | 0%Z => Some PInf
  | _ => None
  end.

(** [im1 / PGA_trigger[sc]] for one element; a float divided by
    [np.inf] is 0. *)
Definition over_trigger (a : R) (trigger : xreal) : R :=
  match trigger with
  | Fin t => a / t
  | PInf => 0
  end.

(** Lines 144-154: [PGD_standard] from the normalised PGA [x]. *)
Definition PGD_standard (x : list R) : list R :=
  let P := map (fun _ => 0) x in
  let mask0 := fun xi => Rltb xi 1 in
  let mask1 := fun xi => Rleb 1 xi && Rltb xi 2 in
  let mask2 := fun xi => Rleb 2 xi && Rltb xi 3 in
  let mask3 := fun xi => Rleb 3 xi in
  let P := assign_where mask0 (fun _ => 0) x P in
  let P := assign_where mask1 (fun xi => 12 * xi - 12) x P in
  let P := assign_where mask2 (fun xi => 18 * xi - 24) x P in
  let P := assign_where mask3 (fun xi => 70 * xi - 180) x P in
  P.

(** [kdelta = 0.0086*M**3 - 0.0914*M**2 + 0.4698*M - 0.9835] *)
Definition kdelta (M : R) : R :=
  0.0086 * M ^ 3 - 0.0914 * M ^ 2 + 0.4698 * M - 0.9835.

(** Lines 143-156: [PGD_median] from the primary IMs. *)
Definition PGD_median (im1 : list R) (trigger : xreal) (magnitude : R)
    : list R :=
  let x := map (fun a => over_trigger a trigger) im1 in
  map (Rmult (kdelta magnitude)) (PGD_standard x).

Section Lognormal.

(** [stats.lognorm.cdf(x, s, scale=scale)], [stats.lognorm.pdf] and
    [stats.lognorm.ppf] at a float. *)
Variable lognorm_cdf : R -> R -> R -> R.
Variable lognorm_pdf : R -> R -> R -> R.
Variable lognorm_ppf : R -> R -> R -> R.

(** [hazard_curve(im)] *)
Definition hazard_curve (im : value) : value :=
  vmap (fun x => RATE * (1 - lognorm_cdf x SIGMA_HAZARD (exp ln_median))) im.

(** [hazard_likelihood(im)] *)
Definition hazard_likelihood (im : value) : value :=
  vmap (fun x => RATE * lognorm_pdf x SIGMA_HAZARD (exp ln_median)) im.

(** [inv_hazard_curve(prob)] *)
Definition inv_hazard_curve (prob : value) : value :=
  vmap (fun p => lognorm_ppf (1 - p / RATE) SIGMA_HAZARD (exp ln_median)) prob.

(** The body of the loop of lines 159-163. *)
Definition pgd_density (sigma : R) (im pgd : R) : R :=
  if Reqb pgd 0 then 0 else lognorm_pdf im sigma pgd.

(** [d_second_hazard_curve(im1, im2, sc=LQ_CLASS, magnitude=M_HAZARD,
    sigma=PGD_SIGMA)].  With a float [im1], [im2[np.newaxis]] of an
    array is a matrix of one row, which the loop fills as a whole; with
    an array [im1] and a float [im2], [len(im2)] fails. *)
Definition d_second_hazard_curve (im1 im2 : value) (sc : Z)
    (magnitude sigma : R) : hresult value :=
  match im1, im2 with
  | Float a, Float b =>
      trigger <- getitem PGA_trigger sc ;;
      let pgd := hd 0 (PGD_median [a] trigger magnitude) in
      Returned (Float (pgd_density sigma b pgd))
  | Float a, Array row =>
      trigger <- getitem PGA_trigger sc ;;
      let pgd := hd 0 (PGD_median [a] trigger magnitude) in
      Returned (Array (map (fun im => pgd_density sigma im pgd) row))
  | Array a1, Array a2 =>
      _ <- lift (assert (length a1 =? length a2)%nat
                   "primary and secondary IM must have the same length") ;;
      trigger <- getitem PGA_trigger sc ;;
      Returned (Array (zip_with (pgd_density sigma) a2
                         (PGD_median a1 trigger magnitude)))
  | Array _, Float _ =>
      Failed (Exn (TypeError "len() of unsized object"))
  end.

(** [im2d_likelihood(im1, im2, sc=LQ_CLASS, magnitude=M_HAZARD,
    water_depth=WATER_DEPTH, sigma=PGD_SIGMA)] *)
Definition im2d_likelihood (im1 im2 : value) (sc : Z)
    (magnitude water_depth sigma : R) : hresult value :=
  let pdf_IM1 := hazard_likelihood im1 in
  p_second_occur <- second_probability im1 sc magnitude water_depth ;;
  pdf_IM2 <- d_second_hazard_curve im1 im2 sc magnitude sigma ;;
  t <- lift (mul pdf_IM1 p_second_occur) ;;
  lift (mul t pdf_IM2).

End Lognormal.

End Hazard.

(* ===================================================================== *)
(** ** Reference notions for the further properties                      *)
(* ===================================================================== *)

Module Reference2.
Import Np Risk Scenario Reference.

(** A sequence that never decreases. *)
Fixpoint nondecreasing (l : list R) : Prop :=
  match l with
  | x :: (y :: _) as t => x <= y /\ nondecreasing t
  | _ => True
  end.

(** The result of a call on a float, as a value. *)
Definition as_float (r : result R) : result value :=
  match r with
  | Ok x => Ok (Float x)
  | Raise e => Raise e
  end.

(** The estimate before the pass for order [m]: [np.inf] before the
    first pass, the candidate of order [m - 1] afterwards. *)
Definition previous_estimate (pass : Z -> samples) (min_order m : Z) : xreal :=
  if (m =? min_order)%Z then PInf else Fin (s_newval (pass (m - 1)%Z)).

(** The error the pass for order [m] computes. *)
Definition error_at (pass : Z -> samples) (min_order m : Z) : xreal :=
  abs_diff (s_newval (pass m)) (previous_estimate pass min_order m).

(** Whether the pass for order [m] passes the stopping test. *)
Definition accepted (tol rtol : R) (pass : Z -> samples) (min_order m : Z)
    : bool :=
  stop_test tol rtol (error_at pass min_order m) (s_newval (pass m)).

(** The tuple returned from the locals left by a pass. *)
Definition tuple_of (s : samples) (err : xreal) : primary_result :=
  (s_ims s, s_scalers s, s_likes s, s_cqs s, Fin (s_newval s), err).

(** The passes of the unit ramp on [[0, 1]] with the rules of order 1
    and 2. *)
Definition unit_ramp_pass (m : Z) : samples :=
  match gauss_legendre_12 m with
  | Ok (x, w) =>
      mkSamples (rescale_points 0 1 x) (rescale_weights 0 1 w)
        (Array (map (fun _ => 1) (rescale_points 0 1 x)))
        (Array (map (fun r => r) (rescale_points 0 1 x)))
        (1 / 2)
  | Raise _ => mkSamples [] [] (Float 0) (Float 0) 0
  end.

(** The locals left by the pass for order [n]. *)
Definition locals_of (n : Z) (s : samples) (err : xreal) : locals :=
  mkLocals (Some n) (Some (s_ims s)) (Some (s_scalers s))
    (Some (s_likes s)) (Some (s_cqs s)) (Fin (s_newval s)) err.

(** A function that returns [g] of a float, and the array of the values
    of [g] on an array. *)
Definition acts_elementwise (f : func) (g : R -> R) : Prop :=
  (forall x, f (Float x) = Ok (Float (g x))) /\
  (forall l, f (Array l) = Ok (Array (map g l))).


(** A stand-in for [stats.lognorm.cdf] in examples: a function with
    values in [[0, 1]] that grows with [x] and falls with [scale]. *)
Definition ratio_cdf (x s scale : R) : R :=
  Rmax 0 x / (Rmax 0 x + scale).

(** Element [i] of what a function returned for an array of sample
    points: an array gives its element, a float is the same for every
    point (NumPy broadcasts it). *)
Definition item (v : value) (i : nat) : R :=
  match v with
  | Float r => r
  | Array l => nth i l 0
  end.

(** A returned value that pairs with [n] sample points: a float, or an
    array of [n] elements. *)
Definition conforms (v : value) (n : nat) : Prop :=
  match v with
  | Float _ => True
  | Array l => length l = n
  end.

(** Order [m] meets the stopping rule: it has an order before it, and
    its estimate differs from the estimate of that order by less than
    [tol], or by less than [rtol] times its own magnitude. *)
Definition converged (tol rtol : R) (estimate : Z -> R) (min_order m : Z)
    : Prop :=
  (min_order < m)%Z /\
  (Rabs (estimate m - estimate (m - 1)%Z) < tol \/
   Rabs (estimate m - estimate (m - 1)%Z) < rtol * Rabs (estimate m)).

(** The distance between the estimate of order [m] and the estimate of
    the order before it, infinite for the first order. *)
Definition distance (estimate : Z -> R) (min_order m : Z) : xreal :=
  if (m =? min_order)%Z then PInf
  else Fin (Rabs (estimate m - estimate (m - 1)%Z)).

(** [lambda im1, im2: im1 * im2] *)
Definition product2 : func2 := fun im1 im2 => mul im1 im2.


End Reference2.

Module Reference3.
Import Np Scenario Fragility Hazard.

(** The damage-state names that [fragility_curve] and
    [fragility_curve_second] recognise, in lower case. *)
Definition known_names : list string :=
  ["s"; "slight"; "m"; "moderate"; "e"; "extensive";
   "c"; "complete"; "collapse"]%string.

(** The value that lines 144-154 give to one element with normalised
    PGA [x]. *)
Definition PGD_standard_at (x : R) : R :=
  if Rltb x 1 then 0
  else if Rltb x 2 then 12 * x - 12
  else if Rltb x 3 then 18 * x - 24
  else 70 * x - 180.

(** What [p[p<0] = 0.0] followed by [p[p>1] = 1.0] leaves in place of
    one element [x]. *)
Definition clip01 (x : R) : R :=
  let y := if Rltb x 0 then 0 else x in
  if Rltb 1 y then 1 else y.

(** [im1 <= PGA_trigger[sc]] *)
Definition at_most_trigger (a : R) (trigger : xreal) : Prop :=
  match trigger with
  | Fin t => a <= t
  | PInf => True
  end.

End Reference3.

(* ===================================================================== *)
(** ** Rounded arithmetic                                                *)
(* ===================================================================== *)

(** The arithmetic of the program is that of float64: an operation
    returns its exact result rounded to a float.  Here the rounding is
    a function [rnd] on the reals, and the lines of the source behind
    the weight and the probability invariants are written with one
    rounding for each operation.  With the identity for [rnd] they are
    the definitions of [Scenario] and [Risk]. *)
Module Rounded.
Import Np Risk.

Section Rounding.
Variable rnd : R -> R.

Definition fsub (x y : R) : R := rnd (x - y).
Definition fmul (x y : R) : R := rnd (x * y).
Definition fdiv (x y : R) : R := rnd (x / y).

(** [(hi-lo)/2.0 * w] on every weight. *)
Definition rescale_weights (lo hi : R) (w : list R) : list R :=
  map (fun wi => fmul (fdiv (fsub hi lo) 2) wi) w.

(** Lines 135-139 of [scenario.py]: the two raveled grids of weights. *)
Definition secondary_weights (a b c d : R) (w : list R) : list R * list R :=
  meshgrid_ravel (rescale_weights a b w) (rescale_weights c d w).

(** [np.diff(a)] on a 1-D array. *)
Fixpoint diff (l : list R) : list R :=
  match l with
  | x :: (y :: _) as t => fsub y x :: diff t
  | _ => []
  end.

(** [np.diff(a, axis=0, append=0)] on a 1-D array. *)
Definition diff_append (l : list R) (last : R) : list R := diff (l ++ [last]).

(** [prob_array = -np.diff(cdf_array, axis=0, append=0)]; the change of
    sign is exact. *)
Definition prob_array (cdf : list R) : list R := neg (diff_append cdf 0).




End Rounding.

(** Exact arithmetic. *)
Definition exactly : R -> R := fun x => x.


End Rounded.

(* ===================================================================== *)
(** ** Float64                                                           *)
(* ===================================================================== *)

(** The same lines on IEEE 754 binary64 numbers, the floats of Python
    and of NumPy, to evaluate them on given inputs. *)
Module Float64.
Import Floats.

#[local] Set Warnings "-inexact-float".
Local Open Scope float_scope.

(** [(hi-lo)/2.0 * w] on every weight. *)
Definition rescale_weights (lo hi : float) (w : list float) : list float :=
  map (fun wi => (hi - lo) / 2 * wi) w.

(** [np.meshgrid(xs, ys)] with both grids raveled. *)
Definition meshgrid_ravel (xs ys : list float) : list float * list float :=
  (flat_map (fun _ => xs) ys,
   flat_map (fun y => map (fun _ => y) xs) ys).

(** Lines 135-139 of [scenario.py]: the two raveled grids of weights. *)
Definition secondary_weights (a b c d : float) (w : list float)
    : list float * list float :=
  meshgrid_ravel (rescale_weights a b w) (rescale_weights c d w).

(** A fragility function evaluated at a scalar IM. *)
Definition fragility : Type := float -> float.

(** [cdf_array = np.array([func(im) for func in fragility_funcs])] *)
Definition cdf_array (im : float) (fragility_funcs : list fragility)
    : list float :=
  map (fun func => func im) fragility_funcs.

(** [np.diff(a)] on a 1-D array. *)
Fixpoint diff (l : list float) : list float :=
  match l with
  | x :: (y :: _) as t => (y - x) :: diff t
  | _ => []
  end.

(** [np.diff(a, axis=0, append=0)] on a 1-D array. *)
Definition diff_append (l : list float) (last : float) : list float :=
  diff (l ++ [last]).

(** [prob_array = -np.diff(cdf_array, axis=0, append=0)] *)
Definition prob_array (cdf : list float) : list float :=
  map PrimFloat.opp (diff_append cdf 0).


(** The rational number that a finite float stands for. *)
Definition exact (x : float) : QArith_base.Q :=
  match Prim2SF x with
  | S754_finite s m e =>
      QArith_base.Qmult
        (QArith_base.inject_Z (if s then Z.neg m else Z.pos m))
        (QArith_base.Qpower (QArith_base.inject_Z 2) e)
  | _ => QArith_base.inject_Z 0
  end.




(** Fragility curves that are constant in the IM. *)
Definition constant_curves (c0 c1 c2 c3 : float) : list fragility :=
  [fun _ => c0; fun _ => c1; fun _ => c2; fun _ => c3].

End Float64.

(** As [bind_ok], leaving the rest of the hypothesis folded. *)
Ltac bind_step H :=
  match type of H with
  | bind ?m _ = Ok _ =>
      let E := fresh "E" in
      destruct m eqn:E; cbn [bind] in H; [|discriminate H]
  end.

(* ===================================================================== *)
(** ** Properties of the NumPy fragment                                  *)
(* ===================================================================== *)

Module NpFacts.
Import Np Reference.

(** [np.meshgrid([1, 2], [3, 4])] raveled: [[1, 2, 1, 2]] and
    [[3, 3, 4, 4]]. *)
Example meshgrid_ravel_2x2 :
  meshgrid_ravel [1; 2] [3; 4] = ([1; 2; 1; 2], [3; 3; 4; 4]).
Proof. reflexivity. Qed.

(** [np.diff([5, 3, 2], append=0)] is [[-2, -1, -2]]. *)
Example diff_append_example :
  diff_append [5; 3; 2] 0 = [3 - 5; 2 - 3; 0 - 2].
Proof. reflexivity. Qed.

(** [np.vectorize] calls the wrapped function once per element, where
    the function itself refuses the array. *)
Example vectorize_twice_float :
  vectorize twice_float (Array [1; 2; 3]) = Ok (Array [2 * 1; 2 * 2; 2 * 3]) /\
  twice_float (Array [1; 2; 3]) =
  Raise (TypeError "only length-1 arrays can be converted to Python scalars").
Proof. split; reflexivity. Qed.

Lemma Rsum_cons (x : R) (l : list R) : Rsum (x :: l) = x + Rsum l.
Proof. reflexivity. Qed.


Lemma sum_upto_ext (k : nat) (f g : nat -> R) :
  (forall j, (j < k)%nat -> f j = g j) -> sum_upto k f = sum_upto k g.
Proof.
  induction k as [|k IH]; intros H; simpl.
  - reflexivity.
  - rewrite IH by (intros; apply H; lia). rewrite H by lia. reflexivity.
Qed.

Lemma sum_upto_shift (k : nat) (f : nat -> R) :
  sum_upto (S k) f = f O + sum_upto k (fun j => f (S j)).
Proof.
  induction k as [|k IH].
  - simpl. lra.
  - change (sum_upto (S (S k)) f) with (sum_upto (S k) f + f (S k)).
    rewrite IH. simpl. lra.
Qed.

Lemma zip_with_length (f : R -> R -> R) (l1 l2 : list R) :
  length l1 = length l2 -> length (zip_with f l1 l2) = length l1.
Proof.
  revert l2. induction l1 as [|x t IH]; intros [|y u] H; simpl in *;
    try reflexivity; try discriminate.
  f_equal. apply IH. lia.
Qed.

(** The inner product of two arrays of one length, index by index. *)
Lemma Rsum_zip_with_index (p c : list R) :
  length p = length c ->
  Rsum (zip_with Rmult p c) =
  sum_upto (length p) (fun j => nth j p 0 * nth j c 0).
Proof.
  revert c. induction p as [|x t IH]; intros [|y u] H; simpl in H;
    try discriminate.
  - reflexivity.
  - change (length (x :: t)) with (S (length t)).
    rewrite sum_upto_shift. simpl zip_with. rewrite Rsum_cons.
    rewrite IH by lia. reflexivity.
Qed.

Lemma diff_append_length (l : list R) (z : R) :
  length (diff_append l z) = length l.
Proof.
  unfold diff_append. induction l as [|x t IH].
  - reflexivity.
  - destruct t as [|y u].
    + reflexivity.
    + change (length (diff ((x :: y :: u) ++ [z])))
        with (S (length (diff ((y :: u) ++ [z])))).
      rewrite IH. reflexivity.
Qed.

(** [np.diff] with an appended value, index by index: past the end the
    appended value is read. *)
Lemma diff_append_nth (l : list R) (z : R) (j : nat) :
  (j < length l)%nat ->
  nth j (diff_append l z) 0 = nth (S j) l z - nth j l z.
Proof.
  unfold diff_append. revert j. induction l as [|x t IH]; intros j Hj.
  - simpl in Hj. lia.
  - destruct t as [|y u].
    + destruct j as [|j]; [reflexivity | simpl in Hj; lia].
    + destruct j as [|j].
      * reflexivity.
      * change (diff ((x :: y :: u) ++ [z]))
          with ((y - x) :: diff ((y :: u) ++ [z])).
        change (nth (S j) ((y - x) :: diff ((y :: u) ++ [z])) 0)
          with (nth j (diff ((y :: u) ++ [z])) 0).
        rewrite IH by (simpl in *; lia). reflexivity.
Qed.

Lemma map_result_pure (f : R -> result R) (g : R -> R) (l : list R) :
  (forall x, f x = Ok (g x)) -> map_result f l = Ok (map g l).
Proof.
  intros H. induction l as [|x t IH]; simpl.
  - reflexivity.
  - rewrite H, IH. reflexivity.
Qed.

(** [np.vectorize] of a function that maps every float to a float
    applies it to each element of a non-empty array. *)
Lemma vectorize_pure (f : func) (g : R -> R) (l : list R) :
  (forall x, f (Float x) = Ok (Float (g x))) -> l <> [] ->
  vectorize f (Array l) = Ok (Array (map g l)).
Proof.
  intros H Hl. destruct l as [|x t]; [congruence|].
  unfold vectorize.
  rewrite (map_result_pure (scalar_call f) g).
  - reflexivity.
  - intros y. unfold scalar_call. rewrite H. reflexivity.
Qed.

End NpFacts.

(* ===================================================================== *)
(** ** risk.py: the consequence aggregator                               *)
(* ===================================================================== *)

Module RiskFacts.
Import Np Risk Reference NpFacts.

Lemma neg_nth (l : list R) (j : nat) : nth j (neg l) 0 = - nth j l 0.
Proof.
  revert j. induction l as [|x t IH]; intros [|j]; simpl;
    try apply IH; try reflexivity; symmetry; apply Ropp_0.
Qed.

Lemma cdf_array_length (im : R) (funcs : list fragility) :
  length (cdf_array im funcs) = length funcs.
Proof. apply length_map. Qed.

Lemma cdf_array_nth (im : R) (funcs : list fragility) (j : nat) :
  nth j (cdf_array im funcs) 0 = CDF im funcs j.
Proof.
  unfold CDF, cdf_array. revert j.
  induction funcs as [|f t IH]; intros [|j]; simpl; auto.
Qed.

Lemma prob_array_length (cdf : list R) :
  length (prob_array cdf) = length cdf.
Proof.
  unfold prob_array, neg. rewrite length_map. apply diff_append_length.
Qed.

(** Each entry of [prob_array] is a CDF value minus the next one, with
    0 after the last. *)
Lemma prob_array_nth (im : R) (funcs : list fragility) (j : nat) :
  (j < length funcs)%nat ->
  nth j (prob_array (cdf_array im funcs)) 0 = state_probability im funcs j.
Proof.
  intros Hj. unfold prob_array, state_probability.
  rewrite neg_nth, diff_append_nth by (rewrite cdf_array_length; exact Hj).
  rewrite !cdf_array_nth. lra.
Qed.

(** With both arguments supplied and of one length, the call returns the
    inner product of [prob_array] and [cq_array]. *)
Lemma expected_consequence_supplied (im : R) (funcs : list fragility)
    (cq : list R) :
  length funcs = length cq ->
  expected_consequence im (Some funcs) (Some cq) =
  Ok (Rsum (zip_with Rmult (prob_array (cdf_array im funcs)) cq)).
Proof.
  intros Hlen. unfold expected_consequence, matmul.
  rewrite Hlen, Nat.eqb_refl. simpl.
  rewrite prob_array_length, cdf_array_length, Hlen, Nat.eqb_refl.
  reflexivity.
Qed.

(** C1.  For a scalar IM, a non-empty list of fragility functions and a
    consequence array of the same length k, [expected_consequence]
    returns the sum over the damage states j < k of
    (CDF[j](im) - CDF[j+1](im)) * cq_array[j], where CDF[k] is 0. *)
Theorem expected_consequence_weighted_sum (im : R)
    (fragility_funcs : list fragility) (cq_array : list R) :
  fragility_funcs <> [] ->
  length fragility_funcs = length cq_array ->
  expected_consequence im (Some fragility_funcs) (Some cq_array) =
  Ok (weighted_sum im fragility_funcs cq_array).
Proof.
  intros _ Hlen.
  rewrite expected_consequence_supplied by exact Hlen.
  f_equal. unfold weighted_sum.
  rewrite Rsum_zip_with_index
    by (rewrite prob_array_length, cdf_array_length; exact Hlen).
  rewrite prob_array_length, cdf_array_length.
  apply sum_upto_ext. intros j Hj.
  rewrite prob_array_nth by exact Hj. reflexivity.
Qed.

Lemma expected_consequence_weighted_sum_witness :
  expected_consequence (1/2)
    (Some (constant_curves (9/10) (6/10) (3/10) (1/10)))
    (Some [12; 19; 48; 100]) =
  Ok (weighted_sum (1/2) (constant_curves (9/10) (6/10) (3/10) (1/10))
        [12; 19; 48; 100]).
Proof.
  apply (expected_consequence_weighted_sum (1/2)
           (constant_curves (9/10) (6/10) (3/10) (1/10)) [12; 19; 48; 100]).
  - discriminate.
  - reflexivity.
Defined.

(** A worked value: 0.3*12 + 0.3*19 + 0.2*48 + 0.1*100. *)
Example weighted_sum_example :
  weighted_sum (1/2) (constant_curves (9/10) (6/10) (3/10) (1/10))
    [12; 19; 48; 100] = 289 / 10.
Proof. unfold weighted_sum, state_probability, CDF. simpl. lra. Qed.

(** A missing list of fragility functions fails the first assertion. *)
Lemma expected_consequence_funcs_omitted (im : R) (cq : option (list R)) :
  expected_consequence im None cq =
  Raise (AssertionError "Must provide a list of fragility functions").
Proof. reflexivity. Qed.

(** Two supplied arguments of different lengths fail the second
    assertion. *)
Lemma expected_consequence_length_mismatch (im : R) (funcs : list fragility)
    (cq : list R) :
  length funcs <> length cq ->
  expected_consequence im (Some funcs) (Some cq) =
  Raise (AssertionError "fragility_funcs and cq_array must have the same length").
Proof.
  intros H. unfold expected_consequence.
  apply Nat.eqb_neq in H. rewrite H. reflexivity.
Qed.

(** C5.  How [expected_consequence] fails.  With the fragility
    functions supplied and [cq_array] omitted, the call fails inside
    [len(cq_array)] with a [TypeError]; it is not the assertion that
    reports a missing argument, which is raised only when the fragility
    functions are omitted.  With both supplied, it fails the length
    assertion exactly when the lengths differ.  No failing call returns
    a value. *)
Theorem expected_consequence_cq_array_omitted (im : R)
    (fragility_funcs : list fragility) (cq_array : list R) :
  expected_consequence im (Some fragility_funcs) None =
    Raise (TypeError "object of type 'NoneType' has no len()") /\
  (forall msg,
     expected_consequence im (Some fragility_funcs) None <>
     Raise (AssertionError msg)) /\
  (forall cq,
     expected_consequence im None cq =
     Raise (AssertionError "Must provide a list of fragility functions")) /\
  expected_consequence im (Some fragility_funcs) (Some cq_array) =
    (if (length fragility_funcs =? length cq_array)%nat
     then Ok (Rsum (zip_with Rmult
                      (prob_array (cdf_array im fragility_funcs)) cq_array))
     else Raise (AssertionError
                   "fragility_funcs and cq_array must have the same length")).
Proof.
  split; [reflexivity|]. split; [|split].
  - intros msg. simpl. discriminate.
  - intros cq. apply expected_consequence_funcs_omitted.
  - destruct (Nat.eqb_spec (length fragility_funcs) (length cq_array)) as [E|E].
    + apply expected_consequence_supplied. exact E.
    + apply expected_consequence_length_mismatch. exact E.
Qed.

End RiskFacts.

(* ===================================================================== *)
(** ** The order-escalation loop                                         *)
(* ===================================================================== *)

Module LoopFacts.
Import Np Scenario Reference.

(** [list(range(1, 6))] and [list(range(3, 3))]. *)
Example range_1_6 :
  range 1 6 = [1; 2; 3; 4; 5]%Z /\ range 3 3 = [].
Proof. split; reflexivity. Qed.

Lemma range_length (lo hi : Z) : length (range lo hi) = Z.to_nat (hi - lo).
Proof. unfold range. rewrite length_map, length_seq. reflexivity. Qed.

Lemma range_empty (lo hi : Z) : (hi <= lo)%Z -> range lo hi = [].
Proof.
  intros H. unfold range.
  replace (Z.to_nat (hi - lo)) with O by lia. reflexivity.
Qed.

Lemma range_In (lo hi n : Z) : In n (range lo hi) <-> (lo <= n < hi)%Z.
Proof.
  unfold range. rewrite in_map_iff. split.
  - intros (i & <- & Hi). apply in_seq in Hi. lia.
  - intros H. exists (Z.to_nat (n - lo)). split; [lia|].
    apply in_seq. lia.
Qed.

(** A non-empty range ends with [hi - 1]. *)
Lemma range_snoc (lo hi : Z) :
  (lo < hi)%Z -> range lo hi = range lo (hi - 1) ++ [(hi - 1)%Z].
Proof.
  intros H. unfold range.
  replace (Z.to_nat (hi - lo)) with (S (Z.to_nat (hi - 1 - lo))) by lia.
  rewrite seq_S, map_app. simpl.
  replace (lo + Z.of_nat (Z.to_nat (hi - 1 - lo)))%Z with (hi - 1)%Z by lia.
  reflexivity.
Qed.

Section ForElse.
Context {St : Type}.
Variable body : Z -> St -> result (St * bool).

(** The body is entered at most once per element of the sequence. *)
Lemma for_else_iterations_le (orders : list Z) (s : St) :
  (iterations (for_else body orders s) <= length orders)%nat.
Proof.
  revert s. induction orders as [|n rest IH]; intros s; simpl.
  - lia.
  - destruct (body n s) as [[s' [|]]|e]; simpl; try lia.
    specialize (IH s'). lia.
Qed.

(** One pass: leave the loop on [break] or on an exception, go on to the
    next element otherwise. *)
Lemma for_else_step (n : Z) (rest : list Z) (s s' : St) (brk : bool) :
  body n s = Ok (s', brk) ->
  outcome (for_else body (n :: rest) s) =
  if brk then Ok (s', Broke) else outcome (for_else body rest s').
Proof. intros H. simpl. rewrite H. destruct brk; reflexivity. Qed.

Lemma for_else_step_iterations (n : Z) (rest : list Z) (s s' : St) :
  body n s = Ok (s', false) ->
  iterations (for_else body (n :: rest) s) =
  S (iterations (for_else body rest s')).
Proof. intros H. simpl. rewrite H. reflexivity. Qed.

(** When the loop over a non-empty sequence ends without an exception,
    its final state is the one left by a pass of the body; that pass
    ended in [break] exactly when the loop was left by [break], and it
    is the pass for the last element when the loop was exhausted. *)
Lemma for_else_final (orders : list Z) (s st : St) (ex : loop_exit) :
  orders <> [] ->
  outcome (for_else body orders s) = Ok (st, ex) ->
  exists n st0,
    In n orders /\ body n st0 = Ok (st, broke_flag ex) /\
    (ex = Exhausted -> n = last orders 0%Z).
Proof.
  revert s. induction orders as [|n rest IH]; intros s Hne H.
  - congruence.
  - simpl in H. destruct (body n s) as [[s' [|]]|e] eqn:Hb; simpl in H.
    + inversion H; subst. exists n, s. simpl. repeat split; auto; discriminate.
    + destruct rest as [|m rest'].
      * simpl in H. inversion H; subst. exists n, s. simpl. repeat split; auto.
      * destruct (IH s' ltac:(discriminate) H) as (k & st0 & Hin & Hk & Hlast).
        exists k, st0. repeat split; auto. right. exact Hin.
    + discriminate.
Qed.

(** An exhausted loop entered its body once per element. *)
Lemma for_else_exhausted_iterations (orders : list Z) (s st : St) :
  outcome (for_else body orders s) = Ok (st, Exhausted) ->
  iterations (for_else body orders s) = length orders.
Proof.
  revert s. induction orders as [|n rest IH]; intros s H; simpl in *.
  - reflexivity.
  - destruct (body n s) as [[s' [|]]|e]; simpl in *; try discriminate.
    f_equal. apply IH. exact H.
Qed.

(** An empty sequence leaves the state as it was and runs the [else]
    clause. *)
Lemma for_else_nil (s : St) : for_else body [] s = mkRun 0 (Ok (s, Exhausted)).
Proof. reflexivity. Qed.

(** If no pass raises, the loop ends without an exception. *)
Lemma for_else_succeeds (orders : list Z) (s : St) :
  (forall n s0, In n orders -> succeeds (body n s0)) ->
  succeeds (outcome (for_else body orders s)).
Proof.
  revert s. induction orders as [|n rest IH]; intros s H; simpl.
  - eexists; reflexivity.
  - destruct (H n s (or_introl eq_refl)) as [[s' brk] Hb]. rewrite Hb.
    destruct brk; simpl.
    + eexists; reflexivity.
    + apply IH. intros m s0 Hm. apply H. right. exact Hm.
Qed.

(** If no pass raises and none ends in [break], the loop is exhausted. *)
Lemma for_else_never_break (orders : list Z) (s : St) :
  (forall n s0, In n orders -> exists s1, body n s0 = Ok (s1, false)) ->
  exists st, outcome (for_else body orders s) = Ok (st, Exhausted).
Proof.
  revert s. induction orders as [|n rest IH]; intros s H; simpl.
  - eexists; reflexivity.
  - destruct (H n s (or_introl eq_refl)) as [s' Hb]. rewrite Hb. simpl.
    apply IH. intros m s0 Hm. apply H. right. exact Hm.
Qed.

(** An exception that leaves the loop was raised by a pass of the body. *)
Lemma for_else_raise (orders : list Z) (s : St) (e : exn) :
  outcome (for_else body orders s) = Raise e ->
  exists n s0, In n orders /\ body n s0 = Raise e.
Proof.
  revert s. induction orders as [|n rest IH]; intros s H; simpl in H.
  - discriminate.
  - destruct (body n s) as [[s' [|]]|e'] eqn:Hb; simpl in H.
    + discriminate.
    + destruct (IH s' H) as (m & s0 & Hin & Hm).
      exists m, s0. split; [right; exact Hin | exact Hm].
    + inversion H; subst. exists n, s. split; [left; reflexivity | exact Hb].
Qed.

(** The function [for_else] computes the one execution of the loop. *)
Lemma for_else_passes (orders : list Z) (s : St) :
  passes body orders s (iterations (for_else body orders s))
    (outcome (for_else body orders s)).
Proof.
  revert s. induction orders as [|n rest IH]; intros s; simpl.
  - constructor.
  - destruct (body n s) as [[s' [|]]|e] eqn:Hb; simpl.
    + apply passes_break. exact Hb.
    + apply passes_next with s'; [exact Hb | apply IH].
    + apply passes_raise. exact Hb.
Qed.

Lemma passes_deterministic (orders : list Z) (s : St) (k : nat)
    (r : result (St * loop_exit)) :
  passes body orders s k r ->
  k = iterations (for_else body orders s) /\
  r = outcome (for_else body orders s).
Proof.
  induction 1 as [s | n rest s s' Hb | n rest s e Hb
                 | n rest s s' k r Hb Hrest [IHk IHr]]; simpl.
  - split; reflexivity.
  - rewrite Hb. split; reflexivity.
  - rewrite Hb. split; reflexivity.
  - rewrite Hb. simpl. split; congruence.
Qed.

(** Every execution enters the body at most once per element. *)
Lemma passes_bounded (orders : list Z) (s : St) (k : nat)
    (r : result (St * loop_exit)) :
  passes body orders s k r -> (k <= length orders)%nat.
Proof. induction 1; simpl; lia. Qed.

End ForElse.

Lemma last_range (lo hi : Z) : (lo < hi)%Z -> last (range lo hi) 0%Z = (hi - 1)%Z.
Proof. intros H. rewrite range_snoc by exact H. apply last_last. Qed.

Lemma range_nonempty (lo hi : Z) : (lo < hi)%Z -> range lo hi <> [].
Proof.
  intros H E. apply (f_equal (@length Z)) in E.
  rewrite range_length in E. simpl in E. lia.
Qed.

(** Comparisons of [err]. *)
Lemma xlt_true_iff (err : xreal) (bound : R) :
  xlt err bound = true <-> below err bound.
Proof.
  destruct err as [e|]; simpl.
  - destruct (Rlt_dec e bound); split; intros H; auto; discriminate.
  - split; [discriminate | tauto].
Qed.

Lemma stop_test_true_iff (tol rtol : R) (err : xreal) (val : R) :
  stop_test tol rtol err val = true <->
  below err tol \/ below err (rtol * Rabs val).
Proof.
  unfold stop_test. rewrite orb_true_iff, !xlt_true_iff. reflexivity.
Qed.

(** The first pass compares with [np.inf]: its test fails. *)
Lemma stop_test_inf (tol rtol val : R) : stop_test tol rtol PInf val = false.
Proof. reflexivity. Qed.

(** With both tolerances 0 no difference is small enough. *)
Lemma stop_test_zero_tolerances (newval : R) (val : xreal) :
  stop_test 0 0 (abs_diff newval val) newval = false.
Proof.
  unfold stop_test. apply orb_false_iff.
  destruct val as [v|]; simpl; [|split; reflexivity].
  pose proof (Rabs_pos (newval - v)) as Hpos.
  split; destruct (Rlt_dec _ _) as [Hlt|_]; try reflexivity; exfalso; lra.
Qed.

(** A difference of 0 passes any positive absolute tolerance. *)
Lemma stop_test_same (tol rtol v : R) :
  0 < tol -> stop_test tol rtol (abs_diff v (Fin v)) v = true.
Proof.
  intros Htol. apply stop_test_true_iff. left. simpl.
  replace (v - v) with 0 by lra. rewrite Rabs_R0. exact Htol.
Qed.

End LoopFacts.

(* ===================================================================== *)
(** ** scenario.py: the rescaled rule                                    *)
(* ===================================================================== *)

Module GridFacts.
Import Np Scenario Reference NpFacts.

Lemma rescale_points_length (lo hi : R) (x : list R) :
  length (rescale_points lo hi x) = length x.
Proof. apply length_map. Qed.

Lemma rescale_weights_length (lo hi : R) (w : list R) :
  length (rescale_weights lo hi w) = length w.
Proof. apply length_map. Qed.



Lemma meshgrid_ravel_lengths (u v : list R) :
  length (fst (meshgrid_ravel u v)) = (length u * length v)%nat /\
  length (snd (meshgrid_ravel u v)) = (length u * length v)%nat.
Proof.
  unfold meshgrid_ravel. simpl. induction v as [|y t [IH1 IH2]]; simpl.
  - split; lia.
  - rewrite !length_app, length_map, IH1, IH2. split; lia.
Qed.


Section Grid.
Variable roots_legendre : Z -> result (list R * list R).

Lemma primary_grid_eq (a b : R) (n : Z) (x w : list R) :
  roots_legendre n = Ok (x, w) ->
  primary_grid roots_legendre a b n =
  Ok (rescale_points a b x, rescale_weights a b w).
Proof. intros H. unfold primary_grid. rewrite H. reflexivity. Qed.

Lemma secondary_grid_eq (a b c d : R) (n : Z) (x w : list R) :
  roots_legendre n = Ok (x, w) ->
  secondary_grid roots_legendre a b c d n =
  Ok (fst (meshgrid_ravel (rescale_points a b x) (rescale_points c d x)),
      snd (meshgrid_ravel (rescale_points a b x) (rescale_points c d x)),
      fst (meshgrid_ravel (rescale_weights a b w) (rescale_weights c d w)),
      snd (meshgrid_ravel (rescale_weights a b w) (rescale_weights c d w))).
Proof. intros H. unfold secondary_grid. rewrite H. reflexivity. Qed.

End Grid.

End GridFacts.

(* ===================================================================== *)
(** ** scenario.py: one pass of the loop body                            *)
(* ===================================================================== *)

Module BodyFacts.
Import Np Scenario Reference NpFacts LoopFacts GridFacts.

Lemma zip_with_nth (l1 l2 : list R) (i : nat) :
  length l1 = length l2 ->
  nth i (zip_with Rmult l1 l2) 0 = nth i l1 0 * nth i l2 0.
Proof.
  revert l2 i. induction l1 as [|x t IH]; intros [|y u] i H; simpl in H;
    try discriminate.
  - destruct i; simpl; lra.
  - destruct i as [|i]; simpl; [reflexivity|]. apply IH. lia.
Qed.

Lemma mul_arrays (l1 l2 : list R) :
  length l1 = length l2 ->
  mul (Array l1) (Array l2) = Ok (Array (zip_with Rmult l1 l2)).
Proof. intros H. unfold mul. rewrite H, Nat.eqb_refl. reflexivity. Qed.

(** The sum of the elementwise product of three arrays of one length,
    index by index. *)
Lemma triple_product_sum (s lk cq : list R) (slc : value) (newval : R) :
  length lk = length s -> length cq = length s ->
  forall sl, mul (Array s) (Array lk) = Ok sl ->
  mul sl (Array cq) = Ok slc ->
  sum_last_axis slc = Ok newval ->
  newval = sum_upto (length s) (fun i => nth i s 0 * nth i lk 0 * nth i cq 0).
Proof.
  intros Hlk Hcq sl Hsl Hslc Hsum.
  rewrite mul_arrays in Hsl by congruence. inversion Hsl; subst sl.
  rewrite mul_arrays in Hslc
    by (rewrite zip_with_length; congruence).
  inversion Hslc; subst slc. simpl in Hsum. inversion Hsum; subst newval.
  rewrite Rsum_zip_with_index by (rewrite zip_with_length; congruence).
  rewrite zip_with_length by congruence.
  apply sum_upto_ext. intros i _.
  rewrite zip_with_nth by congruence. reflexivity.
Qed.

Section Body.
Variable roots_legendre : Z -> result (list R * list R).

(** What a successful pass of lines 54-62 has computed. *)
Lemma primary_samples_inv (a b : R) (lv cv : func) (n : Z) (s : samples) :
  primary_samples roots_legendre a b lv cv n = Ok s ->
  exists x w sl slc,
    roots_legendre n = Ok (x, w) /\
    s_ims s = rescale_points a b x /\
    s_scalers s = rescale_weights a b w /\
    lv (Array (s_ims s)) = Ok (s_likes s) /\
    cv (Array (s_ims s)) = Ok (s_cqs s) /\
    mul (Array (s_scalers s)) (s_likes s) = Ok sl /\
    mul sl (s_cqs s) = Ok slc /\
    sum_last_axis slc = Ok (s_newval s).
Proof.
  unfold primary_samples, primary_grid. intros H.
  destruct (roots_legendre n) as [[x w]|e] eqn:Hrule; simpl in H;
    [|discriminate H].
  bind_ok H. bind_ok H. bind_ok H. bind_ok H. bind_ok H.
  inversion H; subst s; simpl.
  exists x, w. eauto 10.
Qed.

(** What a successful pass of lines 54-68 leaves in the locals. *)
Lemma primary_body_inv (a b : R) (lv cv : func) (tol rtol : R) (n : Z)
    (st st' : locals) (brk : bool) :
  primary_body roots_legendre a b lv cv tol rtol n st = Ok (st', brk) ->
  exists s,
    primary_samples roots_legendre a b lv cv n = Ok s /\
    st' = mkLocals (Some n) (Some (s_ims s)) (Some (s_scalers s))
            (Some (s_likes s)) (Some (s_cqs s)) (Fin (s_newval s))
            (abs_diff (s_newval s) (loc_val st)) /\
    brk = stop_test tol rtol (abs_diff (s_newval s) (loc_val st)) (s_newval s).
Proof.
  unfold primary_body. intros H. bind_ok H.
  inversion H; subst. eexists. repeat split.
Qed.

Lemma primary_body_ok (a b : R) (lv cv : func) (tol rtol : R) (n : Z)
    (st : locals) (s : samples) :
  primary_samples roots_legendre a b lv cv n = Ok s ->
  primary_body roots_legendre a b lv cv tol rtol n st =
  Ok (mkLocals (Some n) (Some (s_ims s)) (Some (s_scalers s))
        (Some (s_likes s)) (Some (s_cqs s)) (Fin (s_newval s))
        (abs_diff (s_newval s) (loc_val st)),
      stop_test tol rtol (abs_diff (s_newval s) (loc_val st)) (s_newval s)).
Proof. intros H. unfold primary_body. rewrite H. reflexivity. Qed.

Lemma secondary_body_inv (a b c d : R) (lf : func2) (cf : func)
    (tol rtol : R) (n : Z) (st st' : locals2) (brk : bool) :
  secondary_body roots_legendre a b c d lf cf tol rtol n st = Ok (st', brk) ->
  exists s,
    secondary_samples roots_legendre a b c d lf cf n = Ok s /\
    st' = mkLocals2 (Some n) (Some (s2_im1 s)) (Some (s2_im2 s))
            (Some (s2_w1 s)) (Some (s2_w2 s))
            (Some (s2_likes s)) (Some (s2_cqs s)) (Fin (s2_newval s))
            (abs_diff (s2_newval s) (loc2_val st)) /\
    brk = stop_test tol rtol (abs_diff (s2_newval s) (loc2_val st))
            (s2_newval s).
Proof.
  unfold secondary_body. intros H. bind_ok H.
  inversion H; subst. eexists. repeat split.
Qed.

Lemma secondary_body_ok (a b c d : R) (lf : func2) (cf : func)
    (tol rtol : R) (n : Z) (st : locals2) (s : samples2) :
  secondary_samples roots_legendre a b c d lf cf n = Ok s ->
  secondary_body roots_legendre a b c d lf cf tol rtol n st =
  Ok (mkLocals2 (Some n) (Some (s2_im1 s)) (Some (s2_im2 s))
        (Some (s2_w1 s)) (Some (s2_w2 s))
        (Some (s2_likes s)) (Some (s2_cqs s)) (Fin (s2_newval s))
        (abs_diff (s2_newval s) (loc2_val st)),
      stop_test tol rtol (abs_diff (s2_newval s) (loc2_val st)) (s2_newval s)).
Proof. intros H. unfold secondary_body. rewrite H. reflexivity. Qed.

(** With both [vec_*] flags off and two functions that map a float to a
    float, a pass of the primary engine evaluates them at every sample
    point. *)
Lemma primary_samples_scalar (a b : R) (lf cf : func) (f g : R -> R)
    (n : Z) (x w : list R) :
  (forall r, lf (Float r) = Ok (Float (f r))) ->
  (forall r, cf (Float r) = Ok (Float (g r))) ->
  roots_legendre n = Ok (x, w) ->
  length x = length w -> x <> [] ->
  let ims := rescale_points a b x in
  let scalers := rescale_weights a b w in
  primary_samples roots_legendre a b (adapter false lf) (adapter false cf) n =
  Ok (mkSamples ims scalers (Array (map f ims)) (Array (map g ims))
        (Rsum (zip_with Rmult (zip_with Rmult scalers (map f ims))
                 (map g ims)))).
Proof.
  intros Hf Hg Hrule Hlen Hne ims scalers.
  assert (Hims : ims <> []).
  { subst ims. destruct x; [congruence | discriminate]. }
  assert (L1 : length scalers = length (map f ims)).
  { subst scalers ims.
    rewrite length_map, rescale_weights_length, rescale_points_length.
    symmetry. exact Hlen. }
  assert (L2 : length (zip_with Rmult scalers (map f ims)) =
               length (map g ims)).
  { rewrite zip_with_length by exact L1. subst scalers ims.
    rewrite length_map, rescale_weights_length, rescale_points_length.
    symmetry. exact Hlen. }
  unfold primary_samples. rewrite (primary_grid_eq _ a b n x w Hrule).
  cbn [bind]. fold ims scalers. unfold adapter.
  rewrite (vectorize_pure lf f ims Hf Hims). cbn [bind].
  rewrite (vectorize_pure cf g ims Hg Hims). cbn [bind].
  rewrite (mul_arrays _ _ L1). cbn [bind].
  rewrite (mul_arrays _ _ L2). reflexivity.
Qed.

End Body.

End BodyFacts.

(* ===================================================================== *)
(** ** scenario.py: the two engines                                      *)
(* ===================================================================== *)

Module EngineFacts.
Import Np Scenario Reference NpFacts LoopFacts GridFacts BodyFacts.

Section EngineProofs.
Variable roots_legendre : Z -> result (list R * list R).

(** The return statement of [generate_primary_event] after a loop that
    ended without an exception. *)
Lemma generate_primary_event_after_loop (a b : R) (lf cf : func)
    (vl vc : bool) (tol rtol : R) (min_order max_order : Z)
    (st : locals) (ex : loop_exit) :
  outcome (primary_loop roots_legendre a b (adapter vl lf) (adapter vc cf)
             tol rtol min_order max_order) = Ok (st, ex) ->
  generate_primary_event roots_legendre a b (Some lf) vl (Some cf) vc
    tol rtol min_order max_order =
  (ims <- local "ims" (loc_ims st) ;;
   scalers <- local "scalers" (loc_scalers st) ;;
   likes <- local "likes" (loc_likes st) ;;
   cqs <- local "cqs" (loc_cqs st) ;;
   Ok ((ims, scalers, likes, cqs, loc_val st, loc_err st),
       else_clause ex min_order max_order (loc_err st))).
Proof. intros H. unfold generate_primary_event. rewrite H. reflexivity. Qed.

Lemma generate_secondary_event_after_loop (a b c d : R) (lf : func2)
    (cf : func) (vl vc : bool) (tol rtol : R) (min_order max_order : Z)
    (st : locals2) (ex : loop_exit) :
  outcome (secondary_loop roots_legendre a b c d lf cf
             tol rtol min_order max_order) = Ok (st, ex) ->
  generate_secondary_event roots_legendre a b c d (Some lf) vl (Some cf) vc
    tol rtol min_order max_order =
  (im1 <- local "im1" (loc2_im1 st) ;;
   im2 <- local "im2" (loc2_im2 st) ;;
   w1 <- local "w1" (loc2_w1 st) ;;
   w2 <- local "w2" (loc2_w2 st) ;;
   likes <- local "likes" (loc2_likes st) ;;
   cqs <- local "cqs" (loc2_cqs st) ;;
   Ok ((vstack_T im1 im2, vstack_T w1 w2, likes, cqs,
        loc2_val st, loc2_err st),
       else_clause ex min_order max_order (loc2_err st))).
Proof. intros H. unfold generate_secondary_event. rewrite H. reflexivity. Qed.

(** A difference that passes the test is finite. *)
Lemma below_abs_diff (newval bound : R) (val : xreal) :
  below (abs_diff newval val) bound ->
  exists v, val = Fin v /\ Rabs (newval - v) < bound.
Proof.
  destruct val as [v|]; simpl; intros H.
  - exists v. split; [reflexivity | exact H].
  - contradiction.
Qed.

Lemma Rsum_index (l : list R) :
  Rsum l = sum_upto (length l) (fun i => nth i l 0).
Proof.
  induction l as [|x t IH]; [reflexivity|].
  cbn [length]. rewrite sum_upto_shift, Rsum_cons, IH. reflexivity.
Qed.

Lemma nth_scaled (l : list R) (c : R) (i : nat) :
  nth i (map (fun e => e * c) l) 0 = nth i l 0 * c.
Proof.
  revert i. induction l as [|x t IH]; intros [|i]; simpl; try lra.
  apply IH.
Qed.

(** The sum of [scalers*likes*cqs] index by index, where [likes] and
    [cqs] are arrays of the length of [scalers] or floats that NumPy
    broadcasts. *)
Lemma broadcast_product_sum (s : list R) (likes cqs slc : value) (newval : R) :
  Reference2.conforms likes (length s) ->
  Reference2.conforms cqs (length s) ->
  forall sl, mul (Array s) likes = Ok sl ->
  mul sl cqs = Ok slc ->
  sum_last_axis slc = Ok newval ->
  newval =
  sum_upto (length s)
    (fun i => nth i s 0 * Reference2.item likes i * Reference2.item cqs i).
Proof.
  intros Hl Hc sl Hsl Hslc Hsum.
  destruct likes as [l|lk]; destruct cqs as [c|cq];
    cbn [Reference2.conforms] in Hl, Hc; cbn [Reference2.item].
  - cbn [mul] in Hsl. inversion Hsl; subst sl.
    cbn [mul] in Hslc. inversion Hslc; subst slc.
    cbn [sum_last_axis] in Hsum. inversion Hsum; subst newval.
    rewrite Rsum_index, !length_map. apply sum_upto_ext. intros i _.
    rewrite !nth_scaled. reflexivity.
  - cbn [mul] in Hsl. inversion Hsl; subst sl.
    rewrite mul_arrays in Hslc by (rewrite length_map; congruence).
    inversion Hslc; subst slc.
    cbn [sum_last_axis] in Hsum. inversion Hsum; subst newval.
    rewrite Rsum_zip_with_index by (rewrite length_map; congruence).
    rewrite length_map. apply sum_upto_ext. intros i _.
    rewrite nth_scaled. reflexivity.
  - rewrite mul_arrays in Hsl by congruence. inversion Hsl; subst sl.
    cbn [mul] in Hslc. inversion Hslc; subst slc.
    cbn [sum_last_axis] in Hsum. inversion Hsum; subst newval.
    rewrite Rsum_index, length_map, zip_with_length by congruence.
    apply sum_upto_ext. intros i _.
    rewrite nth_scaled, zip_with_nth by congruence. reflexivity.
  - apply (triple_product_sum s lk cq slc newval Hl Hc sl Hsl Hslc Hsum).
Qed.

(** C2.  In [generate_primary_event]: (i) a pass for order n sets the
    candidate to the sum over the sample points of rescaled weight x
    likelihood x consequence, where the likelihoods and the
    consequences are what the two wrapped functions return for the
    sample points; it sets the error to |candidate - previous
    candidate|, infinite while the previous candidate is +infinity; and
    it ends the loop exactly when error < tol or
    error < rtol * |candidate|; (ii) the previous candidate starts at
    +infinity, so the first pass never ends the loop; (iii) when the
    function returns after the loop was ended by an accepted order, the
    returned pair satisfies err < tol or err < rtol * |val|. *)
Theorem primary_stopping_rule (a b : R) (likelihood_func consequence_func : func)
    (vec_likelihood vec_consequence : bool) (tol rtol : R)
    (min_order max_order : Z) :
  let lv := adapter vec_likelihood likelihood_func in
  let cv := adapter vec_consequence consequence_func in
  let body := primary_body roots_legendre a b lv cv tol rtol in
  (forall n st st' brk,
     body n st = Ok (st', brk) ->
     exists x w likes cqs candidate,
       roots_legendre n = Ok (x, w) /\
       lv (Array (rescale_points a b x)) = Ok likes /\
       cv (Array (rescale_points a b x)) = Ok cqs /\
       loc_scalers st' = Some (rescale_weights a b w) /\
       loc_likes st' = Some likes /\ loc_cqs st' = Some cqs /\
       (Reference2.conforms likes (length w) ->
        Reference2.conforms cqs (length w) ->
        candidate =
        sum_upto (length w)
          (fun i => nth i (rescale_weights a b w) 0
                    * Reference2.item likes i * Reference2.item cqs i)) /\
       loc_val st' = Fin candidate /\
       (forall previous,
          loc_val st = Fin previous ->
          loc_err st' = Fin (Rabs (candidate - previous))) /\
       (loc_val st = PInf -> loc_err st' = PInf) /\
       (brk = true <->
        below (loc_err st') tol \/ below (loc_err st') (rtol * Rabs candidate)) /\
       (forall rest,
          outcome (for_else body (n :: rest) st) =
          if brk then Ok (st', Broke) else outcome (for_else body rest st'))) /\
  (forall n st' brk,
     body n init_locals = Ok (st', brk) ->
     loc_err st' = PInf /\ brk = false) /\
  (forall st,
     outcome (primary_loop roots_legendre a b lv cv tol rtol min_order max_order)
       = Ok (st, Broke) ->
     exists ims scalers likes cqs val err,
       generate_primary_event roots_legendre a b
         (Some likelihood_func) vec_likelihood
         (Some consequence_func) vec_consequence
         tol rtol min_order max_order =
       Ok ((ims, scalers, likes, cqs, Fin val, Fin err), []) /\
       (err < tol \/ err < rtol * Rabs val)).
Proof.
  intros lv cv body. split; [|split].
  - intros n st st' brk Hbody.
    pose proof Hbody as Hstep.
    apply primary_body_inv in Hbody. destruct Hbody as (s & Hs & -> & ->).
    destruct (primary_samples_inv _ _ _ _ _ _ _ Hs)
      as (x & w & sl & slc & Hrule & Hims & Hsc & Hl & Hc & Hsl & Hslc & Hsum).
    exists x, w, (s_likes s), (s_cqs s), (s_newval s).
    cbn [loc_scalers loc_likes loc_cqs loc_val loc_err].
    rewrite <- Hims, <- Hsc.
    split; [exact Hrule|]. split; [exact Hl|]. split; [exact Hc|].
    split; [reflexivity|]. split; [reflexivity|]. split; [reflexivity|].
    split; [|split; [reflexivity|]; split; [|split; [|split]]].
    + intros Cl Cc.
      assert (Lw : length (s_scalers s) = length w)
        by (rewrite Hsc; apply rescale_weights_length).
      rewrite <- Lw in Cl, Cc |- *.
      exact (broadcast_product_sum (s_scalers s) (s_likes s) (s_cqs s) slc
               (s_newval s) Cl Cc sl Hsl Hslc Hsum).
    + intros previous E. rewrite E. reflexivity.
    + intros E. rewrite E. reflexivity.
    + apply stop_test_true_iff.
    + intros rest. apply for_else_step. exact Hstep.
  - intros n st' brk Hbody.
    apply primary_body_inv in Hbody. destruct Hbody as (s & _ & -> & ->).
    simpl. split; reflexivity.
  - intros st Hloop.
    assert (Hne : range min_order (max_order + 1) <> []).
    { intros E. unfold primary_loop in Hloop. rewrite E in Hloop.
      simpl in Hloop. discriminate Hloop. }
    destruct (for_else_final _ _ _ _ _ Hne Hloop) as (n & st0 & _ & Hbody & _).
    apply primary_body_inv in Hbody. destruct Hbody as (s & _ & Hst & Hbrk).
    simpl in Hbrk. symmetry in Hbrk. apply stop_test_true_iff in Hbrk.
    assert (Hfin : exists v, loc_val st0 = Fin v).
    { destruct Hbrk as [H|H]; apply below_abs_diff in H;
        destruct H as (v & Hv & _); exists v; exact Hv. }
    destruct Hfin as (v & Hv). rewrite Hv in Hbrk, Hst. simpl in Hbrk, Hst.
    rewrite (generate_primary_event_after_loop _ _ _ _ _ _ _ _ _ _ _ _ Hloop).
    subst st. simpl.
    do 6 eexists. split; [reflexivity | exact Hbrk].
Qed.

(** The integrand [1 * im] on [[0, 1]], sampled with a rule that
    integrates affine functions: the candidate is 1/2. *)
Lemma unit_ramp_sum (x w : list R) :
  length x = length w ->
  Rsum (zip_with Rmult
          (zip_with Rmult (rescale_weights 0 1 w)
             (map (fun _ => 1) (rescale_points 0 1 x)))
          (map (fun r => r) (rescale_points 0 1 x))) =
  / 4 * Rsum (zip_with Rmult w x) + / 4 * Rsum w.
Proof.
  revert w. induction x as [|xi t IH]; intros [|wi u] H; simpl in H;
    try discriminate.
  - simpl. lra.
  - unfold rescale_weights, rescale_points in *.
    cbn [map zip_with]. rewrite !Rsum_cons.
    rewrite IH by lia. lra.
Qed.

Lemma unit_ramp_samples (n : Z) (x w : list R) :
  roots_legendre n = Ok (x, w) ->
  integrates_affine x w ->
  primary_samples roots_legendre 0 1
    (adapter false constant_one) (adapter false identity) n =
  Ok (mkSamples (rescale_points 0 1 x) (rescale_weights 0 1 w)
        (Array (map (fun _ => 1) (rescale_points 0 1 x)))
        (Array (map (fun r => r) (rescale_points 0 1 x)))
        (1 / 2)).
Proof.
  intros Hrule (Hlen & Hne & Hw & Hwx).
  rewrite (primary_samples_scalar roots_legendre 0 1 constant_one identity
             (fun _ => 1) (fun r => r) n x w); auto.
  cbv zeta. rewrite unit_ramp_sum by exact Hlen.
  rewrite Hw, Hwx. do 2 f_equal. lra.
Qed.

(** The loop of the call [generate_primary_event(0, 1, lambda im: 1,
    lambda im: im, min_order=1, max_order=5)] with a positive [tol]: the
    pass for order 1 compares with infinity, the pass for order 2 finds
    the same candidate and ends the loop. *)
Lemma unit_ramp_loop (tol rtol : R) (x1 w1 x2 w2 : list R) :
  roots_legendre 1 = Ok (x1, w1) -> roots_legendre 2 = Ok (x2, w2) ->
  integrates_affine x1 w1 -> integrates_affine x2 w2 ->
  0 < tol ->
  primary_loop roots_legendre 0 1
    (adapter false constant_one) (adapter false identity) tol rtol 1 5 =
  mkRun 2
    (Ok (mkLocals (Some 2%Z) (Some (rescale_points 0 1 x2))
           (Some (rescale_weights 0 1 w2))
           (Some (Array (map (fun _ => 1) (rescale_points 0 1 x2))))
           (Some (Array (map (fun r => r) (rescale_points 0 1 x2))))
           (Fin (1 / 2)) (Fin (Rabs (1 / 2 - 1 / 2))),
         Broke)).
Proof.
  intros H1 H2 E1 E2 Htol. unfold primary_loop.
  change (range 1 (5 + 1)) with [1; 2; 3; 4; 5]%Z.
  cbn [for_else].
  rewrite (primary_body_ok _ _ _ _ _ _ _ _ _ _ (unit_ramp_samples 1 x1 w1 H1 E1)).
  cbn [s_newval s_ims s_scalers s_likes s_cqs loc_val init_locals abs_diff].
  rewrite stop_test_inf.
  rewrite (primary_body_ok _ _ _ _ _ _ _ _ _ _ (unit_ramp_samples 2 x2 w2 H2 E2)).
  cbn [s_newval s_ims s_scalers s_likes s_cqs loc_val].
  rewrite (stop_test_same tol rtol (1 / 2) Htol).
  reflexivity.
Qed.

Lemma default_tol_pos : 0 < default_tol.
Proof. unfold default_tol. apply Rinv_0_lt_compat. apply pow_lt. lra. Qed.

(** C7.  For [generate_primary_event(0, 1, likelihood_func=lambda im: 1,
    consequence_func=lambda im: im, min_order=1, max_order=5)] with the
    default tolerances, and rules of order 1 and 2 that integrate affine
    functions exactly, the returned risk value is within 1e-10 of 0.5
    and the loop stops at an order <= 2. *)
Theorem unit_ramp_converges (x1 w1 x2 w2 : list R) :
  roots_legendre 1 = Ok (x1, w1) -> roots_legendre 2 = Ok (x2, w2) ->
  integrates_affine x1 w1 -> integrates_affine x2 w2 ->
  exists ims scalers likes cqs val err st n,
    generate_primary_event roots_legendre 0 1
      (Some constant_one) false (Some identity) false
      default_tol default_rtol 1 5 =
    Ok ((ims, scalers, likes, cqs, Fin val, err), []) /\
    Rabs (val - 5 / 10) <= / 10 ^ 10 /\
    outcome (primary_loop roots_legendre 0 1
               (adapter false constant_one) (adapter false identity)
               default_tol default_rtol 1 5) = Ok (st, Broke) /\
    loc_n st = Some n /\ (n <= 2)%Z /\
    val = 1 / 2 /\ n = 2%Z.
Proof.
  intros H1 H2 E1 E2.
  pose proof (unit_ramp_loop default_tol default_rtol x1 w1 x2 w2
                H1 H2 E1 E2 default_tol_pos) as Hloop.
  apply (f_equal outcome) in Hloop. cbn [outcome] in Hloop.
  do 6 eexists. eexists. exists 2%Z.
  split; [|split; [|split; [exact Hloop | split; [reflexivity|]]]].
  - rewrite (generate_primary_event_after_loop _ _ _ _ _ _ _ _ _ _ _ _ Hloop).
    reflexivity.
  - replace (1 / 2 - 5 / 10) with 0 by lra. rewrite Rabs_R0.
    left. apply Rinv_0_lt_compat. apply pow_lt. lra.
  - split; [lia | split; reflexivity].
Qed.

(** The final state of a loop over a non-empty range of orders that
    ended without an exception: the locals are those assigned by a pass
    of the body. *)
Lemma primary_loop_final (a b : R) (lv cv : func) (tol rtol : R)
    (min_order max_order : Z) (st : locals) (ex : loop_exit) :
  (min_order <= max_order)%Z ->
  outcome (primary_loop roots_legendre a b lv cv tol rtol min_order max_order)
    = Ok (st, ex) ->
  exists n s previous,
    (min_order <= n <= max_order)%Z /\
    primary_samples roots_legendre a b lv cv n = Ok s /\
    st = mkLocals (Some n) (Some (s_ims s)) (Some (s_scalers s))
           (Some (s_likes s)) (Some (s_cqs s)) (Fin (s_newval s))
           (abs_diff (s_newval s) previous) /\
    broke_flag ex = stop_test tol rtol (abs_diff (s_newval s) previous)
                      (s_newval s) /\
    (ex = Exhausted -> n = max_order).
Proof.
  intros Hle Hloop. unfold primary_loop in Hloop.
  assert (Hne : range min_order (max_order + 1) <> [])
    by (apply range_nonempty; lia).
  destruct (for_else_final _ _ _ _ _ Hne Hloop) as (n & st0 & Hin & Hbody & Hlast).
  apply range_In in Hin.
  apply primary_body_inv in Hbody. destruct Hbody as (s & Hs & Hst & Hbrk).
  exists n, s, (loc_val st0). repeat split; try lia; auto.
  intros E. rewrite (Hlast E), last_range by lia. lia.
Qed.

Lemma secondary_loop_final (a b c d : R) (lf : func2) (cf : func)
    (tol rtol : R) (min_order max_order : Z) (st : locals2) (ex : loop_exit) :
  (min_order <= max_order)%Z ->
  outcome (secondary_loop roots_legendre a b c d lf cf tol rtol
             min_order max_order) = Ok (st, ex) ->
  exists n s previous,
    (min_order <= n <= max_order)%Z /\
    secondary_samples roots_legendre a b c d lf cf n = Ok s /\
    st = mkLocals2 (Some n) (Some (s2_im1 s)) (Some (s2_im2 s))
           (Some (s2_w1 s)) (Some (s2_w2 s))
           (Some (s2_likes s)) (Some (s2_cqs s)) (Fin (s2_newval s))
           (abs_diff (s2_newval s) previous) /\
    broke_flag ex = stop_test tol rtol (abs_diff (s2_newval s) previous)
                      (s2_newval s) /\
    (ex = Exhausted -> n = max_order).
Proof.
  intros Hle Hloop. unfold secondary_loop in Hloop.
  assert (Hne : range min_order (max_order + 1) <> [])
    by (apply range_nonempty; lia).
  destruct (for_else_final _ _ _ _ _ Hne Hloop) as (n & st0 & Hin & Hbody & Hlast).
  apply range_In in Hin.
  apply secondary_body_inv in Hbody. destruct Hbody as (s & Hs & Hst & Hbrk).
  exists n, s, (loc2_val st0). repeat split; try lia; auto.
  intros E. rewrite (Hlast E), last_range by lia. lia.
Qed.

(** C6.  When the loop of either engine runs through every order up to
    [max_order] without the stopping test holding, the call returns the
    6-tuple of the pass for [max_order], with the [val] and [err] that
    pass computed, and no exception is raised; exactly when
    [max_order > min_order], one accuracy warning is emitted, carrying
    [max_order] and the final [err]. *)
Theorem exhausted_loop_returns_last_estimate (a b c d : R)
    (likelihood_func consequence_func : func) (likelihood_func2 : func2)
    (vec_likelihood vec_consequence : bool) (tol rtol : R)
    (min_order max_order : Z) :
  (forall st,
     (min_order <= max_order)%Z ->
     outcome (primary_loop roots_legendre a b
                (adapter vec_likelihood likelihood_func)
                (adapter vec_consequence consequence_func)
                tol rtol min_order max_order) = Ok (st, Exhausted) ->
     exists s,
       primary_samples roots_legendre a b
         (adapter vec_likelihood likelihood_func)
         (adapter vec_consequence consequence_func) max_order = Ok s /\
       loc_n st = Some max_order /\
       stop_test tol rtol (loc_err st) (s_newval s) = false /\
       generate_primary_event roots_legendre a b
         (Some likelihood_func) vec_likelihood
         (Some consequence_func) vec_consequence
         tol rtol min_order max_order =
       Ok ((s_ims s, s_scalers s, s_likes s, s_cqs s,
            Fin (s_newval s), loc_err st),
           if (max_order >? min_order)%Z
           then [_AccuracyWarning max_order (loc_err st)]
           else [])) /\
  (forall st,
     (min_order <= max_order)%Z ->
     outcome (secondary_loop roots_legendre a b c d
                likelihood_func2 consequence_func
                tol rtol min_order max_order) = Ok (st, Exhausted) ->
     exists s,
       secondary_samples roots_legendre a b c d
         likelihood_func2 consequence_func max_order = Ok s /\
       loc2_n st = Some max_order /\
       stop_test tol rtol (loc2_err st) (s2_newval s) = false /\
       generate_secondary_event roots_legendre a b c d
         (Some likelihood_func2) vec_likelihood
         (Some consequence_func) vec_consequence
         tol rtol min_order max_order =
       Ok ((vstack_T (s2_im1 s) (s2_im2 s), vstack_T (s2_w1 s) (s2_w2 s),
            s2_likes s, s2_cqs s, Fin (s2_newval s), loc2_err st),
           if (max_order >? min_order)%Z
           then [_AccuracyWarning max_order (loc2_err st)]
           else [])).
Proof.
  split; intros st Hle Hloop.
  - destruct (primary_loop_final _ _ _ _ _ _ _ _ _ _ Hle Hloop)
      as (n & s & previous & _ & Hs & Hst & Hbrk & Hlast).
    rewrite (Hlast eq_refl) in *. exists s.
    rewrite (generate_primary_event_after_loop _ _ _ _ _ _ _ _ _ _ _ _ Hloop).
    subst st. simpl in *. repeat split; auto.
  - destruct (secondary_loop_final _ _ _ _ _ _ _ _ _ _ _ _ Hle Hloop)
      as (n & s & previous & _ & Hs & Hst & Hbrk & Hlast).
    rewrite (Hlast eq_refl) in *. exists s.
    rewrite (generate_secondary_event_after_loop _ _ _ _ _ _ _ _ _ _ _ _ _ _ Hloop).
    subst st. simpl in *. repeat split; auto.
Qed.

(** C9.  With 1 <= min_order <= max_order, the order-escalation loop of
    either engine ends, and no execution of it enters the loop body more
    than max_order - min_order + 1 times; the call then ends as well: it
    returns or it raises. *)
Theorem escalation_bounded (a b c d : R)
    (likelihood_func consequence_func : func) (likelihood_func2 : func2)
    (vec_likelihood vec_consequence : bool) (tol rtol : R)
    (min_order max_order : Z) :
  (1 <= min_order <= max_order)%Z ->
  let orders := range min_order (max_order + 1) in
  let body1 :=
    primary_body roots_legendre a b
      (adapter vec_likelihood likelihood_func)
      (adapter vec_consequence consequence_func) tol rtol in
  let body2 :=
    secondary_body roots_legendre a b c d
      likelihood_func2 consequence_func tol rtol in
  let loop1 :=
    primary_loop roots_legendre a b
      (adapter vec_likelihood likelihood_func)
      (adapter vec_consequence consequence_func)
      tol rtol min_order max_order in
  let loop2 :=
    secondary_loop roots_legendre a b c d likelihood_func2 consequence_func
      tol rtol min_order max_order in
  (passes body1 orders init_locals (iterations loop1) (outcome loop1) /\
   forall k r, passes body1 orders init_locals k r ->
     (Z.of_nat k <= max_order - min_order + 1)%Z) /\
  (passes body2 orders init_locals2 (iterations loop2) (outcome loop2) /\
   forall k r, passes body2 orders init_locals2 k r ->
     (Z.of_nat k <= max_order - min_order + 1)%Z) /\
  (succeeds (generate_primary_event roots_legendre a b
               (Some likelihood_func) vec_likelihood
               (Some consequence_func) vec_consequence
               tol rtol min_order max_order) \/
   exists e, generate_primary_event roots_legendre a b
               (Some likelihood_func) vec_likelihood
               (Some consequence_func) vec_consequence
               tol rtol min_order max_order = Raise e) /\
  (succeeds (generate_secondary_event roots_legendre a b c d
               (Some likelihood_func2) vec_likelihood
               (Some consequence_func) vec_consequence
               tol rtol min_order max_order) \/
   exists e, generate_secondary_event roots_legendre a b c d
               (Some likelihood_func2) vec_likelihood
               (Some consequence_func) vec_consequence
               tol rtol min_order max_order = Raise e).
Proof.
  intros Hord orders body1 body2 loop1 loop2.
  assert (Hlen : length orders = Z.to_nat (max_order - min_order + 1)).
  { subst orders. rewrite range_length. f_equal. lia. }
  split; [|split; [|split]].
  - split.
    + apply for_else_passes.
    + intros k r Hrun. apply passes_bounded in Hrun. lia.
  - split.
    + apply for_else_passes.
    + intros k r Hrun. apply passes_bounded in Hrun. lia.
  - destruct (generate_primary_event _ _ _ _ _ _ _ _ _ _ _) as [r|e].
    + left. exists r. reflexivity.
    + right. exists e. reflexivity.
  - destruct (generate_secondary_event _ _ _ _ _ _ _ _ _ _ _ _ _) as [r|e].
    + left. exists r. reflexivity.
    + right. exists e. reflexivity.
Qed.

Lemma primary_body_raise (a b : R) (lv cv : func) (tol rtol : R) (n : Z)
    (st : locals) (e : exn) :
  primary_body roots_legendre a b lv cv tol rtol n st = Raise e ->
  primary_samples roots_legendre a b lv cv n = Raise e.
Proof.
  unfold primary_body.
  destruct (primary_samples roots_legendre a b lv cv n); simpl; congruence.
Qed.

Lemma secondary_body_raise (a b c d : R) (lf : func2) (cf : func)
    (tol rtol : R) (n : Z) (st : locals2) (e : exn) :
  secondary_body roots_legendre a b c d lf cf tol rtol n st = Raise e ->
  secondary_samples roots_legendre a b c d lf cf n = Raise e.
Proof.
  unfold secondary_body.
  destruct (secondary_samples roots_legendre a b c d lf cf n); simpl;
    congruence.
Qed.

(** With at least one order to visit, [generate_primary_event] returns a
    6-tuple or propagates the exception of a pass. *)
Lemma generate_primary_event_total (a b : R) (lf cf : func) (vl vc : bool)
    (tol rtol : R) (min_order max_order : Z) :
  (min_order <= max_order)%Z ->
  (exists ims scalers likes cqs val err warned,
     generate_primary_event roots_legendre a b (Some lf) vl (Some cf) vc
       tol rtol min_order max_order =
     Ok ((ims, scalers, likes, cqs, Fin val, err), warned)) \/
  (exists n e,
     (min_order <= n <= max_order)%Z /\
     primary_samples roots_legendre a b (adapter vl lf) (adapter vc cf) n =
     Raise e /\
     generate_primary_event roots_legendre a b (Some lf) vl (Some cf) vc
       tol rtol min_order max_order = Raise e).
Proof.
  intros Hle.
  destruct (outcome (primary_loop roots_legendre a b (adapter vl lf)
                       (adapter vc cf) tol rtol min_order max_order))
    as [[st ex]|e] eqn:Hloop.
  - left.
    destruct (primary_loop_final _ _ _ _ _ _ _ _ _ _ Hle Hloop)
      as (n & s & previous & _ & _ & Hst & _ & _).
    rewrite (generate_primary_event_after_loop _ _ _ _ _ _ _ _ _ _ _ _ Hloop).
    subst st. simpl. do 7 eexists. reflexivity.
  - right. pose proof Hloop as Hraise. unfold primary_loop in Hraise.
    apply for_else_raise in Hraise. destruct Hraise as (n & s0 & Hin & Hb).
    apply range_In in Hin. apply primary_body_raise in Hb.
    exists n, e. split; [lia|]. split; [exact Hb|].
    unfold generate_primary_event. rewrite Hloop. reflexivity.
Qed.

Lemma generate_secondary_event_total (a b c d : R) (lf : func2) (cf : func)
    (vl vc : bool) (tol rtol : R) (min_order max_order : Z) :
  (min_order <= max_order)%Z ->
  (exists im scaler likes cqs val err warned,
     generate_secondary_event roots_legendre a b c d (Some lf) vl (Some cf) vc
       tol rtol min_order max_order =
     Ok ((im, scaler, likes, cqs, Fin val, err), warned)) \/
  (exists n e,
     (min_order <= n <= max_order)%Z /\
     secondary_samples roots_legendre a b c d lf cf n = Raise e /\
     generate_secondary_event roots_legendre a b c d (Some lf) vl (Some cf) vc
       tol rtol min_order max_order = Raise e).
Proof.
  intros Hle.
  destruct (outcome (secondary_loop roots_legendre a b c d lf cf
                       tol rtol min_order max_order))
    as [[st ex]|e] eqn:Hloop.
  - left.
    destruct (secondary_loop_final _ _ _ _ _ _ _ _ _ _ _ _ Hle Hloop)
      as (n & s & previous & _ & _ & Hst & _ & _).
    rewrite (generate_secondary_event_after_loop _ _ _ _ _ _ _ _ _ _ _ _ _ _ Hloop).
    subst st. simpl. do 7 eexists. reflexivity.
  - right. pose proof Hloop as Hraise. unfold secondary_loop in Hraise.
    apply for_else_raise in Hraise. destruct Hraise as (n & s0 & Hin & Hb).
    apply range_In in Hin. apply secondary_body_raise in Hb.
    exists n, e. split; [lia|]. split; [exact Hb|].
    unfold generate_secondary_event. rewrite Hloop. reflexivity.
Qed.

(** C10.  With [max_order < min_order] the loop body of either engine
    never runs and the return statement reads a name that was never
    assigned: the call raises.  With [min_order <= max_order] and both
    functions supplied, the names read after the loop are assigned: the
    call returns a 6-tuple, unless a pass of the loop raised, in which
    case that exception is what the call raises; so a call whose passes
    all evaluate returns a 6-tuple. *)
Theorem unbound_locals_or_tuple (a b c d : R)
    (likelihood_func consequence_func : func) (likelihood_func2 : func2)
    (vec_likelihood vec_consequence : bool) (tol rtol : R)
    (min_order max_order : Z) :
  let lv := adapter vec_likelihood likelihood_func in
  let cv := adapter vec_consequence consequence_func in
  let primary :=
    generate_primary_event roots_legendre a b
      (Some likelihood_func) vec_likelihood
      (Some consequence_func) vec_consequence
      tol rtol min_order max_order in
  let secondary :=
    generate_secondary_event roots_legendre a b c d
      (Some likelihood_func2) vec_likelihood
      (Some consequence_func) vec_consequence
      tol rtol min_order max_order in
  ((max_order < min_order)%Z ->
     iterations (primary_loop roots_legendre a b lv cv
                   tol rtol min_order max_order) = O /\
     primary = Raise (UnboundLocalError "ims") /\
     iterations (secondary_loop roots_legendre a b c d
                   likelihood_func2 consequence_func
                   tol rtol min_order max_order) = O /\
     secondary = Raise (UnboundLocalError "im1")) /\
  ((min_order <= max_order)%Z ->
     ((exists ims scalers likes cqs val err warned,
         primary = Ok ((ims, scalers, likes, cqs, Fin val, err), warned)) \/
      (exists n e,
         (min_order <= n <= max_order)%Z /\
         primary_samples roots_legendre a b lv cv n = Raise e /\
         primary = Raise e)) /\
     ((exists im scaler likes cqs val err warned,
         secondary = Ok ((im, scaler, likes, cqs, Fin val, err), warned)) \/
      (exists n e,
         (min_order <= n <= max_order)%Z /\
         secondary_samples roots_legendre a b c d
           likelihood_func2 consequence_func n = Raise e /\
         secondary = Raise e)) /\
     ((forall n, (min_order <= n <= max_order)%Z ->
         succeeds (primary_samples roots_legendre a b lv cv n)) ->
      exists ims scalers likes cqs val err warned,
        primary = Ok ((ims, scalers, likes, cqs, Fin val, err), warned)) /\
     ((forall n, (min_order <= n <= max_order)%Z ->
         succeeds (secondary_samples roots_legendre a b c d
                     likelihood_func2 consequence_func n)) ->
      exists im scaler likes cqs val err warned,
        secondary = Ok ((im, scaler, likes, cqs, Fin val, err), warned))).
Proof.
  intros lv cv primary secondary. split.
  - intros Hlt. subst primary secondary.
    unfold generate_primary_event, generate_secondary_event,
      primary_loop, secondary_loop.
    rewrite (range_empty min_order (max_order + 1)) by lia.
    repeat split.
  - intros Hle.
    pose proof (generate_primary_event_total a b likelihood_func
                  consequence_func vec_likelihood vec_consequence
                  tol rtol min_order max_order Hle) as Hp.
    pose proof (generate_secondary_event_total a b c d likelihood_func2
                  consequence_func vec_likelihood vec_consequence
                  tol rtol min_order max_order Hle) as Hs.
    fold lv cv primary in Hp. fold secondary in Hs.
    split; [exact Hp|]. split; [exact Hs|]. split; intros Hpass.
    + destruct Hp as [Hp | (n & e & Hn & Hraise & _)]; [exact Hp|].
      destruct (Hpass n Hn) as [s Hok]. congruence.
    + destruct Hs as [Hs | (n & e & Hn & Hraise & _)]; [exact Hs|].
      destruct (Hpass n Hn) as [s Hok]. congruence.
Qed.

End EngineProofs.
End EngineFacts.

(* ===================================================================== *)
(** ** Concrete runs with the rules of order 1 and 2                     *)
(* ===================================================================== *)

Module Runs.
Import Np Scenario Reference NpFacts LoopFacts GridFacts BodyFacts EngineFacts.

Lemma gauss_legendre_1_affine : integrates_affine [0] [2].
Proof.
  unfold integrates_affine, Rsum. simpl.
  repeat split; try discriminate; lra.
Qed.

Lemma gauss_legendre_2_affine :
  integrates_affine [- / sqrt 3; / sqrt 3] [1; 1].
Proof.
  unfold integrates_affine, Rsum. simpl.
  repeat split; try discriminate; lra.
Qed.

Lemma gauss_legendre_12_affine (n : Z) :
  (1 <= n <= 2)%Z ->
  exists x w, gauss_legendre_12 n = Ok (x, w) /\ integrates_affine x w.
Proof.
  intros H. assert (E : n = 1%Z \/ n = 2%Z) by lia.
  destruct E as [-> | ->]; do 2 eexists; (split; [reflexivity|]).
  - exact gauss_legendre_1_affine.
  - exact gauss_legendre_2_affine.
Qed.

(** The unit ramp can be sampled at both orders. *)
Lemma unit_ramp_samples_12 (n : Z) :
  (1 <= n <= 2)%Z ->
  succeeds (primary_samples gauss_legendre_12 0 1
              (adapter false constant_one) (adapter false identity) n).
Proof.
  intros H. destruct (gauss_legendre_12_affine n H) as (x & w & Hrule & Haff).
  eexists. apply (unit_ramp_samples gauss_legendre_12 n x w Hrule Haff).
Qed.

(** The same integrand on the unit square, with functions that accept
    arrays, can be sampled at both orders by the secondary engine. *)
Lemma unit_square_samples_12 (n : Z) :
  (1 <= n <= 2)%Z ->
  succeeds (secondary_samples gauss_legendre_12 0 1 0 1
              constant_one2 identity n).
Proof.
  intros H. assert (E : n = 1%Z \/ n = 2%Z) by lia.
  destruct E as [-> | ->]; eexists; reflexivity.
Qed.

(** With both tolerances 0 the primary loop over orders 1 and 2 is
    exhausted. *)
Lemma unit_ramp_exhausted :
  exists st,
    outcome (primary_loop gauss_legendre_12 0 1
               (adapter false constant_one) (adapter false identity)
               0 0 1 2) = Ok (st, Exhausted).
Proof.
  unfold primary_loop. apply for_else_never_break.
  intros n s0 Hin. apply range_In in Hin.
  destruct (unit_ramp_samples_12 n ltac:(lia)) as [s Hs].
  rewrite (primary_body_ok _ _ _ _ _ _ _ _ _ _ Hs).
  rewrite stop_test_zero_tolerances. eexists; reflexivity.
Qed.

Lemma unit_square_exhausted :
  exists st,
    outcome (secondary_loop gauss_legendre_12 0 1 0 1
               constant_one2 identity 0 0 1 2) = Ok (st, Exhausted).
Proof.
  unfold secondary_loop. apply for_else_never_break.
  intros n s0 Hin. apply range_In in Hin.
  destruct (unit_square_samples_12 n ltac:(lia)) as [s Hs].
  rewrite (secondary_body_ok _ _ _ _ _ _ _ _ _ _ _ _ Hs).
  rewrite stop_test_zero_tolerances. eexists; reflexivity.
Qed.

Lemma primary_stopping_rule_witness :
  (exists st' lk cq candidate,
     primary_body gauss_legendre_12 0 1
       (adapter false constant_one) (adapter false identity)
       default_tol default_rtol 2
       (mkLocals None None None None None (Fin (1 / 2)) PInf) =
     Ok (st', true) /\
     loc_likes st' = Some (Array lk) /\ loc_cqs st' = Some (Array cq) /\
     length lk = 2%nat /\ length cq = 2%nat /\
     candidate =
     sum_upto 2
       (fun i => nth i (rescale_weights 0 1 [1; 1]) 0 * nth i lk 0 * nth i cq 0) /\
     loc_val st' = Fin candidate /\
     loc_err st' = Fin (Rabs (candidate - 1 / 2))) /\
  (forall st' brk,
     primary_body gauss_legendre_12 0 1
       (adapter false constant_one) (adapter false identity)
       default_tol default_rtol 1 init_locals = Ok (st', brk) ->
     loc_err st' = PInf /\ brk = false) /\
  exists ims scalers likes cqs val err,
    generate_primary_event gauss_legendre_12 0 1
      (Some constant_one) false (Some identity) false
      default_tol default_rtol 1 5 =
    Ok ((ims, scalers, likes, cqs, Fin val, Fin err), []) /\
    (err < default_tol \/ err < default_rtol * Rabs val).
Proof.
  destruct (primary_stopping_rule gauss_legendre_12 0 1 constant_one identity
              false false default_tol default_rtol 1 5)
    as (Hpass & Hfirst & Hreturn).
  split; [|split].
  - pose proof (unit_ramp_samples gauss_legendre_12 2
                  [- / sqrt 3; / sqrt 3] [1; 1] eq_refl
                  gauss_legendre_2_affine) as Hs.
    pose proof (primary_body_ok gauss_legendre_12 0 1 _ _
                  default_tol default_rtol 2
                  (mkLocals None None None None None (Fin (1 / 2)) PInf)
                  _ Hs) as Hbody.
    cbn [s_ims s_scalers s_likes s_cqs s_newval loc_val] in Hbody.
    rewrite (stop_test_same default_tol default_rtol (1 / 2) default_tol_pos)
      in Hbody.
    destruct (Hpass _ _ _ _ Hbody)
      as (x & w & likes & cqs & candidate & Hrule & _ & _ & _ & Hlikes & Hcqs
          & Hsum & Hval & Herr & _).
    cbn [gauss_legendre_12] in Hrule. inversion Hrule; subst x w.
    cbn [loc_likes] in Hlikes. inversion Hlikes; subst likes.
    cbn [loc_cqs] in Hcqs. inversion Hcqs; subst cqs.
    eexists. exists (map (fun _ => 1) (rescale_points 0 1 [- / sqrt 3; / sqrt 3])).
    exists (map (fun r => r) (rescale_points 0 1 [- / sqrt 3; / sqrt 3])).
    exists candidate.
    split; [exact Hbody|]. split; [reflexivity|]. split; [reflexivity|].
    split; [reflexivity|]. split; [reflexivity|].
    split; [exact (Hsum eq_refl eq_refl)|].
    split; [exact Hval|].
    exact (Herr (1 / 2) eq_refl).
  - exact (Hfirst 1%Z).
  - eapply Hreturn.
    rewrite (unit_ramp_loop gauss_legendre_12 default_tol default_rtol
               [0] [2] [- / sqrt 3; / sqrt 3] [1; 1]
               eq_refl eq_refl gauss_legendre_1_affine gauss_legendre_2_affine
               default_tol_pos).
    reflexivity.
Defined.

Lemma unit_ramp_converges_witness :
  exists ims scalers likes cqs val err st n,
    generate_primary_event gauss_legendre_12 0 1
      (Some constant_one) false (Some identity) false
      default_tol default_rtol 1 5 =
    Ok ((ims, scalers, likes, cqs, Fin val, err), []) /\
    Rabs (val - 5 / 10) <= / 10 ^ 10 /\
    outcome (primary_loop gauss_legendre_12 0 1
               (adapter false constant_one) (adapter false identity)
               default_tol default_rtol 1 5) = Ok (st, Broke) /\
    loc_n st = Some n /\ (n <= 2)%Z /\
    val = 1 / 2 /\ n = 2%Z.
Proof.
  apply (unit_ramp_converges gauss_legendre_12
           [0] [2] [- / sqrt 3; / sqrt 3] [1; 1]).
  - reflexivity.
  - reflexivity.
  - exact gauss_legendre_1_affine.
  - exact gauss_legendre_2_affine.
Defined.

Lemma exhausted_loop_returns_last_estimate_witness :
  (exists st s,
     generate_primary_event gauss_legendre_12 0 1
       (Some constant_one) false (Some identity) false 0 0 1 2 =
     Ok ((s_ims s, s_scalers s, s_likes s, s_cqs s,
          Fin (s_newval s), loc_err st),
         [_AccuracyWarning 2 (loc_err st)])) /\
  (exists st s,
     generate_secondary_event gauss_legendre_12 0 1 0 1
       (Some constant_one2) false (Some identity) false 0 0 1 2 =
     Ok ((vstack_T (s2_im1 s) (s2_im2 s), vstack_T (s2_w1 s) (s2_w2 s),
          s2_likes s, s2_cqs s, Fin (s2_newval s), loc2_err st),
         [_AccuracyWarning 2 (loc2_err st)])).
Proof.
  destruct (exhausted_loop_returns_last_estimate gauss_legendre_12 0 1 0 1
              constant_one identity constant_one2 false false 0 0 1 2)
    as (Hprimary & Hsecondary).
  split.
  - destruct unit_ramp_exhausted as [st Hloop].
    destruct (Hprimary st ltac:(lia) Hloop) as (s & _ & _ & _ & Hret).
    exists st, s. exact Hret.
  - destruct unit_square_exhausted as [st Hloop].
    destruct (Hsecondary st ltac:(lia) Hloop) as (s & _ & _ & _ & Hret).
    exists st, s. exact Hret.
Defined.

Lemma escalation_bounded_witness :
  (Z.of_nat (iterations
     (primary_loop gauss_legendre_12 0 1
        (adapter false constant_one) (adapter false identity)
        default_tol default_rtol 1 5)) <= 5 - 1 + 1)%Z /\
  (Z.of_nat (iterations
     (secondary_loop gauss_legendre_12 0 1 0 1 constant_one2 identity
        default_tol default_rtol 1 5)) <= 5 - 1 + 1)%Z.
Proof.
  destruct (escalation_bounded gauss_legendre_12 0 1 0 1
              constant_one identity constant_one2 false false
              default_tol default_rtol 1 5 ltac:(lia))
    as ((Hrun1 & Hbound1) & (Hrun2 & Hbound2) & _).
  split.
  - exact (Hbound1 _ _ Hrun1).
  - exact (Hbound2 _ _ Hrun2).
Defined.

Lemma unbound_locals_or_tuple_witness :
  generate_primary_event gauss_legendre_12 0 1
    (Some constant_one) false (Some identity) false
    default_tol default_rtol 2 1 = Raise (UnboundLocalError "ims") /\
  generate_secondary_event gauss_legendre_12 0 1 0 1
    (Some constant_one2) false (Some identity) false
    default_tol default_rtol 2 1 = Raise (UnboundLocalError "im1") /\
  (exists ims scalers likes cqs val err warned,
     generate_primary_event gauss_legendre_12 0 1
       (Some constant_one) false (Some identity) false
       default_tol default_rtol 1 2 =
     Ok ((ims, scalers, likes, cqs, Fin val, err), warned)) /\
  (exists im scaler likes cqs val err warned,
     generate_secondary_event gauss_legendre_12 0 1 0 1
       (Some constant_one2) false (Some identity) false
       default_tol default_rtol 1 2 =
     Ok ((im, scaler, likes, cqs, Fin val, err), warned)).
Proof.
  destruct (unbound_locals_or_tuple gauss_legendre_12 0 1 0 1
              constant_one identity constant_one2 false false
              default_tol default_rtol 2 1) as (Hunbound & _).
  destruct (Hunbound ltac:(lia)) as (_ & Hp & _ & Hs).
  destruct (unbound_locals_or_tuple gauss_legendre_12 0 1 0 1
              constant_one identity constant_one2 false false
              default_tol default_rtol 1 2) as (_ & Htuple).
  destruct (Htuple ltac:(lia)) as (_ & _ & Hp2 & Hs2).
  split; [exact Hp|]. split; [exact Hs|]. split.
  - apply Hp2. exact unit_ramp_samples_12.
  - apply Hs2. exact unit_square_samples_12.
Defined.

(** C10, counterexample.  With [min_order <= max_order] and both
    functions supplied, a call from order 0 does not return a tuple:
    the rule of order 0 is refused, and either engine raises what the
    first pass raised. *)
Lemma every_call_returns_counterexample :
  (0 <= 2)%Z /\
  generate_primary_event gauss_legendre_12 0 1
    (Some constant_one) false (Some identity) false
    default_tol default_rtol 0 2 =
  Raise (ValueError "n must be a positive integer.") /\
  generate_secondary_event gauss_legendre_12 0 1 0 1
    (Some constant_one2) false (Some identity) false
    default_tol default_rtol 0 2 =
  Raise (ValueError "n must be a positive integer.").
Proof.
  split; [lia|]. split; reflexivity.
Qed.

End Runs.

(* ===================================================================== *)
(** ** The [vec_*] flags in the secondary engine                         *)
(* ===================================================================== *)

Module AdapterFacts.
Import Np Scenario Reference.

(** The result of [generate_secondary_event] does not depend on its two
    [vec_*] flags. *)
Lemma secondary_flags_unused (roots_legendre : Z -> result (list R * list R))
    (a b c d : R) (lf : option func2) (cf : option func)
    (vl vc vl' vc' : bool) (tol rtol : R) (min_order max_order : Z) :
  generate_secondary_event roots_legendre a b c d lf vl cf vc
    tol rtol min_order max_order =
  generate_secondary_event roots_legendre a b c d lf vl' cf vc'
    tol rtol min_order max_order.
Proof. destruct lf, cf; reflexivity. Qed.

(** C4.  The call [generate_secondary_event(0, 1, 0, 1,
    likelihood_func=lambda im1, im2: 1.0, consequence_func=lambda im:
    2.0*float(im), min_order=2, max_order=2)], both [vec_*] flags
    [False]: the engine hands the whole array of four secondary samples
    to the scalar consequence function and the call raises, although
    the wrapper selected by the flag gives one value per sample on the
    same array and the primary engine returns for the same function. *)
Theorem secondary_engine_bypasses_adapter :
  generate_secondary_event gauss_legendre_12 0 1 0 1
    (Some constant_one2) false (Some twice_float) false
    default_tol default_rtol 2 2 =
  Raise (TypeError "only length-1 arrays can be converted to Python scalars") /\
  (exists im1 im2 w1 w2 cqs,
     secondary_grid gauss_legendre_12 0 1 0 1 2 = Ok (im1, im2, w1, w2) /\
     adapter false twice_float (Array im2) = Ok (Array cqs) /\
     length im2 = 4%nat /\ length cqs = 4%nat) /\
  succeeds (generate_primary_event gauss_legendre_12 0 1
              (Some constant_one) false (Some twice_float) false
              default_tol default_rtol 2 2).
Proof.
  split; [reflexivity|]. split.
  - do 5 eexists. repeat split; reflexivity.
  - eexists. reflexivity.
Qed.

End AdapterFacts.

(* ===================================================================== *)
(** ** risk.py: further properties of the aggregator                     *)
(* ===================================================================== *)

Module RiskMore.
Import Np Risk Reference Reference2 NpFacts RiskFacts.

Lemma prob_array_cons (c0 c1 : R) (t : list R) :
  prob_array (c0 :: c1 :: t) = (c0 - c1) :: prob_array (c1 :: t).
Proof.
  unfold prob_array, neg, diff_append. simpl. f_equal. lra.
Qed.

Lemma prob_array_single (c0 : R) : prob_array [c0] = [c0].
Proof. unfold prob_array, neg, diff_append. simpl. f_equal. lra. Qed.

(** The difference of two inner products with the state probabilities of
    two CDF sequences, the second at least the first. *)
Lemma inner_product_monotone (c c' q : list R) :
  Forall2 Rle c c' -> nondecreasing q -> length c = length q ->
  (hd 0 c' - hd 0 c) * hd 0 q <=
  Rsum (zip_with Rmult (prob_array c') q) -
  Rsum (zip_with Rmult (prob_array c) q).
Proof.
  intros Hcc. revert q.
  induction Hcc as [|c0 c0' t t' H0 Ht IH]; intros q Hq Hlen.
  - simpl. lra.
  - destruct q as [|q0 qt]; [discriminate|]. simpl in Hlen.
    destruct Ht as [|c1 c1' u u' H1 Hu].
    + rewrite !prob_array_single. simpl. lra.
    + destruct qt as [|q1 qu]; [discriminate|].
      destruct Hq as [Hq01 Hq].
      specialize (IH (q1 :: qu) Hq ltac:(simpl in *; lia)).
      rewrite !prob_array_cons. simpl zip_with. rewrite !Rsum_cons.
      simpl hd in *. nra.
Qed.

End RiskMore.

(* ===================================================================== *)
(** ** risk.py on arrays of IMs                                          *)
(* ===================================================================== *)

Module RiskArraysFacts.
Import Np Risk Reference Reference2 NpFacts RiskFacts RiskMore.
Import RiskArrays.

Lemma call_each_float (gs : list fragility) (im : R) :
  call_each (map elementwise gs) (Float im) =
  Ok (map Float (cdf_array im gs)).
Proof.
  induction gs as [|g t IH]; simpl.
  - reflexivity.
  - rewrite IH. reflexivity.
Qed.

Lemma call_each_array (gs : list fragility) (ims : list R) :
  call_each (map elementwise gs) (Array ims) =
  Ok (map (fun g : fragility => Array (map g ims)) gs).
Proof.
  induction gs as [|g t IH]; simpl.
  - reflexivity.
  - rewrite IH. reflexivity.
Qed.

Lemma all_floats_map (l : list R) : all_floats (map Float l) = Some l.
Proof.
  induction l as [|x t IH]; simpl.
  - reflexivity.
  - rewrite IH. reflexivity.
Qed.

Lemma all_arrays_map (gs : list fragility) (ims : list R) :
  all_arrays (map (fun g : fragility => Array (map g ims)) gs) =
  Some (map (fun g : fragility => map g ims) gs).
Proof.
  induction gs as [|g t IH]; simpl.
  - reflexivity.
  - rewrite IH. reflexivity.
Qed.

Lemma same_lengths_map (gs : list fragility) (ims : list R) :
  same_lengths (map (fun g : fragility => map g ims) gs) = true.
Proof.
  destruct gs as [|g t]; simpl; [reflexivity|].
  apply forallb_forall. intros r Hr.
  apply in_map_iff in Hr. destruct Hr as (g' & <- & _).
  rewrite !length_map. apply Nat.eqb_refl.
Qed.

(** The inner product of the state probabilities and the consequences is
    the consequence-weighted sum. *)
Lemma inner_product_weighted_sum (im : R) (gs : list fragility) (cq : list R) :
  length gs = length cq ->
  Rsum (zip_with Rmult (prob_array (cdf_array im gs)) cq) =
  weighted_sum im gs cq.
Proof.
  intros Hlen. unfold weighted_sum.
  rewrite Rsum_zip_with_index
    by (rewrite prob_array_length, cdf_array_length; exact Hlen).
  rewrite prob_array_length, cdf_array_length.
  apply sum_upto_ext. intros j Hj.
  rewrite prob_array_nth by exact Hj. reflexivity.
Qed.

Lemma expected_consequence_on_float_supplied (im : R) (gs : list fragility)
    (cq : list R) :
  RiskArrays.expected_consequence (Float im)
    (Some (map elementwise gs)) (Some cq) =
  as_float (Risk.expected_consequence im (Some gs) (Some cq)).
Proof.
  unfold RiskArrays.expected_consequence, Risk.expected_consequence.
  rewrite length_map. unfold fragility in *.
  destruct (length gs =? length cq)%nat eqn:E; [|reflexivity].
  cbn [assert bind].
  rewrite call_each_float. cbn [bind].
  unfold np_array. rewrite all_floats_map. cbn [bind neg_diff_append matmul_T].
  fold (prob_array (cdf_array im gs)).
  destruct (matmul (prob_array (cdf_array im gs)) cq); reflexivity.
Qed.

Lemma expected_consequence_on_float (im : R) (gs : list fragility)
    (cq : list R) :
  length gs = length cq ->
  RiskArrays.expected_consequence (Float im)
    (Some (map elementwise gs)) (Some cq) =
  Ok (Float (weighted_sum im gs cq)).
Proof.
  intros Hlen. rewrite expected_consequence_on_float_supplied.
  rewrite expected_consequence_supplied by exact Hlen.
  simpl. rewrite inner_product_weighted_sum by exact Hlen. reflexivity.
Qed.

(** X5.  On a float, with fragility functions that act element by
    element, the general path of [expected_consequence] does what the
    scalar path does: the same float, or the same exception, whatever
    is supplied or omitted. *)
Theorem expected_consequence_float_path (im : R)
    (fragility_funcs : option (list fragility)) (cq_array : option (list R)) :
  RiskArrays.expected_consequence (Float im)
    (option_map (map elementwise) fragility_funcs) cq_array =
  as_float (Risk.expected_consequence im fragility_funcs cq_array).
Proof.
  destruct fragility_funcs as [gs|]; [|reflexivity].
  destruct cq_array as [cq|]; [|reflexivity].
  apply expected_consequence_on_float_supplied.
Qed.

Lemma zip_with_nth_in (f : R -> R -> R) (l1 l2 : list R) (i : nat) (d : R) :
  (i < length l1)%nat -> (i < length l2)%nat ->
  nth i (zip_with f l1 l2) d = f (nth i l1 d) (nth i l2 d).
Proof.
  revert l2 i. induction l1 as [|x t IH]; intros [|y u] i H1 H2;
    simpl in *; try lia.
  destruct i as [|i]; [reflexivity|]. apply IH; lia.
Qed.

Lemma zip_with_length_min (f : R -> R -> R) (l1 l2 : list R) :
  length (zip_with f l1 l2) = Nat.min (length l1) (length l2).
Proof.
  revert l2. induction l1 as [|x t IH]; intros [|y u]; simpl; auto.
Qed.

Lemma diff_rows_length (rows : list (list R)) :
  length (diff_rows rows) = pred (length rows).
Proof.
  induction rows as [|r1 [|r2 t] IH]; try reflexivity.
  change (diff_rows (r1 :: r2 :: t))
    with (zip_with Rminus r2 r1 :: diff_rows (r2 :: t)).
  simpl length in *. rewrite IH. reflexivity.
Qed.

(** Column [i] of the row differences is the difference of column [i]. *)
Lemma diff_rows_column (rows : list (list R)) (i : nat) :
  Forall (fun r => (i < length r)%nat) rows ->
  map (fun r => nth i r 0) (diff_rows rows) =
  diff (map (fun r => nth i r 0) rows).
Proof.
  induction rows as [|r1 [|r2 t] IH]; intros H; try reflexivity.
  inversion H as [|? ? H1 Ht]; subst. inversion Ht as [|? ? H2 _]; subst.
  change (diff_rows (r1 :: r2 :: t))
    with (zip_with Rminus r2 r1 :: diff_rows (r2 :: t)).
  cbn [map]. rewrite IH by exact Ht.
  rewrite zip_with_nth_in by assumption. reflexivity.
Qed.

Lemma nth_map_in (g : R -> R) (l : list R) (i : nat) :
  (i < length l)%nat -> nth i (map g l) 0 = g (nth i l 0).
Proof.
  intros H. rewrite (nth_indep _ 0 (g 0)) by (rewrite length_map; exact H).
  apply map_nth.
Qed.

Lemma nth_zeros (l : list R) (i : nat) : nth i (map (fun _ => 0) l) 0 = 0.
Proof.
  revert i. induction l as [|x t IH]; intros [|i]; simpl; auto.
Qed.

(** Column [i] of the matrix of state probabilities is the array of
    state probabilities at the [i]-th IM. *)
Lemma prob_rows_column (gs : list fragility) (ims : list R) (i : nat) :
  (i < length ims)%nat -> gs <> [] ->
  let rows := map (fun g : fragility => map g ims) gs in
  let zeros := map (fun _ : R => 0) (hd [] rows) in
  map (fun r => nth i r 0) (map neg (diff_rows (rows ++ [zeros]))) =
  prob_array (cdf_array (nth i ims 0) gs).
Proof.
  intros Hi Hne rows zeros.
  rewrite map_map.
  rewrite (map_ext (fun r => nth i (neg r) 0) (fun r => - nth i r 0))
    by (intros r; apply neg_nth).
  rewrite <- (map_map (fun r => nth i r 0) Ropp).
  rewrite diff_rows_column.
  - rewrite map_app. cbn [map]. subst zeros. rewrite nth_zeros.
    unfold prob_array, neg, diff_append. do 3 f_equal.
    subst rows. rewrite map_map. unfold cdf_array.
    apply map_ext. intros g. apply nth_map_in. exact Hi.
  - apply Forall_app. split.
    + subst rows. apply Forall_forall. intros r Hr.
      apply in_map_iff in Hr. destruct Hr as (g & <- & _).
      rewrite length_map. exact Hi.
    + constructor; [|constructor]. subst zeros rows.
      destruct gs as [|g t]; [congruence|]. simpl.
      rewrite !length_map. exact Hi.
Qed.

Lemma map_seq_nth (f : nat -> R) (F : R -> R) (l : list R) :
  (forall i, (i < length l)%nat -> f i = F (nth i l 0)) ->
  map f (seq 0 (length l)) = map F l.
Proof.
  revert f. induction l as [|x t IH]; intros f H.
  - reflexivity.
  - simpl length. cbn [seq map]. rewrite (H O) by (simpl; lia).
    simpl nth. f_equal.
    rewrite <- seq_shift, map_map. apply IH.
    intros i Hi. rewrite (H (S i)) by (simpl; lia). reflexivity.
Qed.

Lemma prob_rows_width (gs : list fragility) (ims : list R) :
  gs <> [] ->
  let rows := map (fun g : fragility => map g ims) gs in
  let zeros := map (fun _ : R => 0) (hd [] rows) in
  length (hd [] (map neg (diff_rows (rows ++ [zeros])))) = length ims.
Proof.
  intros Hne rows zeros. subst zeros rows.
  destruct gs as [|g [|g2 t]]; [congruence| |]; simpl;
    unfold neg; rewrite length_map, zip_with_length_min, !length_map;
    apply Nat.min_id.
Qed.

(** The array path with fragility functions that act element by
    element. *)
Lemma expected_consequence_on_array (ims : list R) (gs : list fragility)
    (cq : list R) :
  gs <> [] -> length gs = length cq ->
  RiskArrays.expected_consequence (Array ims)
    (Some (map elementwise gs)) (Some cq) =
  Ok (Array (map (fun im => weighted_sum im gs cq) ims)).
Proof.
  intros Hne Hlen. unfold RiskArrays.expected_consequence.
  assert (E1 : (length (map elementwise gs) =? length cq)%nat = true).
  { rewrite length_map. apply Nat.eqb_eq. exact Hlen. }
  rewrite E1. cbn [assert bind].
  rewrite call_each_array. cbn [bind]. unfold np_array.
  assert (Hnf : all_floats (map (fun g : fragility => Array (map g ims)) gs)
                = None).
  { destruct gs; [congruence | reflexivity]. }
  rewrite Hnf. rewrite (all_arrays_map gs ims), (same_lengths_map gs ims).
  cbn [bind neg_diff_append matmul_T].
  set (rows := map (fun g : fragility => map g ims) gs).
  set (zeros := map (fun _ : R => 0) (hd [] rows)).
  assert (E2 : (length (map neg (diff_rows (rows ++ [zeros]))) =? length cq)%nat
               = true).
  { rewrite length_map, diff_rows_length, length_app. subst rows.
    rewrite length_map. simpl length. apply Nat.eqb_eq. lia. }
  rewrite E2. subst zeros rows.
  rewrite (prob_rows_width gs ims Hne).
  do 2 f_equal. apply map_seq_nth. intros i Hi.
  unfold column_dot.
  rewrite (prob_rows_column gs ims i Hi Hne).
  apply inner_product_weighted_sum. exact Hlen.
Qed.

(** X6.  On an array of IMs, with at least one fragility function, all
    acting element by element, [expected_consequence] returns one value
    per IM, and each is what a call on that IM alone returns. *)
Theorem expected_consequence_array_path (ims : list R)
    (fragility_funcs : list fragility) (cq_array : list R) :
  fragility_funcs <> [] ->
  length fragility_funcs = length cq_array ->
  exists risks,
    RiskArrays.expected_consequence (Array ims)
      (Some (map elementwise fragility_funcs)) (Some cq_array) =
    Ok (Array risks) /\
    length risks = length ims /\
    forall i, (i < length ims)%nat ->
      Risk.expected_consequence (nth i ims 0)
        (Some fragility_funcs) (Some cq_array) = Ok (nth i risks 0).
Proof.
  intros Hne Hlen.
  exists (map (fun im => weighted_sum im fragility_funcs cq_array) ims).
  split; [apply expected_consequence_on_array; assumption|].
  split; [apply length_map|].
  intros i Hi.
  rewrite expected_consequence_supplied by exact Hlen.
  rewrite inner_product_weighted_sum by exact Hlen.
  rewrite (nth_map_in (fun im => weighted_sum im fragility_funcs cq_array))
    by exact Hi.
  reflexivity.
Qed.

Lemma expected_consequence_array_path_witness :
  exists risks,
    RiskArrays.expected_consequence (Array [1/4; 1/2; 3/4])
      (Some (map elementwise
               [fun im => im; fun im => im / 2; fun im => im / 4]))
      (Some [10; 20; 40]) = Ok (Array risks) /\
    length risks = length [1/4; 1/2; 3/4] /\
    forall i, (i < length [1/4; 1/2; 3/4])%nat ->
      Risk.expected_consequence (nth i [1/4; 1/2; 3/4] 0)
        (Some [fun im => im; fun im => im / 2; fun im => im / 4])
        (Some [10; 20; 40]) = Ok (nth i risks 0).
Proof.
  apply (expected_consequence_array_path [1/4; 1/2; 3/4]
           [fun im => im; fun im => im / 2; fun im => im / 4] [10; 20; 40]).
  - discriminate.
  - reflexivity.
Defined.

Lemma zip_with_map_same (F G : R -> R) (l : list R) :
  zip_with Rmult (map F l) (map G l) = map (fun x => F x * G x) l.
Proof.
  induction l as [|x t IH]; simpl; [reflexivity|]. rewrite IH. reflexivity.
Qed.

Lemma zip_with_map_second (F : R -> R) (h : R -> R -> R) (l1 l2 : list R) :
  length l1 = length l2 ->
  zip_with Rmult (map F l2) (zip_with h l1 l2) =
  zip_with (fun a b => F b * h a b) l1 l2.
Proof.
  revert l2. induction l1 as [|x t IH]; intros [|y u] H; simpl in *;
    try discriminate; try reflexivity.
  rewrite IH by lia. reflexivity.
Qed.

(** X7.  [risk_integrand]: a missing [hazard_func] is reported before
    anything else; a failure of the aggregator is raised whatever the
    hazard function would do; and on an array of IMs, with functions
    that act element by element, the result is, IM by IM, the expected
    consequence times the hazard likelihood. *)
Theorem risk_integrand_behaviour (ims : list R) (h : R -> R)
    (fragility_funcs : list fragility) (cq_array : list R) :
  (forall im ff cq,
     RiskArrays.risk_integrand im None ff cq =
     Raise (AssertionError "Must provide hazard_func")) /\
  (forall im hazard ff cq e,
     RiskArrays.expected_consequence im ff cq = Raise e ->
     RiskArrays.risk_integrand im (Some hazard) ff cq = Raise e) /\
  (fragility_funcs <> [] ->
   length fragility_funcs = length cq_array ->
   RiskArrays.risk_integrand (Array ims) (Some (elementwise h))
     (Some (map elementwise fragility_funcs)) (Some cq_array) =
   Ok (Array (map (fun im => weighted_sum im fragility_funcs cq_array * h im)
                ims))).
Proof.
  split; [reflexivity|]. split.
  - intros im hazard ff cq e H. unfold RiskArrays.risk_integrand.
    rewrite H. reflexivity.
  - intros Hne Hlen. unfold RiskArrays.risk_integrand.
    rewrite expected_consequence_on_array by assumption.
    cbn [bind elementwise]. unfold mul.
    rewrite !length_map, Nat.eqb_refl, zip_with_map_same. reflexivity.
Qed.

Lemma risk_integrand_behaviour_witness :
  RiskArrays.risk_integrand (Float 1) (Some (elementwise (fun im => 2 * im)))
    (Some [elementwise (fun im => im)]) None =
  Raise (TypeError "object of type 'NoneType' has no len()") /\
  RiskArrays.risk_integrand (Array [1/4; 1/2])
    (Some (elementwise (fun im => 2 * im)))
    (Some (map elementwise [fun im => im; fun im => im / 2]))
    (Some [10; 20]) =
  Ok (Array (map (fun im =>
                    weighted_sum im [fun im => im; fun im => im / 2] [10; 20]
                    * (2 * im)) [1/4; 1/2])).
Proof.
  destruct (risk_integrand_behaviour [1/4; 1/2] (fun im => 2 * im)
              [fun im => im; fun im => im / 2] [10; 20])
    as (_ & Hfail & Hok).
  split.
  - apply Hfail. reflexivity.
  - apply Hok; [discriminate | reflexivity].
Defined.

(** X8.  [second_risk_integrand]: a missing [hazard_func] is reported
    first; on two arrays of one length, with functions that act element
    by element, the result is, pair by pair, the expected consequence at
    the secondary IM alone times the joint likelihood of the pair. *)
Theorem second_risk_integrand_behaviour (im1 im2 : list R) (h : R -> R -> R)
    (fragility_funcs : list fragility) (cq_array : list R) :
  (forall u v ff cq,
     RiskArrays.second_risk_integrand u v None ff cq =
     Raise (AssertionError "Must provide hazard_func")) /\
  (fragility_funcs <> [] ->
   length fragility_funcs = length cq_array ->
   length im1 = length im2 ->
   RiskArrays.second_risk_integrand (Array im1) (Array im2)
     (Some (elementwise2 h))
     (Some (map elementwise fragility_funcs)) (Some cq_array) =
   Ok (Array (zip_with
                (fun a b => weighted_sum b fragility_funcs cq_array * h a b)
                im1 im2))).
Proof.
  split; [reflexivity|].
  intros Hne Hlen Hims. unfold RiskArrays.second_risk_integrand.
  rewrite expected_consequence_on_array by assumption.
  cbn [bind elementwise2]. rewrite Hims, Nat.eqb_refl. cbn [bind].
  unfold mul.
  rewrite length_map, zip_with_length_min, Hims, Nat.min_id, Nat.eqb_refl.
  rewrite zip_with_map_second by exact Hims. reflexivity.
Qed.

Lemma second_risk_integrand_behaviour_witness :
  RiskArrays.second_risk_integrand (Array [1; 2]) (Array [1/4; 1/2])
    (Some (elementwise2 (fun a b => a + b)))
    (Some (map elementwise [fun im => im; fun im => im / 2]))
    (Some [10; 20]) =
  Ok (Array (zip_with
               (fun a b =>
                  weighted_sum b [fun im => im; fun im => im / 2] [10; 20]
                  * (a + b))
               [1; 2] [1/4; 1/2])).
Proof.
  destruct (second_risk_integrand_behaviour [1; 2] [1/4; 1/2]
              (fun a b => a + b)
              [fun im => im; fun im => im / 2] [10; 20])
    as (_ & Hok).
  apply Hok; [discriminate | reflexivity | reflexivity].
Defined.

End RiskArraysFacts.

(* ===================================================================== *)
(** ** scenario.py: further properties of the engines                    *)
(* ===================================================================== *)

Module ScenarioMore.
Import Np Scenario Reference Reference2.
Import NpFacts LoopFacts GridFacts BodyFacts EngineFacts.

(** A non-empty range starts with [lo]. *)
Lemma range_cons (lo hi : Z) :
  (lo < hi)%Z -> range lo hi = lo :: range (lo + 1) hi.
Proof.
  intros H. unfold range.
  replace (Z.to_nat (hi - lo)) with (S (Z.to_nat (hi - (lo + 1)))) by lia.
  cbn [seq map]. f_equal; [lia|].
  rewrite <- seq_shift, map_map. apply map_ext. intros i. lia.
Qed.

Lemma range_single (n : Z) : range n (n + 1) = [n].
Proof.
  rewrite range_cons by lia. rewrite range_empty by lia. reflexivity.
Qed.

Section Primary.
Variable roots_legendre : Z -> result (list R * list R).
Variables (a b : R) (lv cv : func) (tol rtol : R) (min_order max_order : Z).
Variable pass : Z -> samples.
Hypothesis Hpass :
  forall m, (min_order <= m <= max_order)%Z ->
    primary_samples roots_legendre a b lv cv m = Ok (pass m).

Let body := primary_body roots_legendre a b lv cv tol rtol.

Lemma body_at (m : Z) (s : locals) :
  (min_order <= m <= max_order)%Z ->
  loc_val s = previous_estimate pass min_order m ->
  body m s =
  Ok (locals_of m (pass m) (error_at pass min_order m),
      accepted tol rtol pass min_order m).
Proof.
  intros Hm Hval. unfold body.
  rewrite (primary_body_ok _ _ _ _ _ _ _ _ _ _ (Hpass m Hm)).
  unfold locals_of, accepted, error_at. rewrite Hval. reflexivity.
Qed.

Lemma previous_estimate_next (m : Z) :
  (min_order <= m)%Z ->
  previous_estimate pass min_order (m + 1) = Fin (s_newval (pass m)).
Proof.
  intros H. unfold previous_estimate.
  replace (m + 1 =? min_order)%Z with false by (symmetry; apply Z.eqb_neq; lia).
  replace (m + 1 - 1)%Z with m by lia. reflexivity.
Qed.

(** The loop started at order [lo] with the estimate of the order before
    it, when no order before [n] is accepted. *)
Lemma loop_from (k : nat) :
  forall lo s n,
    Z.to_nat (n - lo) = k ->
    (min_order <= lo <= n)%Z -> (n <= max_order)%Z ->
    loc_val s = previous_estimate pass min_order lo ->
    (forall m, (lo <= m < n)%Z -> accepted tol rtol pass min_order m = false) ->
    (accepted tol rtol pass min_order n = true ->
     outcome (for_else body (range lo (max_order + 1)) s) =
     Ok (locals_of n (pass n) (error_at pass min_order n), Broke)) /\
    (n = max_order -> accepted tol rtol pass min_order n = false ->
     outcome (for_else body (range lo (max_order + 1)) s) =
     Ok (locals_of n (pass n) (error_at pass min_order n), Exhausted)).
Proof.
  induction k as [|k IH]; intros lo s n Hk Hlo Hn Hval Hrej.
  - assert (lo = n) by lia. subst lo.
    rewrite range_cons by lia.
    pose proof (body_at n s ltac:(lia) Hval) as Hb.
    split.
    + intros Hacc. rewrite Hacc in Hb.
      rewrite (for_else_step body n _ s _ true Hb). reflexivity.
    + intros -> Hacc. rewrite Hacc in Hb.
      rewrite (for_else_step body max_order _ s _ false Hb).
      rewrite range_empty by lia. reflexivity.
  - rewrite range_cons by lia.
    pose proof (body_at lo s ltac:(lia) Hval) as Hb.
    rewrite (Hrej lo ltac:(lia)) in Hb.
    rewrite (for_else_step body lo _ s _ false Hb). cbv iota.
    apply IH; try lia.
    + unfold locals_of. cbn [loc_val]. symmetry.
      apply previous_estimate_next. lia.
    + intros m Hm. apply Hrej. lia.
Qed.

End Primary.

Section Engines.
Variable roots_legendre : Z -> result (list R * list R).

(** The error and the stopping test of a pass, read without the code's
    helpers. *)
Lemma error_at_distance (pass : Z -> samples) (min_order m : Z) :
  error_at pass min_order m =
  distance (fun k => s_newval (pass k)) min_order m.
Proof.
  unfold error_at, previous_estimate, distance.
  destruct (m =? min_order)%Z; reflexivity.
Qed.

Lemma accepted_converged (tol rtol : R) (pass : Z -> samples)
    (min_order m : Z) :
  (min_order <= m)%Z ->
  accepted tol rtol pass min_order m = true <->
  converged tol rtol (fun k => s_newval (pass k)) min_order m.
Proof.
  intros Hm. unfold accepted. rewrite stop_test_true_iff, error_at_distance.
  unfold distance, converged.
  destruct (Z.eqb_spec m min_order) as [E|E]; cbn [below].
  - split; [tauto | intros [H _]; lia].
  - split; [intros H; split; [lia | exact H] | intros [_ H]; exact H].
Qed.

(** X9.  [generate_primary_event] returns at the first order after
    [min_order] whose estimate differs from the estimate of the order
    before it by less than [tol], or by less than [rtol] times its own
    magnitude, with that difference as [err] and no warning; when no
    order does, it returns the estimate of [max_order], with the
    warning exactly when [max_order > min_order]. *)
Theorem first_accepted_order (a b : R) (likelihood_func consequence_func : func)
    (vec_likelihood vec_consequence : bool) (tol rtol : R)
    (min_order max_order : Z) (pass : Z -> samples) (n : Z) :
  let estimate := fun m => s_newval (pass m) in
  let call :=
    generate_primary_event roots_legendre a b
      (Some likelihood_func) vec_likelihood
      (Some consequence_func) vec_consequence
      tol rtol min_order max_order in
  (forall m, (min_order <= m <= max_order)%Z ->
     primary_samples roots_legendre a b
       (adapter vec_likelihood likelihood_func)
       (adapter vec_consequence consequence_func) m = Ok (pass m)) ->
  (min_order <= n <= max_order)%Z ->
  (forall m, (min_order <= m < n)%Z ->
     ~ converged tol rtol estimate min_order m) ->
  converged tol rtol estimate min_order n \/ n = max_order ->
  (converged tol rtol estimate min_order n ->
   call = Ok (tuple_of (pass n) (distance estimate min_order n), [])) /\
  (~ converged tol rtol estimate min_order n ->
   call =
   Ok (tuple_of (pass n) (distance estimate min_order n),
       if (max_order >? min_order)%Z
       then [_AccuracyWarning max_order (distance estimate min_order n)]
       else [])).
Proof.
  intros estimate call Hpass Hn Hrej Hcase.
  assert (Hrej' : forall m, (min_order <= m < n)%Z ->
                    accepted tol rtol pass min_order m = false).
  { intros m Hm. destruct (accepted tol rtol pass min_order m) eqn:E;
      [|reflexivity].
    apply accepted_converged in E; [|lia]. destruct (Hrej m Hm E). }
  destruct (loop_from roots_legendre a b _ _ tol rtol min_order max_order
              pass Hpass (Z.to_nat (n - min_order)) min_order init_locals n
              eq_refl ltac:(lia) ltac:(lia))
    as (Hbroke & Hexh).
  - unfold previous_estimate. rewrite Z.eqb_refl. reflexivity.
  - exact Hrej'.
  - rewrite error_at_distance in Hbroke, Hexh. fold estimate in Hbroke, Hexh.
    split.
    + intros Hc. apply accepted_converged in Hc; [|lia].
      subst call. unfold generate_primary_event, primary_loop.
      rewrite (Hbroke Hc). reflexivity.
    + intros Hc.
      assert (Hacc : accepted tol rtol pass min_order n = false).
      { destruct (accepted tol rtol pass min_order n) eqn:E; [|reflexivity].
        apply accepted_converged in E; [|lia]. destruct (Hc E). }
      destruct Hcase as [Hc'|Hmax]; [destruct (Hc Hc')|].
      subst call. unfold generate_primary_event, primary_loop.
      rewrite (Hexh Hmax Hacc). reflexivity.
Qed.

End Engines.

Section Returned.
Variable roots_legendre : Z -> result (list R * list R).

(** What the tuple returned by [generate_primary_event] is made of: the
    arrays and the candidate of the pass for one order of the range. *)
Lemma generate_primary_event_returned (a b : R) (lf cf : func) (vl vc : bool)
    (tol rtol : R) (min_order max_order : Z)
    (ims scalers : list R) (likes cqs : value) (val err : xreal)
    (warned : list warning) :
  generate_primary_event roots_legendre a b (Some lf) vl (Some cf) vc
    tol rtol min_order max_order =
  Ok ((ims, scalers, likes, cqs, val, err), warned) ->
  exists n s,
    (min_order <= n <= max_order)%Z /\
    primary_samples roots_legendre a b (adapter vl lf) (adapter vc cf) n = Ok s /\
    ims = s_ims s /\ scalers = s_scalers s /\
    likes = s_likes s /\ cqs = s_cqs s /\ val = Fin (s_newval s).
Proof.
  intros Hret.
  destruct (Z_le_gt_dec min_order max_order) as [Hle|Hgt].
  - destruct (outcome (primary_loop roots_legendre a b (adapter vl lf)
                         (adapter vc cf) tol rtol min_order max_order))
      as [[st ex]|e] eqn:Hloop.
    + destruct (primary_loop_final _ _ _ _ _ _ _ _ _ _ _ Hle Hloop)
        as (n & s & previous & Hn & Hs & Hst & _ & _).
      rewrite (generate_primary_event_after_loop _ _ _ _ _ _ _ _ _ _ _ _ _ Hloop)
        in Hret.
      subst st. simpl in Hret. inversion Hret; subst.
      exists n, s. repeat split; auto; lia.
    + unfold generate_primary_event in Hret. rewrite Hloop in Hret.
      discriminate Hret.
  - unfold generate_primary_event, primary_loop in Hret.
    rewrite (range_empty min_order (max_order + 1)) in Hret by lia.
    discriminate Hret.
Qed.

Lemma generate_secondary_event_returned (a b c d : R) (lf : func2) (cf : func)
    (vl vc : bool) (tol rtol : R) (min_order max_order : Z)
    (im scaler : list (R * R)) (likes cqs : value) (val err : xreal)
    (warned : list warning) :
  generate_secondary_event roots_legendre a b c d (Some lf) vl (Some cf) vc
    tol rtol min_order max_order =
  Ok ((im, scaler, likes, cqs, val, err), warned) ->
  exists n s,
    (min_order <= n <= max_order)%Z /\
    secondary_samples roots_legendre a b c d lf cf n = Ok s /\
    im = vstack_T (s2_im1 s) (s2_im2 s) /\
    scaler = vstack_T (s2_w1 s) (s2_w2 s) /\
    likes = s2_likes s /\ cqs = s2_cqs s /\ val = Fin (s2_newval s).
Proof.
  intros Hret.
  destruct (Z_le_gt_dec min_order max_order) as [Hle|Hgt].
  - destruct (outcome (secondary_loop roots_legendre a b c d lf cf
                         tol rtol min_order max_order))
      as [[st ex]|e] eqn:Hloop.
    + destruct (secondary_loop_final _ _ _ _ _ _ _ _ _ _ _ _ _ Hle Hloop)
        as (n & s & previous & Hn & Hs & Hst & _ & _).
      rewrite (generate_secondary_event_after_loop _ _ _ _ _ _ _ _ _ _ _ _ _ _ _
                 Hloop) in Hret.
      subst st. simpl in Hret. inversion Hret; subst.
      exists n, s. repeat split; auto; lia.
    + unfold generate_secondary_event in Hret. rewrite Hloop in Hret.
      discriminate Hret.
  - unfold generate_secondary_event, secondary_loop in Hret.
    rewrite (range_empty min_order (max_order + 1)) in Hret by lia.
    discriminate Hret.
Qed.

(** The rule and the grid behind a successful pass of the secondary
    engine. *)
Lemma secondary_samples_grid (a b c d : R) (lf : func2) (cf : func) (n : Z)
    (s : samples2) :
  secondary_samples roots_legendre a b c d lf cf n = Ok s ->
  exists x w,
    roots_legendre n = Ok (x, w) /\
    (s2_im1 s, s2_im2 s) =
      meshgrid_ravel (rescale_points a b x) (rescale_points c d x) /\
    (s2_w1 s, s2_w2 s) =
      meshgrid_ravel (rescale_weights a b w) (rescale_weights c d w).
Proof.
  intros H. unfold secondary_samples in H.
  destruct (roots_legendre n) as [[x w]|e] eqn:Hrule.
  - rewrite (secondary_grid_eq roots_legendre a b c d n x w Hrule) in H.
    cbn [bind] in H.
    bind_ok H. bind_ok H. bind_ok H. bind_ok H. bind_ok H. bind_ok H.
    inversion H; subst s. exists x, w. repeat split.
  - unfold secondary_grid in H. rewrite Hrule in H. discriminate H.
Qed.

(** X10.  A call with [min_order = max_order = n] makes one pass: it
    returns the estimate of order [n] with [err] still infinite and no
    warning, whatever [tol] and [rtol] are, or raises what that pass
    raises. *)
Theorem single_order_call (a b c d : R)
    (likelihood_func consequence_func : func) (likelihood_func2 : func2)
    (vec_likelihood vec_consequence : bool) (tol rtol : R) (n : Z) :
  generate_primary_event roots_legendre a b
    (Some likelihood_func) vec_likelihood
    (Some consequence_func) vec_consequence tol rtol n n =
  match primary_samples roots_legendre a b
          (adapter vec_likelihood likelihood_func)
          (adapter vec_consequence consequence_func) n with
  | Ok s => Ok (tuple_of s PInf, [])
  | Raise e => Raise e
  end /\
  generate_secondary_event roots_legendre a b c d
    (Some likelihood_func2) vec_likelihood
    (Some consequence_func) vec_consequence tol rtol n n =
  match secondary_samples roots_legendre a b c d
          likelihood_func2 consequence_func n with
  | Ok s =>
      Ok ((vstack_T (s2_im1 s) (s2_im2 s), vstack_T (s2_w1 s) (s2_w2 s),
           s2_likes s, s2_cqs s, Fin (s2_newval s), PInf), [])
  | Raise e => Raise e
  end.
Proof.
  split.
  - unfold generate_primary_event, primary_loop, primary_body.
    rewrite range_single. cbn [for_else].
    destruct (primary_samples _ _ _ _ _ n) as [s|e]; [|reflexivity].
    cbn [bind loc_val init_locals abs_diff]. rewrite stop_test_inf.
    cbn [for_else outcome bind loc_err loc_ims loc_scalers loc_likes loc_cqs
         loc_val local else_clause].
    rewrite Z.gtb_ltb, Z.ltb_irrefl. reflexivity.
  - unfold generate_secondary_event, secondary_loop, secondary_body.
    rewrite range_single. cbn [for_else].
    destruct (secondary_samples _ _ _ _ _ _ _ n) as [s|e]; [|reflexivity].
    cbn [bind loc2_val init_locals2 abs_diff]. rewrite stop_test_inf.
    cbn [for_else outcome bind loc2_err loc2_im1 loc2_im2 loc2_w1 loc2_w2
         loc2_likes loc2_cqs loc2_val local else_clause].
    rewrite Z.gtb_ltb, Z.ltb_irrefl. reflexivity.
Qed.





Lemma map_result_length (f : R -> result R) (l r : list R) :
  map_result f l = Ok r -> length r = length l.
Proof.
  revert r. induction l as [|x t IH]; intros r H; simpl in H.
  - inversion H. reflexivity.
  - bind_ok H. bind_ok H. inversion H; subst. simpl. f_equal. apply IH.
    reflexivity.
Qed.

(** [np.vectorize] returns an array as long as the one it is given. *)
Lemma vectorize_array_length (f : func) (l : list R) (v : value) :
  vectorize f (Array l) = Ok v ->
  exists r, v = Array r /\ length r = length l.
Proof.
  unfold vectorize. destruct l as [|x t]; [discriminate|].
  intros H. bind_ok H. inversion H; subst. eexists. split; [reflexivity|].
  eapply map_result_length. exact E.
Qed.

(** X13.  When the rule of every order m in the range has m points and
    m weights: the tuple returned by [generate_primary_event] with both
    [vec_*] flags off holds four arrays of one length, the order
    reached; the two matrices returned by [generate_secondary_event]
    have as many rows as the square of the order reached. *)
Theorem returned_shapes (a b c d : R) (lf cf : func) (lf2 : func2)
    (vl vc : bool) (tol rtol : R) (min_order max_order : Z) :
  (forall m x w, (min_order <= m <= max_order)%Z ->
     roots_legendre m = Ok (x, w) ->
     length x = Z.to_nat m /\ length w = Z.to_nat m) ->
  (forall ims scalers likes cqs val err warned,
     generate_primary_event roots_legendre a b (Some lf) false (Some cf) false
       tol rtol min_order max_order =
     Ok ((ims, scalers, likes, cqs, val, err), warned) ->
     exists n lk cq,
       (min_order <= n <= max_order)%Z /\
       likes = Array lk /\ cqs = Array cq /\
       length ims = Z.to_nat n /\ length scalers = Z.to_nat n /\
       length lk = Z.to_nat n /\ length cq = Z.to_nat n) /\
  (forall im scaler likes cqs val err warned,
     generate_secondary_event roots_legendre a b c d (Some lf2) vl (Some cf) vc
       tol rtol min_order max_order =
     Ok ((im, scaler, likes, cqs, val, err), warned) ->
     exists n,
       (min_order <= n <= max_order)%Z /\
       length im = (Z.to_nat n * Z.to_nat n)%nat /\
       length scaler = (Z.to_nat n * Z.to_nat n)%nat).
Proof.
  intros Hrule. split.
  - intros ims scalers likes cqs val err warned Hret.
    apply generate_primary_event_returned in Hret.
    destruct Hret as (n & s & Hn & Hs & -> & -> & -> & -> & _).
    destruct (primary_samples_inv _ _ _ _ _ _ _ Hs)
      as (x & w & _ & _ & Hr & Hims & Hsc & Hl & Hc & _).
    destruct (Hrule n x w Hn Hr) as [Lx Lw].
    unfold adapter in Hl, Hc.
    apply vectorize_array_length in Hl. destruct Hl as (lk & El & Llk).
    apply vectorize_array_length in Hc. destruct Hc as (cq & Ec & Lcq).
    exists n, lk, cq.
    rewrite Hims, rescale_points_length in *.
    rewrite Hsc, rescale_weights_length.
    repeat split; auto; lia.
  - intros im scaler likes cqs val err warned Hret.
    apply generate_secondary_event_returned in Hret.
    destruct Hret as (n & s & Hn & Hs & -> & -> & _).
    destruct (secondary_samples_grid _ _ _ _ _ _ _ _ Hs)
      as (x & w & Hr & Hpts & Hw).
    destruct (Hrule n x w Hn Hr) as [Lx Lw].
    apply (f_equal fst) in Hpts as P1. apply (f_equal snd) in Hpts as P2.
    apply (f_equal fst) in Hw as W1. apply (f_equal snd) in Hw as W2.
    cbn [fst snd] in P1, P2, W1, W2.
    exists n. split; [lia|]. unfold vstack_T.
    rewrite !length_combine, P1, P2, W1, W2.
    destruct (meshgrid_ravel_lengths (rescale_points a b x)
                (rescale_points c d x)) as [-> ->].
    destruct (meshgrid_ravel_lengths (rescale_weights a b w)
                (rescale_weights c d w)) as [-> ->].
    rewrite !rescale_points_length, !rescale_weights_length, Lx, Lw.
    split; apply Nat.min_id.
Qed.

End Returned.



Lemma nth_constant_map (y d : R) (xs : list R) (k : nat) :
  (k < length xs)%nat -> nth k (map (fun _ => y) xs) d = y.
Proof.
  revert k. induction xs as [|x t IH]; intros k H; simpl in *; [lia|].
  destruct k as [|k]; [reflexivity|]. apply IH. lia.
Qed.

(** Entry [k] of the raveled grid pairs element [k mod n] of the first
    axis with element [k / n] of the second, [n] the length of the first
    axis. *)
Lemma meshgrid_ravel_nth (xs ys : list R) (k : nat) (d : R) :
  (k < length xs * length ys)%nat ->
  nth k (fst (meshgrid_ravel xs ys)) d = nth (k mod length xs) xs d /\
  nth k (snd (meshgrid_ravel xs ys)) d = nth (k / length xs) ys d.
Proof.
  unfold meshgrid_ravel. cbn [fst snd].
  revert k. induction ys as [|y t IH]; intros k Hk.
  - simpl in Hk. lia.
  - assert (Hn : length xs <> O) by (intros E; rewrite E in Hk; simpl in Hk; lia).
    cbn [flat_map].
    destruct (Nat.lt_ge_cases k (length xs)) as [Hlt|Hge].
    + rewrite !app_nth1 by (rewrite ?length_map; exact Hlt).
      rewrite Nat.mod_small, Nat.div_small by exact Hlt.
      split; [reflexivity|]. apply nth_constant_map. exact Hlt.
    + rewrite !app_nth2 by (rewrite ?length_map; exact Hge).
      rewrite length_map.
      assert (Hk' : (k - length xs < length xs * length t)%nat).
      { simpl length in Hk. nia. }
      destruct (IH (k - length xs)%nat Hk') as [I1 I2].
      rewrite I1, I2.
      assert (M : (k mod length xs = (k - length xs) mod length xs)%nat).
      { replace k with ((k - length xs) + 1 * length xs)%nat at 1 by lia.
        apply Nat.Div0.mod_add. }
      assert (D : (k / length xs = S ((k - length xs) / length xs))%nat).
      { replace k with ((k - length xs) + 1 * length xs)%nat at 1 by lia.
        rewrite Nat.div_add by exact Hn. lia. }
      rewrite M, D. split; reflexivity.
Qed.

Lemma for_else_ext {St : Type} (body1 body2 : Z -> St -> result (St * bool))
    (orders : list Z) (s : St) :
  (forall n s0, In n orders -> body1 n s0 = body2 n s0) ->
  for_else body1 orders s = for_else body2 orders s.
Proof.
  revert s. induction orders as [|n rest IH]; intros s H; simpl.
  - reflexivity.
  - rewrite (H n s (or_introl eq_refl)).
    destruct (body2 n s) as [[s' [|]]|e]; try reflexivity.
    rewrite IH by (intros m s0 Hm; apply H; right; exact Hm).
    reflexivity.
Qed.

(** Either wrapper gives the array of the values on a non-empty array. *)
Lemma adapter_elementwise (vec : bool) (f : func) (g : R -> R) (l : list R) :
  acts_elementwise f g -> l <> [] ->
  adapter vec f (Array l) = Ok (Array (map g l)).
Proof.
  intros [Hfloat Harray] Hl. destruct vec; simpl.
  - apply Harray.
  - apply vectorize_pure; assumption.
Qed.

Section Flags.
Variable roots_legendre : Z -> result (list R * list R).

(** X17.  For two functions that act element by element (a float gives
    a float, an array the array of the values), and rules without an
    empty set of points, the result of [generate_primary_event] does
    not depend on the [vec_*] flags. *)
Theorem vec_flags_irrelevant (a b : R) (likelihood_func consequence_func : func)
    (f g : R -> R) (tol rtol : R) (min_order max_order : Z)
    (vec_likelihood vec_consequence : bool) :
  acts_elementwise likelihood_func f ->
  acts_elementwise consequence_func g ->
  (forall m x w, (min_order <= m <= max_order)%Z ->
     roots_legendre m = Ok (x, w) -> x <> []) ->
  generate_primary_event roots_legendre a b
    (Some likelihood_func) vec_likelihood
    (Some consequence_func) vec_consequence
    tol rtol min_order max_order =
  generate_primary_event roots_legendre a b
    (Some likelihood_func) true (Some consequence_func) true
    tol rtol min_order max_order.
Proof.
  intros Hf Hg Hne.
  unfold generate_primary_event, primary_loop.
  rewrite (for_else_ext
             (primary_body roots_legendre a b
                (adapter vec_likelihood likelihood_func)
                (adapter vec_consequence consequence_func) tol rtol)
             (primary_body roots_legendre a b
                (adapter true likelihood_func)
                (adapter true consequence_func) tol rtol)).
  - reflexivity.
  - intros m s0 Hin. apply range_In in Hin.
    unfold primary_body, primary_samples, primary_grid.
    destruct (roots_legendre m) as [[x w]|e] eqn:Hrule; [|reflexivity].
    cbn [bind].
    assert (Hims : rescale_points a b x <> []).
    { pose proof (Hne m x w ltac:(lia) Hrule) as Hx.
      destruct x; [congruence | discriminate]. }
    rewrite !(adapter_elementwise _ likelihood_func f _ Hf Hims).
    rewrite !(adapter_elementwise _ consequence_func g _ Hg Hims).
    reflexivity.
Qed.

End Flags.

Section Secondary.
Variable roots_legendre : Z -> result (list R * list R).

(** X16.  The grid of [generate_secondary_event] is the tensor product
    of the rule with itself, row by row: with a rule of n points and n
    weights, the four raveled arrays have n*n entries, and entry k pairs
    primary point and weight [k mod n] with secondary point and weight
    [k / n]. *)
Theorem secondary_grid_layout (a b c d : R) (n : Z) (x w : list R) :
  roots_legendre n = Ok (x, w) ->
  length x = length w ->
  exists im1 im2 w1 w2,
    secondary_grid roots_legendre a b c d n = Ok (im1, im2, w1, w2) /\
    length im1 = (length x * length x)%nat /\
    length im2 = (length x * length x)%nat /\
    length w1 = (length x * length x)%nat /\
    length w2 = (length x * length x)%nat /\
    forall k, (k < length x * length x)%nat ->
      nth k im1 0 = nth (k mod length x) (rescale_points a b x) 0 /\
      nth k im2 0 = nth (k / length x) (rescale_points c d x) 0 /\
      nth k w1 0 = nth (k mod length x) (rescale_weights a b w) 0 /\
      nth k w2 0 = nth (k / length x) (rescale_weights c d w) 0.
Proof.
  intros Hrule Hlen.
  rewrite (secondary_grid_eq roots_legendre a b c d n x w Hrule).
  do 4 eexists. split; [reflexivity|].
  destruct (meshgrid_ravel_lengths (rescale_points a b x)
              (rescale_points c d x)) as [P1 P2].
  destruct (meshgrid_ravel_lengths (rescale_weights a b w)
              (rescale_weights c d w)) as [W1 W2].
  rewrite !rescale_points_length in P1, P2.
  rewrite !rescale_weights_length, <- Hlen in W1, W2.
  repeat (split; [assumption|]).
  intros k Hk.
  destruct (meshgrid_ravel_nth (rescale_points a b x) (rescale_points c d x)
              k 0) as [A1 A2];
    [rewrite !rescale_points_length; exact Hk|].
  destruct (meshgrid_ravel_nth (rescale_weights a b w) (rescale_weights c d w)
              k 0) as [B1 B2];
    [rewrite !rescale_weights_length, <- Hlen; exact Hk|].
  rewrite rescale_points_length in A1, A2.
  rewrite rescale_weights_length, <- Hlen in B1, B2.
  repeat split; assumption.
Qed.

(** What a successful pass of lines 125-145 has multiplied and summed. *)
Lemma secondary_samples_products (a b c d : R) (lf : func2) (cf : func)
    (n : Z) (s : samples2) :
  secondary_samples roots_legendre a b c d lf cf n = Ok s ->
  length (s2_w1 s) = length (s2_w2 s) /\
  cf (Array (s2_im2 s)) = Ok (s2_cqs s) /\
  lf (Array (s2_im1 s)) (Array (s2_im2 s)) = Ok (s2_likes s) /\
  exists wwl wwlc,
    mul (Array (zip_with Rmult (s2_w1 s) (s2_w2 s))) (s2_likes s) = Ok wwl /\
    mul wwl (s2_cqs s) = Ok wwlc /\
    sum_last_axis wwlc = Ok (s2_newval s).
Proof.
  intros H. unfold secondary_samples in H.
  destruct (roots_legendre n) as [[x w]|e] eqn:Hrule.
  - rewrite (secondary_grid_eq roots_legendre a b c d n x w Hrule) in H.
    cbn [bind] in H.
    destruct (meshgrid_ravel_lengths (rescale_weights a b w)
                (rescale_weights c d w)) as [L1 L2].
    bind_step H. bind_step H.
    rewrite mul_arrays in H by congruence. cbn [bind] in H.
    bind_step H. bind_step H. bind_step H.
    inversion H; subst s;
      cbn [s2_w1 s2_w2 s2_im1 s2_im2 s2_likes s2_cqs s2_newval].
    split; [congruence|]. split; [assumption|]. split; [assumption|].
    eauto.
  - unfold secondary_grid in H. rewrite Hrule in H. discriminate H.
Qed.

(** X15.  In [generate_secondary_event]: the candidate of a pass is the
    sum over the grid pairs of primary weight x secondary weight x
    likelihood x consequence, where the likelihoods are what
    [likelihood_func] returns for the two arrays of grid points and the
    consequences what [consequence_func] returns for the secondary
    ones; the first pass never ends the loop; and when the function
    returns after the loop was ended by [break], the returned pair
    satisfies err < tol or err < rtol * |val|. *)
Theorem secondary_stopping_rule (a b c d : R) (likelihood_func : func2)
    (consequence_func : func) (vec_likelihood vec_consequence : bool)
    (tol rtol : R) (min_order max_order : Z) :
  (forall n s,
     secondary_samples roots_legendre a b c d
       likelihood_func consequence_func n = Ok s ->
     likelihood_func (Array (s2_im1 s)) (Array (s2_im2 s)) = Ok (s2_likes s) /\
     consequence_func (Array (s2_im2 s)) = Ok (s2_cqs s) /\
     (conforms (s2_likes s) (length (s2_w1 s)) ->
      conforms (s2_cqs s) (length (s2_w1 s)) ->
      s2_newval s =
      sum_upto (length (s2_w1 s))
        (fun i => nth i (s2_w1 s) 0 * nth i (s2_w2 s) 0
                  * item (s2_likes s) i * item (s2_cqs s) i))) /\
  (forall n st' brk,
     secondary_body roots_legendre a b c d likelihood_func consequence_func
       tol rtol n init_locals2 = Ok (st', brk) ->
     loc2_err st' = PInf /\ brk = false) /\
  (forall st,
     outcome (secondary_loop roots_legendre a b c d
                likelihood_func consequence_func
                tol rtol min_order max_order) = Ok (st, Broke) ->
     exists im scaler likes cqs val err,
       generate_secondary_event roots_legendre a b c d
         (Some likelihood_func) vec_likelihood
         (Some consequence_func) vec_consequence
         tol rtol min_order max_order =
       Ok ((im, scaler, likes, cqs, Fin val, Fin err), []) /\
       (err < tol \/ err < rtol * Rabs val)).
Proof.
  split; [|split].
  - intros n s Hs.
    destruct (secondary_samples_products _ _ _ _ _ _ _ _ Hs)
      as (Lw & Hcq & Hlk & wwl & wwlc & Hwwl & Hwwlc & Hsum).
    split; [exact Hlk|]. split; [exact Hcq|].
    intros Cl Cc.
    assert (Lww : length (zip_with Rmult (s2_w1 s) (s2_w2 s)) =
                  length (s2_w1 s)) by (apply zip_with_length; exact Lw).
    rewrite <- Lww in Cl, Cc.
    rewrite (broadcast_product_sum _ _ _ _ _ Cl Cc wwl Hwwl Hwwlc Hsum).
    rewrite Lww. apply sum_upto_ext. intros i _.
    rewrite zip_with_nth by exact Lw. reflexivity.
  - intros n st' brk Hbody.
    apply secondary_body_inv in Hbody. destruct Hbody as (s & _ & -> & ->).
    simpl. split; reflexivity.
  - intros st Hloop.
    assert (Hle : (min_order <= max_order)%Z).
    { destruct (Z_le_gt_dec min_order max_order) as [H|H]; [exact H|].
      unfold secondary_loop in Hloop.
      rewrite (range_empty min_order (max_order + 1)) in Hloop by lia.
      simpl in Hloop. discriminate Hloop. }
    destruct (secondary_loop_final _ _ _ _ _ _ _ _ _ _ _ _ _ Hle Hloop)
      as (n & s & previous & _ & _ & Hst & Hbrk & _).
    simpl in Hbrk. symmetry in Hbrk. apply stop_test_true_iff in Hbrk.
    assert (Hfin : exists v, previous = Fin v).
    { destruct Hbrk as [H|H]; apply below_abs_diff in H;
        destruct H as (v & Hv & _); exists v; exact Hv. }
    destruct Hfin as (v & ->). simpl in Hbrk, Hst.
    rewrite (generate_secondary_event_after_loop _ _ _ _ _ _ _ _ _ _ _ _ _ _ _
               Hloop).
    subst st. simpl.
    do 6 eexists. split; [reflexivity | exact Hbrk].
Qed.

End Secondary.

(** The integrand [1 * im2] on the unit square: both orders give 1/2. *)
Lemma unit_square_estimate (n : Z) :
  (1 <= n <= 2)%Z ->
  exists s,
    secondary_samples gauss_legendre_12 0 1 0 1 constant_one2 identity n = Ok s /\
    s2_newval s = 1 / 2.
Proof.
  intros H. assert (E : n = 1%Z \/ n = 2%Z) by lia.
  destruct E as [-> | ->]; eexists; (split; [reflexivity|]); simpl; lra.
Qed.

Lemma unit_square_breaks (tol rtol : R) :
  0 < tol ->
  exists st,
    outcome (secondary_loop gauss_legendre_12 0 1 0 1 constant_one2 identity
               tol rtol 1 2) = Ok (st, Broke).
Proof.
  intros Htol. unfold secondary_loop.
  change (range 1 (2 + 1)) with [1; 2]%Z. cbn [for_else].
  destruct (unit_square_estimate 1 ltac:(lia)) as (s1 & H1 & N1).
  destruct (unit_square_estimate 2 ltac:(lia)) as (s2 & H2 & N2).
  rewrite (secondary_body_ok _ _ _ _ _ _ _ _ _ _ _ _ H1).
  cbn [loc2_val init_locals2 abs_diff]. rewrite stop_test_inf.
  rewrite (secondary_body_ok _ _ _ _ _ _ _ _ _ _ _ _ H2).
  cbn [loc2_val]. rewrite N1, N2.
  rewrite (stop_test_same tol rtol (1 / 2) Htol).
  eexists. reflexivity.
Qed.

Lemma gauss_legendre_12_nonempty (m : Z) (x w : list R) :
  gauss_legendre_12 m = Ok (x, w) -> x <> [].
Proof.
  unfold gauss_legendre_12. intros H.
  destruct m as [|p|p]; try discriminate H.
  destruct p as [p|p|]; try discriminate H;
    try (destruct p as [p|p|]; try discriminate H);
    inversion H; subst; discriminate.
Qed.

(** [expected_consequence] with its keyword arguments bound, as it is
    passed for [consequence_func], acts element by element. *)
Lemma expected_consequence_acts_elementwise (gs : list Risk.fragility)
    (cq : list R) :
  gs <> [] -> length gs = length cq ->
  acts_elementwise
    (fun im => RiskArrays.expected_consequence im
                 (Some (map RiskArrays.elementwise gs)) (Some cq))
    (fun im => weighted_sum im gs cq).
Proof.
  intros Hne Hlen. split.
  - intros x. apply RiskArraysFacts.expected_consequence_on_float. exact Hlen.
  - intros l. apply RiskArraysFacts.expected_consequence_on_array; assumption.
Qed.

Lemma vec_flags_irrelevant_witness :
  generate_primary_event gauss_legendre_12 0 1
    (Some (RiskArrays.elementwise (fun im => 2 * im))) false
    (Some (fun im => RiskArrays.expected_consequence im
                       (Some (map RiskArrays.elementwise
                                [fun im => im; fun im => im / 2]))
                       (Some [10; 20]))) false
    default_tol default_rtol 1 2 =
  generate_primary_event gauss_legendre_12 0 1
    (Some (RiskArrays.elementwise (fun im => 2 * im))) true
    (Some (fun im => RiskArrays.expected_consequence im
                       (Some (map RiskArrays.elementwise
                                [fun im => im; fun im => im / 2]))
                       (Some [10; 20]))) true
    default_tol default_rtol 1 2.
Proof.
  apply (vec_flags_irrelevant gauss_legendre_12 0 1 _ _
           (fun im => 2 * im)
           (fun im => weighted_sum im [fun im => im; fun im => im / 2] [10; 20])).
  - split; reflexivity.
  - apply expected_consequence_acts_elementwise; [discriminate | reflexivity].
  - intros m x w _ H. exact (gauss_legendre_12_nonempty m x w H).
Defined.

Lemma secondary_grid_layout_witness :
  exists im1 im2 w1 w2,
    secondary_grid gauss_legendre_12 0 3 1 2 2 = Ok (im1, im2, w1, w2) /\
    length im1 = (2 * 2)%nat /\
    length im2 = (2 * 2)%nat /\
    length w1 = (2 * 2)%nat /\
    length w2 = (2 * 2)%nat /\
    forall k, (k < 2 * 2)%nat ->
      nth k im1 0 =
        nth (k mod 2) (rescale_points 0 3 [- / sqrt 3; / sqrt 3]) 0 /\
      nth k im2 0 =
        nth (k / 2) (rescale_points 1 2 [- / sqrt 3; / sqrt 3]) 0 /\
      nth k w1 0 = nth (k mod 2) (rescale_weights 0 3 [1; 1]) 0 /\
      nth k w2 0 = nth (k / 2) (rescale_weights 1 2 [1; 1]) 0.
Proof.
  apply (secondary_grid_layout gauss_legendre_12 0 3 1 2 2
           [- / sqrt 3; / sqrt 3] [1; 1]).
  - reflexivity.
  - reflexivity.
Defined.

Lemma secondary_stopping_rule_witness :
  (exists s lk cq,
     secondary_samples gauss_legendre_12 0 1 0 1 product2 identity 2 = Ok s /\
     product2 (Array (s2_im1 s)) (Array (s2_im2 s)) = Ok (Array lk) /\
     identity (Array (s2_im2 s)) = Ok (Array cq) /\
     length lk = 4%nat /\ length cq = 4%nat /\
     s2_newval s =
     sum_upto 4
       (fun i => nth i (s2_w1 s) 0 * nth i (s2_w2 s) 0
                 * nth i lk 0 * nth i cq 0)) /\
  exists im scaler likes cqs val err,
    generate_secondary_event gauss_legendre_12 0 1 0 1
      (Some constant_one2) false (Some identity) false
      default_tol default_rtol 1 2 =
    Ok ((im, scaler, likes, cqs, Fin val, Fin err), []) /\
    (err < default_tol \/ err < default_rtol * Rabs val).
Proof.
  split.
  - destruct (secondary_stopping_rule gauss_legendre_12 0 1 0 1
                product2 identity false false
                default_tol default_rtol 2 2) as (Hsum & _ & _).
    assert (Hs : exists s,
              secondary_samples gauss_legendre_12 0 1 0 1 product2 identity 2
              = Ok s /\
              exists lk cq,
                s2_likes s = Array lk /\ s2_cqs s = Array cq /\
                length lk = 4%nat /\ length cq = 4%nat /\
                length (s2_w1 s) = 4%nat).
    { eexists. split; [reflexivity|].
      do 2 eexists. repeat split; reflexivity. }
    destruct Hs as (s & Hs & lk & cq & El & Ec & Ll & Lc & Lw).
    destruct (Hsum 2%Z s Hs) as (Hl & Hc & Hval).
    rewrite El in Hl. rewrite Ec in Hc.
    exists s, lk, cq.
    split; [exact Hs|]. split; [exact Hl|]. split; [exact Hc|].
    split; [exact Ll|]. split; [exact Lc|].
    rewrite El, Ec, Lw in Hval. cbn [conforms item] in Hval.
    exact (Hval Ll Lc).
  - destruct (secondary_stopping_rule gauss_legendre_12 0 1 0 1
                constant_one2 identity false false
                default_tol default_rtol 1 2) as (_ & _ & Hret).
    destruct (unit_square_breaks default_tol default_rtol default_tol_pos)
      as [st Hloop].
    exact (Hret st Hloop).
Defined.

Lemma gauss_legendre_12_lengths (m : Z) (x w : list R) :
  gauss_legendre_12 m = Ok (x, w) ->
  length x = Z.to_nat m /\ length w = Z.to_nat m.
Proof.
  unfold gauss_legendre_12. intros H.
  destruct m as [|p|p]; try discriminate H.
  destruct p as [p|p|]; try discriminate H;
    try (destruct p as [p|p|]; try discriminate H);
    inversion H; subst; split; reflexivity.
Qed.

Lemma returned_shapes_witness :
  (forall ims scalers likes cqs val err warned,
     generate_primary_event gauss_legendre_12 0 3 (Some constant_one) false
       (Some identity) false default_tol default_rtol 1 2 =
     Ok ((ims, scalers, likes, cqs, val, err), warned) ->
     exists n lk cq,
       (1 <= n <= 2)%Z /\
       likes = Array lk /\ cqs = Array cq /\
       length ims = Z.to_nat n /\ length scalers = Z.to_nat n /\
       length lk = Z.to_nat n /\ length cq = Z.to_nat n) /\
  (forall im scaler likes cqs val err warned,
     generate_secondary_event gauss_legendre_12 0 3 1 2 (Some constant_one2)
       false (Some identity) false default_tol default_rtol 1 2 =
     Ok ((im, scaler, likes, cqs, val, err), warned) ->
     exists n,
       (1 <= n <= 2)%Z /\
       length im = (Z.to_nat n * Z.to_nat n)%nat /\
       length scaler = (Z.to_nat n * Z.to_nat n)%nat).
Proof.
  apply (returned_shapes gauss_legendre_12 0 3 1 2
           constant_one identity constant_one2 false false
           default_tol default_rtol 1 2).
  intros m x w _ H. exact (gauss_legendre_12_lengths m x w H).
Defined.

Lemma unit_ramp_pass_ok (m : Z) :
  (1 <= m <= 2)%Z ->
  primary_samples gauss_legendre_12 0 1
    (adapter false constant_one) (adapter false identity) m =
  Ok (unit_ramp_pass m).
Proof.
  intros H. assert (E : m = 1%Z \/ m = 2%Z) by lia.
  destruct E as [-> | ->].
  - exact (unit_ramp_samples gauss_legendre_12 1 [0] [2] eq_refl
             Runs.gauss_legendre_1_affine).
  - exact (unit_ramp_samples gauss_legendre_12 2 [- / sqrt 3; / sqrt 3] [1; 1]
             eq_refl Runs.gauss_legendre_2_affine).
Qed.

Lemma first_accepted_order_witness :
  generate_primary_event gauss_legendre_12 0 1
    (Some constant_one) false (Some identity) false
    default_tol default_rtol 1 2 =
  Ok (tuple_of (unit_ramp_pass 2)
        (distance (fun m => s_newval (unit_ramp_pass m)) 1 2), []).
Proof.
  destruct (first_accepted_order gauss_legendre_12 0 1 constant_one identity
              false false default_tol default_rtol 1 2 unit_ramp_pass 2)
    as [Hstop _].
  - exact unit_ramp_pass_ok.
  - lia.
  - intros m Hm [Hlt _]. lia.
  - left. split; [lia|]. left.
    change (s_newval (unit_ramp_pass 2)) with (1 / 2).
    change (s_newval (unit_ramp_pass (2 - 1))) with (1 / 2).
    replace (1 / 2 - 1 / 2) with 0 by lra. rewrite Rabs_R0.
    exact default_tol_pos.
  - apply Hstop. split; [lia|]. left.
    change (s_newval (unit_ramp_pass 2)) with (1 / 2).
    change (s_newval (unit_ramp_pass (2 - 1))) with (1 / 2).
    replace (1 / 2 - 1 / 2) with 0 by lra. rewrite Rabs_R0.
    exact default_tol_pos.
Defined.

End ScenarioMore.

(* ===================================================================== *)
(** ** example/fragility.py                                              *)
(* ===================================================================== *)

Module FragilityFacts.
Import Np Risk Reference Reference2 Reference3 Constants Fragility.
Import NpFacts RiskFacts RiskMore.

Lemma lower_ascii_idempotent (c : Ascii.ascii) :
  lower_ascii (lower_ascii c) = lower_ascii c.
Proof. destruct c as [[] [] [] [] [] [] [] []]; reflexivity. Qed.

Lemma lower_idempotent (s : string) : lower (lower s) = lower s.
Proof.
  induction s as [|c t IH]; simpl.
  - reflexivity.
  - rewrite lower_ascii_idempotent, IH. reflexivity.
Qed.

Example lower_example : lower "Slight" = "slight"%string.
Proof. reflexivity. Qed.

Lemma is_in_known (s : string) :
  is_in s known_names =
  (is_in s ["s"; "slight"]%string || is_in s ["m"; "moderate"]%string
   || (is_in s ["e"; "extensive"]%string
       || is_in s ["c"; "complete"; "collapse"]%string))%bool.
Proof.
  unfold is_in, known_names. simpl.
  repeat rewrite orb_false_r. repeat rewrite orb_assoc. reflexivity.
Qed.

Section Lognormal.
Variable lognorm_cdf : R -> R -> R -> R.

(** X18.  [fragility_curve] and [fragility_curve_second] look at the
    damage-state name in lower case only: they return a curve exactly
    for the nine names 's', 'slight', 'm', 'moderate', 'e',
    'extensive', 'c', 'complete', 'collapse' in any mix of cases, and
    for every other name they fail at [return func] with an
    [UnboundLocalError]. *)
Theorem fragility_curve_names (damage_state : string) (scale : R) :
  fragility_curve lognorm_cdf damage_state scale =
    fragility_curve lognorm_cdf (lower damage_state) scale /\
  fragility_curve_second lognorm_cdf damage_state scale =
    fragility_curve_second lognorm_cdf (lower damage_state) scale /\
  (if is_in (lower damage_state) known_names
   then succeeds (fragility_curve lognorm_cdf damage_state scale) /\
        succeeds (fragility_curve_second lognorm_cdf damage_state scale)
   else fragility_curve lognorm_cdf damage_state scale =
          Raise (UnboundLocalError "func") /\
        fragility_curve_second lognorm_cdf damage_state scale =
          Raise (UnboundLocalError "func")).
Proof.
  split; [|split].
  - unfold fragility_curve. rewrite lower_idempotent. reflexivity.
  - unfold fragility_curve_second. rewrite lower_idempotent. reflexivity.
  - rewrite is_in_known. unfold fragility_curve, fragility_curve_second.
    destruct (is_in (lower damage_state) ["s"; "slight"]%string);
      [simpl; split; eexists; reflexivity|].
    destruct (is_in (lower damage_state) ["m"; "moderate"]%string);
      [simpl; split; eexists; reflexivity|].
    destruct (is_in (lower damage_state) ["e"; "extensive"]%string);
      [simpl; split; eexists; reflexivity|].
    destruct (is_in (lower damage_state) ["c"; "complete"; "collapse"]%string);
      [simpl; split; eexists; reflexivity|].
    simpl. split; reflexivity.
Qed.

(** X19.  The example curves of the secondary hazard for the slight,
    moderate and extensive states are one and the same curve (their
    medians are all 3.9), so the first two state probabilities are 0:
    the expected consequence is [(F_E - F_C) * cq_E + F_C * cq_C] and
    does not depend on the slight and moderate consequences. *)
Theorem secondary_curves_expected_consequence (scale im : R)
    (cq_s cq_m cq_e cq_c : R) :
  exists f_s f_m f_e f_c,
    fragility_curve_second lognorm_cdf "s" scale = Ok f_s /\
    fragility_curve_second lognorm_cdf "m" scale = Ok f_m /\
    fragility_curve_second lognorm_cdf "e" scale = Ok f_e /\
    fragility_curve_second lognorm_cdf "c" scale = Ok f_c /\
    prob_array (cdf_array im [f_s; f_m; f_e; f_c]) =
      [f_s im - f_m im; f_m im - f_e im; f_e im - f_c im; f_c im] /\
    f_s im - f_m im = 0 /\ f_m im - f_e im = 0 /\
    expected_consequence im (Some [f_s; f_m; f_e; f_c])
      (Some [cq_s; cq_m; cq_e; cq_c]) =
    Ok ((f_e im - f_c im) * cq_e + f_c im * cq_c).
Proof.
  do 4 eexists.
  split; [reflexivity|]. split; [reflexivity|].
  split; [reflexivity|]. split; [reflexivity|].
  split; [|split; [|split]].
  - unfold cdf_array. cbn [map].
    rewrite !prob_array_cons, prob_array_single. reflexivity.
  - unfold PGD_S, PGD_M. lra.
  - unfold PGD_M, PGD_E. lra.
  - rewrite expected_consequence_supplied by reflexivity.
    unfold cdf_array. cbn [map].
    rewrite !prob_array_cons, prob_array_single.
    unfold PGD_S, PGD_M, PGD_E. simpl. f_equal. lra.
Qed.

(** The part of the contract of [stats.lognorm.cdf] used below: for a
    positive scale its values are probabilities, and a larger scale
    (median) never gives a larger value. *)
Hypothesis cdf_range :
  forall x s scale, 0 < scale -> 0 <= lognorm_cdf x s scale <= 1.
Hypothesis cdf_scale :
  forall x s scale1 scale2,
    0 < scale1 -> scale1 <= scale2 ->
    lognorm_cdf x s scale2 <= lognorm_cdf x s scale1.

(** X20.  For a positive [scale], the four example curves of
    [fragility_curve] are ordered by severity at every IM (their medians
    grow from slight to complete), so the state probabilities that
    [expected_consequence] computes from them lie in [0, 1] and sum to
    at most 1. *)
Theorem example_curves_valid (scale im : R) :
  0 < scale ->
  exists f_s f_m f_e f_c,
    fragility_curve lognorm_cdf "s" scale = Ok f_s /\
    fragility_curve lognorm_cdf "m" scale = Ok f_m /\
    fragility_curve lognorm_cdf "e" scale = Ok f_e /\
    fragility_curve lognorm_cdf "c" scale = Ok f_c /\
    f_c im <= f_e im /\ f_e im <= f_m im /\ f_m im <= f_s im /\
    Forall (fun p => 0 <= p <= 1)
      (prob_array (cdf_array im [f_s; f_m; f_e; f_c])) /\
    Rsum (prob_array (cdf_array im [f_s; f_m; f_e; f_c])) <= 1.
Proof.
  intros Hscale. do 4 eexists.
  split; [reflexivity|]. split; [reflexivity|].
  split; [reflexivity|]. split; [reflexivity|].
  assert (Hs : 0 < scale * PGA_S) by (unfold PGA_S; nra).
  assert (Hm : 0 < scale * PGA_M) by (unfold PGA_M; nra).
  assert (He : 0 < scale * PGA_E) by (unfold PGA_E; nra).
  assert (Hc : 0 < scale * PGA_C) by (unfold PGA_C; nra).
  pose proof (cdf_scale im PGA_SIGMA (scale * PGA_S) (scale * PGA_M) Hs
                ltac:(unfold PGA_S, PGA_M; nra)) as Hsm.
  pose proof (cdf_scale im PGA_SIGMA (scale * PGA_M) (scale * PGA_E) Hm
                ltac:(unfold PGA_M, PGA_E; nra)) as Hme.
  pose proof (cdf_scale im PGA_SIGMA (scale * PGA_E) (scale * PGA_C) He
                ltac:(unfold PGA_E, PGA_C; nra)) as Hec.
  pose proof (cdf_range im PGA_SIGMA _ Hs) as Rs.
  pose proof (cdf_range im PGA_SIGMA _ Hc) as Rc.
  split; [exact Hec|]. split; [exact Hme|]. split; [exact Hsm|].
  unfold cdf_array. cbn [map].
  rewrite !prob_array_cons, prob_array_single. split.
  - repeat (apply Forall_cons; [lra|]). apply Forall_nil.
  - unfold Rsum. simpl. lra.
Qed.

(** X21.  Deterioration: for consequences that are non-negative and do
    not decrease with severity, the example curves with a smaller
    positive [scale] (smaller medians) never give a smaller expected
    consequence. *)
Theorem deterioration_raises_consequence (scale scale' im : R)
    (cq_array : list R) :
  0 < scale' -> scale' <= scale ->
  nondecreasing cq_array -> 0 <= hd 0 cq_array ->
  length cq_array = 4%nat ->
  exists f_s f_m f_e f_c g_s g_m g_e g_c risk risk',
    fragility_curve lognorm_cdf "s" scale = Ok f_s /\
    fragility_curve lognorm_cdf "m" scale = Ok f_m /\
    fragility_curve lognorm_cdf "e" scale = Ok f_e /\
    fragility_curve lognorm_cdf "c" scale = Ok f_c /\
    fragility_curve lognorm_cdf "s" scale' = Ok g_s /\
    fragility_curve lognorm_cdf "m" scale' = Ok g_m /\
    fragility_curve lognorm_cdf "e" scale' = Ok g_e /\
    fragility_curve lognorm_cdf "c" scale' = Ok g_c /\
    expected_consequence im (Some [f_s; f_m; f_e; f_c]) (Some cq_array) =
      Ok risk /\
    expected_consequence im (Some [g_s; g_m; g_e; g_c]) (Some cq_array) =
      Ok risk' /\
    risk <= risk'.
Proof.
  intros Hpos Hle Hq Hq0 Hlen. do 10 eexists.
  do 8 (split; [reflexivity|]).
  split; [apply expected_consequence_supplied; symmetry; exact Hlen|].
  split; [apply expected_consequence_supplied; symmetry; exact Hlen|].
  assert (Hcc : Forall2 Rle
            (cdf_array im
               [fun im => lognorm_cdf im PGA_SIGMA (scale * PGA_S);
                fun im => lognorm_cdf im PGA_SIGMA (scale * PGA_M);
                fun im => lognorm_cdf im PGA_SIGMA (scale * PGA_E);
                fun im => lognorm_cdf im PGA_SIGMA (scale * PGA_C)])
            (cdf_array im
               [fun im => lognorm_cdf im PGA_SIGMA (scale' * PGA_S);
                fun im => lognorm_cdf im PGA_SIGMA (scale' * PGA_M);
                fun im => lognorm_cdf im PGA_SIGMA (scale' * PGA_E);
                fun im => lognorm_cdf im PGA_SIGMA (scale' * PGA_C)])).
  { unfold cdf_array. cbn [map].
    repeat (apply Forall2_cons;
            [apply cdf_scale;
             unfold PGA_S, PGA_M, PGA_E, PGA_C; nra|]).
    apply Forall2_nil. }
  pose proof (inner_product_monotone _ _ cq_array Hcc Hq
                ltac:(rewrite cdf_array_length; simpl; lia)) as Hmono.
  assert (Hhd : lognorm_cdf im PGA_SIGMA (scale * PGA_S) <=
                lognorm_cdf im PGA_SIGMA (scale' * PGA_S)).
  { apply cdf_scale; unfold PGA_S; nra. }
  unfold cdf_array in *. cbn [map hd] in Hmono.
  assert (Hdiff : 0 <= lognorm_cdf im PGA_SIGMA (scale' * PGA_S)
                       - lognorm_cdf im PGA_SIGMA (scale * PGA_S)) by lra.
  pose proof (Rmult_le_pos _ _ Hdiff Hq0) as Hprod.
  cbn [map]. lra.
Qed.

End Lognormal.

Lemma ratio_cdf_range (x s scale : R) :
  0 < scale -> 0 <= ratio_cdf x s scale <= 1.
Proof.
  intros H. unfold ratio_cdf.
  pose proof (Rmax_l 0 x) as Hm.
  assert (Hd : 0 < Rmax 0 x + scale) by lra.
  split.
  - apply Rmult_le_pos; [exact Hm|]. left. apply Rinv_0_lt_compat. exact Hd.
  - apply (Rmult_le_reg_r (Rmax 0 x + scale)); [exact Hd|].
    unfold Rdiv. rewrite Rmult_assoc, Rinv_l by lra. lra.
Qed.

Lemma ratio_cdf_scale (x s scale1 scale2 : R) :
  0 < scale1 -> scale1 <= scale2 ->
  ratio_cdf x s scale2 <= ratio_cdf x s scale1.
Proof.
  intros H1 H2. unfold ratio_cdf, Rdiv.
  pose proof (Rmax_l 0 x) as Hm.
  apply Rmult_le_compat_l; [exact Hm|].
  apply Rinv_le_contravar; lra.
Qed.

Lemma example_curves_valid_witness :
  exists f_s f_m f_e f_c,
    fragility_curve ratio_cdf "s" 1 = Ok f_s /\
    fragility_curve ratio_cdf "m" 1 = Ok f_m /\
    fragility_curve ratio_cdf "e" 1 = Ok f_e /\
    fragility_curve ratio_cdf "c" 1 = Ok f_c /\
    f_c (1/2) <= f_e (1/2) /\ f_e (1/2) <= f_m (1/2) /\
    f_m (1/2) <= f_s (1/2) /\
    Forall (fun p => 0 <= p <= 1)
      (prob_array (cdf_array (1/2) [f_s; f_m; f_e; f_c])) /\
    Rsum (prob_array (cdf_array (1/2) [f_s; f_m; f_e; f_c])) <= 1.
Proof.
  apply (example_curves_valid ratio_cdf ratio_cdf_range ratio_cdf_scale 1 (1/2)).
  lra.
Defined.

Lemma deterioration_raises_consequence_witness :
  exists f_s f_m f_e f_c g_s g_m g_e g_c risk risk',
    fragility_curve ratio_cdf "s" 1 = Ok f_s /\
    fragility_curve ratio_cdf "m" 1 = Ok f_m /\
    fragility_curve ratio_cdf "e" 1 = Ok f_e /\
    fragility_curve ratio_cdf "c" 1 = Ok f_c /\
    fragility_curve ratio_cdf "s" (8/10) = Ok g_s /\
    fragility_curve ratio_cdf "m" (8/10) = Ok g_m /\
    fragility_curve ratio_cdf "e" (8/10) = Ok g_e /\
    fragility_curve ratio_cdf "c" (8/10) = Ok g_c /\
    expected_consequence (1/2) (Some [f_s; f_m; f_e; f_c])
      (Some [CQ_S; CQ_M; CQ_E; CQ_C]) = Ok risk /\
    expected_consequence (1/2) (Some [g_s; g_m; g_e; g_c])
      (Some [CQ_S; CQ_M; CQ_E; CQ_C]) = Ok risk' /\
    risk <= risk'.
Proof.
  apply (deterioration_raises_consequence ratio_cdf ratio_cdf_scale
           1 (8/10) (1/2) [CQ_S; CQ_M; CQ_E; CQ_C]).
  - lra.
  - lra.
  - unfold CQ_S, CQ_M, CQ_E, CQ_C. simpl. repeat split; lra.
  - unfold CQ_S. simpl. lra.
  - reflexivity.
Defined.

End FragilityFacts.

(* ===================================================================== *)
(** ** example/hazard.py                                                 *)
(* ===================================================================== *)

Module HazardFacts.
Import Np Scenario Reference Reference2 Reference3 Constants Hazard.
Import NpFacts LoopFacts GridFacts BodyFacts RiskArraysFacts.

Lemma Rltb_true (x y : R) : x < y -> Rltb x y = true.
Proof. intros H. unfold Rltb. destruct (Rlt_dec x y); [reflexivity | lra]. Qed.

Lemma Rltb_false (x y : R) : y <= x -> Rltb x y = false.
Proof. intros H. unfold Rltb. destruct (Rlt_dec x y); [lra | reflexivity]. Qed.

Lemma Reqb_true (x y : R) : x = y -> Reqb x y = true.
Proof.
  intros H. unfold Reqb. destruct (Req_dec_T x y); [reflexivity | contradiction].
Qed.

Lemma clip_unit_map (l : list R) : clip_unit l = map clip01 l.
Proof.
  unfold clip_unit, set_where. rewrite map_map. reflexivity.
Qed.


Lemma clip01_monotone (x y : R) : x <= y -> clip01 x <= clip01 y.
Proof.
  intros H. unfold clip01, Rltb.
  destruct (Rlt_dec x 0); destruct (Rlt_dec y 0);
    repeat match goal with |- context [Rlt_dec ?u ?v] =>
             destruct (Rlt_dec u v) end; lra.
Qed.

Lemma clip01_nonpositive (x : R) : x <= 0 -> clip01 x = 0.
Proof.
  intros H. unfold clip01, Rltb.
  destruct (Rlt_dec x 0); destruct (Rlt_dec 1 _); lra.
Qed.

(** The lines and the proportions of the classes 1 to 5. *)
Lemma class_line (sc : Z) :
  (1 <= sc <= 5)%Z ->
  exists coef off pml,
    0 < coef /\ 0 < off /\ 0 <= pml /\
    lq_probability sc =
      Some (fun a => NdArray (map (fun x => coef * x - off) a)) /\
    lq_pml sc = Some pml.
Proof.
  intros H.
  assert (E : sc = 1%Z \/ sc = 2%Z \/ sc = 3%Z \/ sc = 4%Z \/ sc = 5%Z) by lia.
  destruct E as [-> | [-> | [-> | [-> | ->]]]];
    do 3 eexists; (split; [|split; [|split; [|split; reflexivity]]]); lra.
Qed.

Lemma outside_classes (sc : Z) :
  (sc < 0 \/ 5 < sc)%Z ->
  lq_probability sc = None /\ lq_pml sc = None /\ PGA_trigger sc = None.
Proof.
  intros H. destruct sc as [|p|p]; [lia| |repeat split; reflexivity].
  destruct p as [[[p|p|]|[p|p|]|]|[[p|p|]|[p|p|]|]|]; try lia;
    repeat split; reflexivity.
Qed.

(** The probability of liquefaction of one PGA for a class from 1 to
    5, in terms of the line and the proportion of the class. *)
Lemma second_probability_value (sc : Z) (M dw coef off pml : R) :
  lq_probability sc =
    Some (fun a => NdArray (map (fun x => coef * x - off) a)) ->
  lq_pml sc = Some pml ->
  let prob := fun a => clip01 (clip01 (coef * a - off) / (kM M * kw dw) * pml) in
  (forall a, second_probability (Float a) sc M dw = Returned (Float (prob a))) /\
  (forall l, second_probability (Array l) sc M dw =
             Returned (Array (map prob l))).
Proof.
  intros Hline Hpml prob. split.
  - intros a. unfold second_probability, getitem.
    rewrite Hline, Hpml. cbn [hbind clip_items map].
    rewrite !clip_unit_map. reflexivity.
  - intros l. unfold second_probability, getitem.
    rewrite Hline, Hpml. cbn [hbind clip_items].
    rewrite !clip_unit_map, !map_map. reflexivity.
Qed.

(** X22.  [second_probability] fails for susceptibility class 0 on every
    input: the dictionary value for class 0 returns the integer 0, and
    the item assignment that follows is not defined on an integer.  For
    a class outside 0..5 the dictionary lookup fails with a
    [KeyError]. *)
Theorem second_probability_failures (im1 : value) (sc : Z) (M dw : R) :
  second_probability im1 0 M dw =
    Failed (Exn (TypeError "'int' object does not support item assignment")) /\
  ((sc < 0 \/ 5 < sc)%Z ->
   second_probability im1 sc M dw = Failed (KeyError sc)).
Proof.
  split.
  - destruct im1; reflexivity.
  - intros H. destruct (outside_classes sc H) as (Hnone & _ & _).
    unfold second_probability, getitem. rewrite Hnone.
    destruct im1; reflexivity.
Qed.

Lemma second_probability_failures_witness :
  second_probability (Array [0.1; 0.5]) 0 M_HAZARD WATER_DEPTH =
    Failed (Exn (TypeError "'int' object does not support item assignment")) /\
  second_probability (Array [0.1; 0.5]) 6 M_HAZARD WATER_DEPTH =
    Failed (KeyError 6).
Proof.
  destruct (second_probability_failures (Array [0.1; 0.5]) 6
              M_HAZARD WATER_DEPTH) as [H0 H6].
  split; [exact H0 | apply H6; lia].
Defined.


Lemma kM_kw_default : 0 < kM M_HAZARD * kw WATER_DEPTH.
Proof. unfold kM, kw, M_HAZARD, WATER_DEPTH. simpl. lra. Qed.


(** X24.  For a class from 1 to 5 and a positive [kM*kw], the
    probability returned by [second_probability] does not decrease with
    the PGA, and is 0 for a PGA of 0 or less. *)
Theorem second_probability_monotone (sc : Z) (M dw a a' p p' : R) :
  (1 <= sc <= 5)%Z -> 0 < kM M * kw dw ->
  second_probability (Float a) sc M dw = Returned (Float p) ->
  second_probability (Float a') sc M dw = Returned (Float p') ->
  a <= a' ->
  p <= p' /\ (a <= 0 -> p = 0).
Proof.
  intros Hsc Hk Hp Hp' Hle.
  destruct (class_line sc Hsc)
    as (coef & off & pml & Hcoef & Hoff & Hpml0 & Hline & Hpml).
  destruct (second_probability_value sc M dw coef off pml Hline Hpml)
    as [Hfloat _].
  rewrite Hfloat in Hp, Hp'. inversion Hp; subst p. inversion Hp'; subst p'.
  assert (Hinv : 0 < / (kM M * kw dw)) by (apply Rinv_0_lt_compat; exact Hk).
  assert (Hfac : 0 <= / (kM M * kw dw) * pml) by (apply Rmult_le_pos; lra).
  split.
  - apply clip01_monotone. unfold Rdiv. rewrite !Rmult_assoc.
    apply Rmult_le_compat_r; [exact Hfac|].
    apply clip01_monotone. nra.
  - intros Ha. rewrite (clip01_nonpositive (coef * a - off)) by nra.
    unfold Rdiv. rewrite !Rmult_0_l. apply clip01_nonpositive. lra.
Qed.

Lemma second_probability_monotone_witness :
  exists p p',
    second_probability (Float 0) 5 M_HAZARD WATER_DEPTH = Returned (Float p) /\
    second_probability (Float 0.5) 5 M_HAZARD WATER_DEPTH = Returned (Float p') /\
    p <= p' /\ (0 <= 0 -> p = 0).
Proof.
  do 2 eexists. split; [reflexivity|]. split; [reflexivity|].
  apply (second_probability_monotone 5 M_HAZARD WATER_DEPTH 0 0.5).
  - lia.
  - exact kM_kw_default.
  - reflexivity.
  - reflexivity.
  - lra.
Defined.

(** The four masked assignments of lines 151-154 leave, element by
    element, the piecewise linear function [PGD_standard_at]. *)
Lemma PGD_standard_map (x : list R) :
  PGD_standard x = map PGD_standard_at x.
Proof.
  unfold PGD_standard, assign_where. cbv zeta.
  induction x as [|a t IH]; [reflexivity|].
  cbn [map zip_with]. rewrite IH. f_equal.
  unfold PGD_standard_at, Rltb, Rleb.
  repeat match goal with
         | |- context [Rlt_dec ?u ?v] => destruct (Rlt_dec u v)
         | |- context [Rle_dec ?u ?v] => destruct (Rle_dec u v)
         end; cbn [andb]; try reflexivity; lra.
Qed.

Lemma PGD_standard_at_nonnegative (x : R) : 0 <= PGD_standard_at x.
Proof.
  unfold PGD_standard_at, Rltb.
  repeat match goal with
         | |- context [Rlt_dec ?u ?v] => destruct (Rlt_dec u v)
         end; lra.
Qed.

Lemma PGD_standard_at_monotone (x y : R) :
  x <= y -> PGD_standard_at x <= PGD_standard_at y.
Proof.
  intros H. unfold PGD_standard_at, Rltb.
  repeat match goal with
         | |- context [Rlt_dec ?u ?v] => destruct (Rlt_dec u v)
         end; lra.
Qed.

Lemma PGD_standard_at_low (x : R) : x <= 1 -> PGD_standard_at x = 0.
Proof.
  intros H. unfold PGD_standard_at, Rltb.
  repeat match goal with
         | |- context [Rlt_dec ?u ?v] => destruct (Rlt_dec u v)
         end; lra.
Qed.

Lemma PGD_median_length (im1 : list R) (trigger : xreal) (M : R) :
  length (PGD_median im1 trigger M) = length im1.
Proof.
  unfold PGD_median. rewrite PGD_standard_map, !length_map. reflexivity.
Qed.

Lemma PGA_trigger_positive (sc : Z) (t : R) :
  PGA_trigger sc = Some (Fin t) -> 0 < t.
Proof.
  intros H.
  destruct (Z_lt_dec sc 0) as [Hlo|Hlo];
    [destruct (outside_classes sc (or_introl Hlo)) as (_ & _ & E); congruence|].
  destruct (Z_lt_dec 5 sc) as [Hhi|Hhi];
    [destruct (outside_classes sc (or_intror Hhi)) as (_ & _ & E); congruence|].
  assert (E : sc = 0%Z \/ sc = 1%Z \/ sc = 2%Z \/ sc = 3%Z \/ sc = 4%Z \/
              sc = 5%Z) by lia.
  destruct E as [-> | [-> | [-> | [-> | [-> | ->]]]]];
    cbn in H; inversion H; lra.
Qed.

Lemma PGA_trigger_classes (sc : Z) :
  (1 <= sc <= 5)%Z -> exists t, PGA_trigger sc = Some (Fin t).
Proof.
  intros H.
  assert (E : sc = 1%Z \/ sc = 2%Z \/ sc = 3%Z \/ sc = 4%Z \/ sc = 5%Z) by lia.
  destruct E as [-> | [-> | [-> | [-> | ->]]]]; eexists; reflexivity.
Qed.

(** Up to the trigger PGA of its class the median PGD of an element
    is 0. *)
Lemma no_displacement (sc : Z) (trigger : xreal) (a : R) :
  PGA_trigger sc = Some trigger ->
  at_most_trigger a trigger ->
  PGD_standard_at (over_trigger a trigger) = 0.
Proof.
  intros Htr Ha. apply PGD_standard_at_low.
  destruct trigger as [t|]; cbn [over_trigger at_most_trigger] in *; [|lra].
  pose proof (PGA_trigger_positive sc t Htr) as Ht.
  apply (Rmult_le_reg_r t); [exact Ht|].
  unfold Rdiv. rewrite Rmult_assoc, Rinv_l by lra. lra.
Qed.

Lemma pgd_density_zero (pdf : R -> R -> R -> R) (sigma im k : R) :
  pgd_density pdf sigma im (k * 0) = 0.
Proof.
  unfold pgd_density. rewrite Reqb_true by lra. reflexivity.
Qed.

Lemma zero_density_zip (pdf : R -> R -> R -> R) (sc : Z) (trigger : xreal)
    (M sigma : R) (a1 : list R) :
  PGA_trigger sc = Some trigger ->
  Forall (fun a => at_most_trigger a trigger) a1 ->
  forall a2, length a1 = length a2 ->
  zip_with (pgd_density pdf sigma) a2 (PGD_median a1 trigger M) =
    map (fun _ => 0) a2.
Proof.
  intros Htr Hall. unfold PGD_median. rewrite PGD_standard_map.
  induction Hall as [|a t Ha Hall IH]; intros [|b u] Hlen;
    try reflexivity; try discriminate Hlen.
  cbn [map zip_with]. rewrite (no_displacement sc trigger a Htr Ha).
  rewrite pgd_density_zero. f_equal. apply IH. cbn in Hlen. lia.
Qed.

Lemma assert_fails (msg : string) :
  lift (assert false msg) = Failed (Exn (AssertionError msg)).
Proof. reflexivity. Qed.

(** X25.  The failures of [d_second_hazard_curve]: two arrays of
    different lengths fail the assertion of line 137, whatever the
    class; an array of primary IMs with a float secondary IM fails at
    [len(im2)]; and with inputs that pass line 137 a class outside 0..5
    fails with a [KeyError] at the lookup of the trigger PGA. *)
Theorem d_second_hazard_curve_failures (pdf : R -> R -> R -> R)
    (a1 a2 : list R) (a b : R) (sc : Z) (M sigma : R) :
  (length a1 <> length a2 ->
   d_second_hazard_curve pdf (Array a1) (Array a2) sc M sigma =
     Failed (Exn (AssertionError
       "primary and secondary IM must have the same length"))) /\
  d_second_hazard_curve pdf (Array a1) (Float b) sc M sigma =
    Failed (Exn (TypeError "len() of unsized object")) /\
  ((sc < 0 \/ 5 < sc)%Z ->
   d_second_hazard_curve pdf (Float a) (Float b) sc M sigma =
     Failed (KeyError sc) /\
   d_second_hazard_curve pdf (Float a) (Array a2) sc M sigma =
     Failed (KeyError sc) /\
   (length a1 = length a2 ->
    d_second_hazard_curve pdf (Array a1) (Array a2) sc M sigma =
      Failed (KeyError sc))).
Proof.
  split; [|split].
  - intros Hlen. unfold d_second_hazard_curve.
    apply Nat.eqb_neq in Hlen. rewrite Hlen. reflexivity.
  - reflexivity.
  - intros Hsc. destruct (outside_classes sc Hsc) as (_ & _ & Hnone).
    unfold d_second_hazard_curve, getitem. rewrite Hnone.
    split; [reflexivity|]. split; [reflexivity|].
    intros Hlen. rewrite Hlen, Nat.eqb_refl. reflexivity.
Qed.

Lemma d_second_hazard_curve_failures_witness :
  d_second_hazard_curve (fun _ _ _ => 1) (Array [0.1; 0.2]) (Array [1])
      7 M_HAZARD PGD_SIGMA =
    Failed (Exn (AssertionError
      "primary and secondary IM must have the same length")) /\
  d_second_hazard_curve (fun _ _ _ => 1) (Array [0.1; 0.2]) (Array [1; 2])
      7 M_HAZARD PGD_SIGMA = Failed (KeyError 7).
Proof.
  split.
  - apply (d_second_hazard_curve_failures (fun _ _ _ => 1)
             [0.1; 0.2] [1] 0 0 7 M_HAZARD PGD_SIGMA).
    cbn. lia.
  - destruct (d_second_hazard_curve_failures (fun _ _ _ => 1)
                [0.1; 0.2] [1; 2] 0 0 7 M_HAZARD PGD_SIGMA) as (_ & _ & H).
    apply H; [lia | reflexivity].
Defined.

(** X26.  [d_second_hazard_curve] returns a density of 0 wherever the
    primary IM is at most the trigger PGA of the class, without calling
    the lognormal density there; for class 0, whose trigger is
    [np.inf], that is everywhere. *)
Theorem density_zero_up_to_trigger (pdf : R -> R -> R -> R) (sc : Z)
    (trigger : xreal) (M sigma a b : R) (a1 a2 : list R) :
  PGA_trigger sc = Some trigger ->
  (at_most_trigger a trigger ->
   d_second_hazard_curve pdf (Float a) (Float b) sc M sigma =
     Returned (Float 0) /\
   d_second_hazard_curve pdf (Float a) (Array a2) sc M sigma =
     Returned (Array (map (fun _ => 0) a2))) /\
  (Forall (fun x => at_most_trigger x trigger) a1 ->
   length a1 = length a2 ->
   d_second_hazard_curve pdf (Array a1) (Array a2) sc M sigma =
     Returned (Array (map (fun _ => 0) a2))).
Proof.
  intros Htr. split.
  - intros Ha. unfold d_second_hazard_curve, getitem. rewrite Htr.
    cbn [hbind]. unfold PGD_median. rewrite PGD_standard_map.
    cbn [map hd]. rewrite (no_displacement sc trigger a Htr Ha).
    split.
    + rewrite pgd_density_zero. reflexivity.
    + do 2 f_equal. apply map_ext. intros im. apply pgd_density_zero.
  - intros Hall Hlen. unfold d_second_hazard_curve, getitem.
    rewrite Hlen, Nat.eqb_refl, Htr. cbn [assert lift hbind].
    rewrite (zero_density_zip pdf sc trigger M sigma a1 Htr Hall a2 Hlen).
    reflexivity.
Qed.

Lemma density_zero_up_to_trigger_witness :
  d_second_hazard_curve (fun _ _ _ => 1) (Array [0.05; 0.09]) (Array [1; 2])
      5 M_HAZARD PGD_SIGMA = Returned (Array [0; 0]) /\
  d_second_hazard_curve (fun _ _ _ => 1) (Array [0.5; 9]) (Array [1; 2])
      0 M_HAZARD PGD_SIGMA = Returned (Array [0; 0]).
Proof.
  split.
  - apply (density_zero_up_to_trigger (fun _ _ _ => 1) 5 (Fin 0.09)
             M_HAZARD PGD_SIGMA 0 0 [0.05; 0.09] [1; 2] eq_refl).
    + repeat (apply Forall_cons; [cbn; lra|]). apply Forall_nil.
    + reflexivity.
  - apply (density_zero_up_to_trigger (fun _ _ _ => 1) 0 PInf
             M_HAZARD PGD_SIGMA 0 0 [0.5; 9] [1; 2] eq_refl).
    + repeat (apply Forall_cons; [exact I|]). apply Forall_nil.
    + reflexivity.
Defined.

(** X27.  The masks of lines 146-149 partition the normalised PGA, so
    the four masked assignments compute one piecewise linear function
    of each element; that function is never negative, never decreases,
    and its pieces agree where they meet (0 at 1, 12 at 2, 30 at 3). *)
Theorem PGD_standard_piecewise (x : list R) (u v : R) :
  PGD_standard x = map PGD_standard_at x /\
  0 <= PGD_standard_at u /\
  (u <= v -> PGD_standard_at u <= PGD_standard_at v) /\
  PGD_standard [1; 2; 3] = [12 * 1 - 12; 18 * 2 - 24; 70 * 3 - 180] /\
  12 * 1 - 12 = 0 /\ 18 * 2 - 24 = 12 * 2 - 12 /\ 70 * 3 - 180 = 18 * 3 - 24.
Proof.
  split; [apply PGD_standard_map|].
  split; [apply PGD_standard_at_nonnegative|].
  split; [apply PGD_standard_at_monotone|].
  split; [|lra].
  rewrite PGD_standard_map. cbn [map]. unfold PGD_standard_at.
  rewrite (Rltb_false 1 1), (Rltb_true 1 2), (Rltb_false 2 1),
    (Rltb_false 2 2), (Rltb_true 2 3), (Rltb_false 3 1), (Rltb_false 3 2),
    (Rltb_false 3 3) by lra.
  reflexivity.
Qed.

Lemma PGD_standard_piecewise_witness :
  PGD_standard_at 1.5 <= PGD_standard_at 2.5.
Proof.
  destruct (PGD_standard_piecewise [] 1.5 2.5) as (_ & _ & H & _).
  apply H. lra.
Defined.

(** On two arrays of one length and a class from 1 to 5,
    [im2d_likelihood] returns an array of that length. *)
Lemma im2d_likelihood_arrays (pdf : R -> R -> R -> R) (sc : Z)
    (M dw sigma : R) (a1 a2 : list R) :
  (1 <= sc <= 5)%Z -> length a1 = length a2 ->
  exists l,
    im2d_likelihood pdf (Array a1) (Array a2) sc M dw sigma =
      Returned (Array l) /\
    length l = length a1.
Proof.
  intros Hsc Hlen.
  destruct (class_line sc Hsc) as (coef & off & pml & _ & _ & _ & Hline & Hpml).
  destruct (second_probability_value sc M dw coef off pml Hline Hpml)
    as [_ Harray].
  destruct (PGA_trigger_classes sc Hsc) as [t Htr].
  unfold im2d_likelihood. rewrite Harray. cbn [hbind].
  unfold d_second_hazard_curve, getitem.
  rewrite Hlen, Nat.eqb_refl, Htr. cbn [assert lift hbind].
  unfold hazard_likelihood, vmap.
  rewrite mul_arrays by (rewrite !length_map; reflexivity).
  cbn [lift hbind].
  assert (L1 : forall f g : R -> R,
            length (zip_with Rmult (map f a1) (map g a1)) = length a1).
  { intros f g. rewrite zip_with_length_min, !length_map. lia. }
  assert (L2 : length (zip_with (pgd_density pdf sigma) a2
                         (PGD_median a1 (Fin t) M)) = length a1).
  { rewrite zip_with_length_min, PGD_median_length. lia. }
  rewrite mul_arrays by (rewrite L1, L2; reflexivity).
  cbn [lift]. eexists. split; [reflexivity|].
  rewrite zip_with_length_min, L1, L2. lia.
Qed.

(** X29.  [im2d_likelihood] fails for susceptibility class 0 on every
    input, with the [TypeError] of [second_probability]; for a class
    from 1 to 5 (and [kM*kw] not 0) the likelihood of a pair of floats
    is 0 when the primary IM is at most the trigger PGA. *)
Theorem im2d_likelihood_behaviour (pdf : R -> R -> R -> R)
    (im1 im2 : value) (sc : Z) (t M dw sigma a b : R) :
  im2d_likelihood pdf im1 im2 0 M dw sigma =
    Failed (Exn (TypeError "'int' object does not support item assignment")) /\
  ((1 <= sc <= 5)%Z -> kM M * kw dw <> 0 ->
   PGA_trigger sc = Some (Fin t) -> a <= t ->
   im2d_likelihood pdf (Float a) (Float b) sc M dw sigma = Returned (Float 0)).
Proof.
  split.
  - unfold im2d_likelihood. destruct im1; reflexivity.
  - intros Hsc _ Htr Ha.
    destruct (class_line sc Hsc)
      as (coef & off & pml & _ & _ & _ & Hline & Hpml).
    destruct (second_probability_value sc M dw coef off pml Hline Hpml)
      as [Hfloat _].
    unfold im2d_likelihood. rewrite Hfloat. cbn [hbind].
    unfold d_second_hazard_curve, getitem. rewrite Htr. cbn [hbind].
    unfold PGD_median. rewrite PGD_standard_map. cbn [map hd].
    rewrite (no_displacement sc (Fin t) a Htr Ha), pgd_density_zero.
    unfold hazard_likelihood, vmap. cbn [mul lift hbind].
    do 2 f_equal. lra.
Qed.

Lemma im2d_likelihood_behaviour_witness :
  im2d_likelihood (fun _ _ _ => 1) (Float 0.05) (Float 2) 5
    M_HAZARD WATER_DEPTH PGD_SIGMA = Returned (Float 0).
Proof.
  destruct (im2d_likelihood_behaviour (fun _ _ _ => 1) (Float 0) (Float 0)
              5 0.09 M_HAZARD WATER_DEPTH PGD_SIGMA 0.05 2) as [_ H].
  apply H.
  - lia.
  - pose proof kM_kw_default. lra.
  - reflexivity.
  - lra.
Defined.

(** X30.  The example likelihood accepts the grid of the secondary
    engine: on the two raveled arrays of IMs that [secondary_grid]
    builds from a rule, [im2d_likelihood] with a class from 1 to 5
    returns an array with one likelihood per grid point, so that the
    length assertion of [d_second_hazard_curve] does not fire. *)
Theorem im2d_likelihood_on_grid (roots_legendre : Z -> result (list R * list R))
    (pdf : R -> R -> R -> R) (a b c d : R) (n sc : Z) (M dw sigma : R)
    (im1 im2 w1 w2 : list R) :
  secondary_grid roots_legendre a b c d n = Ok (im1, im2, w1, w2) ->
  (1 <= sc <= 5)%Z ->
  exists l,
    im2d_likelihood pdf (Array im1) (Array im2) sc M dw sigma =
      Returned (Array l) /\
    length l = length im1 /\ length im1 = length im2.
Proof.
  intros Hgrid Hsc.
  assert (Hlen : length im1 = length im2).
  { unfold secondary_grid in Hgrid.
    destruct (roots_legendre n) as [[x w]|e]; cbn [bind] in Hgrid;
      [|discriminate Hgrid].
    destruct (meshgrid_ravel_lengths (rescale_points a b x)
                (rescale_points c d x)) as [P1 P2].
    destruct (meshgrid_ravel (rescale_points a b x) (rescale_points c d x))
      as [g1 g2].
    destruct (meshgrid_ravel (rescale_weights a b w) (rescale_weights c d w))
      as [v1 v2].
    inversion Hgrid; subst. cbn [fst snd] in P1, P2. congruence. }
  destruct (im2d_likelihood_arrays pdf sc M dw sigma im1 im2 Hsc Hlen)
    as (l & Hl & Hll).
  exists l. split; [exact Hl|]. split; [exact Hll | exact Hlen].
Qed.

Lemma im2d_likelihood_on_grid_witness :
  exists im1 im2 w1 w2 l,
    secondary_grid gauss_legendre_12 0 1 0 40 2 = Ok (im1, im2, w1, w2) /\
    im2d_likelihood (fun _ _ _ => 1) (Array im1) (Array im2) 5
      M_HAZARD WATER_DEPTH PGD_SIGMA = Returned (Array l) /\
    length l = length im1 /\ length im1 = length im2.
Proof.
  pose proof (secondary_grid_eq gauss_legendre_12 0 1 0 40 2
                [- / sqrt 3; / sqrt 3] [1; 1] eq_refl) as G.
  assert (Hsc : (1 <= 5 <= 5)%Z) by lia.
  destruct (im2d_likelihood_on_grid gauss_legendre_12 (fun _ _ _ => 1)
              0 1 0 40 2 5 M_HAZARD WATER_DEPTH PGD_SIGMA _ _ _ _ G Hsc)
    as (l & H).
  do 4 eexists. exists l. split; [exact G | exact H].
Defined.

End HazardFacts.

(* ===================================================================== *)
(** ** The weight and the probability invariants under rounding          *)
(* ===================================================================== *)

Module RoundedFacts.
Import Np Risk Scenario Reference Reference2.
Import NpFacts GridFacts.









(** With the identity for [rnd] the rounded lines are the ones of
    [Scenario] and [Risk]. *)
Lemma rescale_weights_exactly (lo hi : R) (w : list R) :
  Rounded.rescale_weights Rounded.exactly lo hi w = rescale_weights lo hi w.
Proof. reflexivity. Qed.

Lemma diff_exactly (l : list R) : Rounded.diff Rounded.exactly l = diff l.
Proof. reflexivity. Qed.

Lemma prob_array_exactly (cdf : list R) :
  Rounded.prob_array Rounded.exactly cdf = prob_array cdf.
Proof. reflexivity. Qed.

Section Rounding.
Variable rnd : R -> R.
Variable u : R.
Hypothesis u_range : 0 <= u <= 1.













End Rounding.







End RoundedFacts.

(* ===================================================================== *)
(** ** The invariants evaluated in float64                               *)
(* ===================================================================== *)

Module Float64Facts.
Import Floats.

#[local] Set Warnings "-inexact-float".
Local Open Scope float_scope.



End Float64Facts.
